(** * Solana token analyzer: the paged aggregation endpoints

    A shallow embedding of the three serverless endpoints of the
    repository (holders, traders, interval), in their Solscan Pro
    ([api/*.ts]) and public API ([api/*.js]) versions, and the
    properties of their pagination-and-aggregation loops; and of the
    pure parts of the client ([utils/solscan.ts], [App.tsx]): the
    query parameters it sends, the short form of an address and the
    sorting of the table.

    Modelling conventions.
    - Integers of the upstream feed ([blockTime], [total]) are [Z];
      the amounts of the holders, which the code only compares, are
      rationals [Q].  The amounts and volumes of traders.ts, which the
      code divides and adds, are IEEE doubles with the host's
      operations (the primitive floats); a number read from JSON is a
      double other than [NaN].
    - A value that comes out of [parseInt] or [parseFloat] is a
      [number]: either [NaN] or a finite value.
    - The upstream API is a function from the requested offset to the
      response of the HTTP call; every call is recorded in a log of
      requested offsets, returned with the result.
    - The [while] loops are defined by recursion on a bound on the
      number of iterations; [OutOfFuel] is the outcome of a run that
      needs more iterations than the bound.
    - A [Map] keyed by wallet address is an association list in
      insertion order.  A plain object used as a map is the association
      list of its own properties, in the order of their creation:
      reading a key also finds the names inherited from
      [Object.prototype], and [Object.entries] lists the array indices
      among the keys first. *)

From Stdlib Require Import Floats.
From Stdlib Require Import String Ascii.
From Stdlib Require Import List ZArith QArith Lia Lqa Bool.
From Stdlib Require Import Permutation Sorted.
From Stdlib Require DecimalString DecimalZ DecimalPos.
Import ListNotations.
Open Scope string_scope.
Open Scope list_scope.
Open Scope Z_scope.

Set Implicit Arguments.

(** ** The host language *)

Module Js.

(** A JavaScript number where the code may meet [NaN]. *)
Inductive number (A : Type) : Type :=
| NaN : number A
| Num : A -> number A.
Arguments NaN {A}.
Arguments Num {A} _.

(** [a < b], [a <= b], [a >= b] for an integer [a]; every comparison
    with [NaN] is false. *)
Definition lt (a : Z) (b : number Z) : bool :=
  match b with NaN => false | Num b => a <? b end.
Definition le (a : Z) (b : number Z) : bool :=
  match b with NaN => false | Num b => a <=? b end.
Definition ge (a : Z) (b : number Z) : bool :=
  match b with NaN => false | Num b => b <=? a end.

(** [a >= b] for a rational [a]. *)
Definition geQ (a : Q) (b : number Q) : bool :=
  match b with NaN => false | Num b => Qle_bool b a end.

(** [l.slice(0, end)]: [NaN] is converted to 0, a negative [end]
    counts from the end of the array. *)
Definition slice0 (A : Type) (l : list A) (end_ : number Z) : list A :=
  let len := Z.of_nat (length l) in
  let relativeEnd := match end_ with NaN => 0 | Num e => e end in
  let final :=
    if relativeEnd <? 0 then Z.max (len + relativeEnd) 0
    else Z.min relativeEnd len in
  firstn (Z.to_nat final) l.

(** [l.sort(cmp)]: the sort is stable, and [cmp a b > 0] puts [a]
    after [b].  For a consistent comparator the result is determined
    by these two facts; it is computed here by stable insertion. *)
Fixpoint sort_insert (A : Type) (cmp : A -> A -> Q) (x : A) (l : list A)
  : list A :=
  match l with
  | [] => [x]
  | y :: l' =>
      if Qle_bool (cmp x y) 0 then x :: l else y :: sort_insert cmp x l'
  end.

Definition sort (A : Type) (cmp : A -> A -> Q) (l : list A) : list A :=
  fold_right (sort_insert cmp) [] l.

(** Truthiness of a string: only the empty string is falsy. *)
Definition truthy (s : string) : bool :=
  match s with EmptyString => false | String _ _ => true end.

(** *** Objects and Maps keyed by strings, in insertion order *)

Definition dict (V : Type) : Type := list (string * V).

Fixpoint get (V : Type) (m : dict V) (k : string) : option V :=
  match m with
  | [] => None
  | (k', v) :: m' => if String.eqb k k' then Some v else get m' k
  end.

Definition has (V : Type) (m : dict V) (k : string) : bool :=
  match get m k with Some _ => true | None => false end.

(** [m.set(k, v)] or [m[k] = v]: an existing key keeps its place, a
    new key goes last. *)
Fixpoint set (V : Type) (m : dict V) (k : string) (v : V) : dict V :=
  match m with
  | [] => [(k, v)]
  | (k', v') :: m' =>
      if String.eqb k k' then (k', v) :: m' else (k', v') :: set m' k v
  end.

Definition keys (V : Type) (m : dict V) : list string := map fst m.

(** *** [parseInt(s, 10)] *)

Definition is_white_space (c : ascii) : bool :=
  let n := nat_of_ascii c in
  ((9 <=? n) && (n <=? 13))%nat || (n =? 32)%nat.

Fixpoint skip_white_space (s : string) : string :=
  match s with
  | String c s' => if is_white_space c then skip_white_space s' else s
  | EmptyString => s
  end.

Definition digit_value (c : ascii) : option Z :=
  let n := nat_of_ascii c in
  if ((48 <=? n) && (n <=? 57))%nat then Some (Z.of_nat n - 48) else None.

(** The value of the longest prefix of decimal digits, [None] when
    there is no digit. *)
Fixpoint digits (s : string) (acc : option Z) : option Z :=
  match s with
  | String c s' =>
      match digit_value c with
      | Some d =>
          digits s' (Some (10 * match acc with Some a => a | None => 0 end + d))
      | None => acc
      end
  | EmptyString => acc
  end.

(** The result is the integer the digits denote: the host returns the
    double nearest to it, which is that integer up to [2^53] in
    absolute value.  The white space skipped is that of ASCII. *)
Definition parseInt (s : string) : number Z :=
  let s := skip_white_space s in
  let '(sign, s) :=
    match s with
    | String "-" s' => (-1, s')
    | String "+" s' => (1, s')
    | _ => (1, s)
    end in
  match digits s None with
  | Some n => Num (sign * n)
  | None => NaN
  end.

(** *** Plain objects

    A plain object ([{}]) used as a map is the [dict] of its own
    properties, in the order of their creation. *)

(** The names a plain object inherits from [Object.prototype].  The
    value read under each is a function, or [Object.prototype] itself
    under [__proto__]: a truthy value, and an object, so that a
    property can be written on it. *)
Definition inherited (k : string) : bool :=
  existsb (String.eqb k)
    [ "constructor"; "hasOwnProperty"; "isPrototypeOf";
      "propertyIsEnumerable"; "toLocaleString"; "toString"; "valueOf";
      "__proto__"; "__defineGetter__"; "__defineSetter__";
      "__lookupGetter__"; "__lookupSetter__" ].

(** The value of a string of decimal digits. *)
Fixpoint decimal (s : string) (acc : Z) : option Z :=
  match s with
  | EmptyString => Some acc
  | String c s' =>
      match digit_value c with
      | Some d => decimal s' (10 * acc + d)
      | None => None
      end
  end.

(** An array index: the canonical decimal form of an integer from 0
    to [2^32 - 2]. *)
Definition array_index (k : string) : option Z :=
  match k with
  | EmptyString => None
  | String "0" EmptyString => Some 0
  | String "0" _ => None
  | _ =>
      match decimal k 0 with
      | Some n => if n <? 4294967295 then Some n else None
      | None => None
      end
  end.

Definition is_index (V : Type) (p : string * V) : bool :=
  match array_index (fst p) with Some _ => true | None => false end.

Definition index_of (V : Type) (p : string * V) : Z :=
  match array_index (fst p) with Some i => i | None => 0 end.

(** [Object.entries(o)]: the keys that are array indices come first,
    in ascending order, then the other keys in the order of their
    creation. *)
Definition entries (V : Type) (o : dict V) : list (string * V) :=
  sort (fun a b => inject_Z (index_of a - index_of b))
       (filter (@is_index V) o)
  ++ filter (fun p => negb (is_index p)) o.

(** *** Doubles *)

(** A number read from JSON: a double, never [NaN] (a literal beyond
    the range of the doubles reads as an infinity). *)
Record JsonNumber : Type := json {
  double : float;
  not_NaN : PrimFloat.is_nan double = false
}.

(** [l.sort(cmp)] for a comparator that returns a double: as [sort],
    [cmp a b > 0] puts [a] after [b]; a result of [NaN] counts as 0. *)
Fixpoint sort_insert_double (A : Type) (cmp : A -> A -> float) (x : A)
    (l : list A) : list A :=
  match l with
  | [] => [x]
  | y :: l' =>
      if (0 <? cmp x y)%float then y :: sort_insert_double cmp x l'
      else x :: l
  end.

Definition sort_double (A : Type) (cmp : A -> A -> float) (l : list A)
  : list A :=
  fold_right (sort_insert_double cmp) [] l.

End Js.

Import Js.

(** ** HTTP: the upstream API and the endpoint's own response *)

(** The response of one [axios.get]: a payload ([None] when the
    response carries none and the test [!data] holds), or a rejected
    promise (transport error or a status outside 2xx). *)
Inductive Response (B : Type) : Type :=
| Resp (data : option B)
| Reject.
Arguments Resp {B} data.
Arguments Reject {B}.

(** The upstream API: the response to the request for an offset. *)
Definition Upstream (B : Type) : Type := Z -> Response B.

(** The result of an [async] function, with the offsets requested
    upstream, in order. *)
Inductive outcome (A : Type) : Type :=
| Returned (v : A) (log : list Z)
| Threw (message : string) (log : list Z)
| OutOfFuel.
Arguments Returned {A} v log.
Arguments Threw {A} message log.
Arguments OutOfFuel {A}.

(** One request was made before the rest of the run. *)
Definition requested (A : Type) (offset : Z) (o : outcome A) : outcome A :=
  match o with
  | Returned v log => Returned v (offset :: log)
  | Threw m log => Threw m (offset :: log)
  | OutOfFuel => OutOfFuel
  end.

(** The offsets a finished run requested. *)
Definition log_of (A : Type) (o : outcome A) : list Z :=
  match o with
  | Returned _ log => log
  | Threw _ log => log
  | OutOfFuel => []
  end.

(** What follows the loop, on the value it leaves. *)
Definition and_then (A B : Type) (o : outcome A) (f : A -> B) : outcome B :=
  match o with
  | Returned v log => Returned (f v) log
  | Threw m log => Threw m log
  | OutOfFuel => OutOfFuel
  end.

(** A value of [req.query]: a string, or an array of strings when the
    parameter is repeated. *)
Inductive qvalue : Type :=
| QStr (s : string)
| QArr (l : list string).

Definition ToString (v : qvalue) : string :=
  match v with QStr s => s | QArr l => String.concat "," l end.

(** [!v] for an optional query value: undefined and the empty string
    are falsy, an array is truthy. *)
Definition missing (v : option qvalue) : bool :=
  match v with
  | None => true
  | Some (QStr s) => negb (truthy s)
  | Some (QArr _) => false
  end.

(** [const { p = d } = req.query]. *)
Definition with_default (d : string) (v : option qvalue) : qvalue :=
  match v with None => QStr d | Some v => v end.

(** [parseInt(v as string, 10)] on a query value; [undefined] reads
    as the string "undefined", which has no digit. *)
Definition parseIntQ (v : option qvalue) : number Z :=
  match v with Some v => parseInt (ToString v) | None => NaN end.

(** The JSON body of the endpoint's response. *)
Inductive Json (A : Type) : Type :=
| ErrorBody (error : string)
| Rows (rows : list A).
Arguments ErrorBody {A} error.
Arguments Rows {A} rows.

(** What the handler did: the response it sent and the upstream
    requests made before; [Pending] when the run did not finish. *)
Inductive served (A : Type) : Type :=
| Served (status : Z) (body : Json A) (log : list Z)
| Pending.
Arguments Served {A} status body log.
Arguments Pending {A}.

(** [try { rows = await fetch(...); res.status(200).json(rows) }
     catch (error) { res.status(500).json({error: error.message}) }]. *)
Definition respond (A : Type) (o : outcome (list A)) : served A :=
  match o with
  | Returned rows log => Served 200 (Rows rows) log
  | Threw m log => Served 500 (ErrorBody m) log
  | OutOfFuel => Pending
  end.

(** [!process.env.VITE_SOLSCAN_PRO_API_KEY]. *)
Definition key_missing (key : option string) : bool :=
  match key with None => true | Some k => negb (truthy k) end.

Definition pageSize : Z := 50.

(** ** Holders *)

Module Holder.
(** A record of the upstream holders endpoint ([rank] and the raw
    [amount] are not read by the code). *)
Record t : Type := mk {
  address : string;
  uiAmount : Q;
  owner : string
}.
End Holder.

Module HolderRow.
Record t : Type := mk {
  wallet : string;
  amount : Q
}.
End HolderRow.

Module Holders.

Definition row (h : Holder.t) : HolderRow.t :=
  {| HolderRow.wallet := Holder.owner h; HolderRow.amount := Holder.uiAmount h |}.

(** [data.filter(h => h.uiAmount >= minAmount)
        .map(h => ({wallet: h.owner, amount: h.uiAmount}))] *)
Definition qualifying (minAmount : number Q) (l : list Holder.t)
  : list HolderRow.t :=
  map row (filter (fun h => geQ (Holder.uiAmount h) minAmount) l).

Record Query : Type := mkQuery {
  token : option qvalue;
  limit : option qvalue;
  minAmount : option qvalue
}.

(** [api/holders.ts] *)
Module Pro.

Record SolscanResponse : Type := mkSolscanResponse {
  data : list Holder.t;
  total : Z
}.

Fixpoint loop (fuel : nat) (up : Upstream SolscanResponse)
    (limit : number Z) (minAmount : number Q)
    (holders : list HolderRow.t) (offset : Z)
  : outcome (list HolderRow.t) :=
  match fuel with
  | O => OutOfFuel
  | S fuel' =>
      if lt (Z.of_nat (length holders)) limit then
        match up offset with
        | Reject =>
            Threw "Failed to fetch holder data from Solscan." [offset]
        | Resp None => Returned holders [offset]
        | Resp (Some r) =>
            if (length (data r) =? 0)%nat then Returned holders [offset]
            else
              let holders' := holders ++ qualifying minAmount (data r) in
              if ge (Z.of_nat (length holders')) limit
                 || (total r <=? offset + pageSize)
              then Returned holders' [offset]
              else
                requested offset
                  (loop fuel' up limit minAmount holders'
                     (offset + pageSize))
        end
      else Returned holders []
  end.

Definition fetchHolders (fuel : nat) (key : option string)
    (up : Upstream SolscanResponse) (limit : number Z)
    (minAmount : number Q) : outcome (list HolderRow.t) :=
  if key_missing key then Threw "Solscan API key is not configured." []
  else and_then (loop fuel up limit minAmount [] 0)
                (fun holders => slice0 holders limit).

(** [parseFloat] is the host's; the handler takes it as given. *)
Definition handler (parseFloat : string -> number Q) (fuel : nat)
    (key : option string) (up : Upstream SolscanResponse) (req : Query)
  : served HolderRow.t :=
  let limit := with_default "100" (limit req) in
  let minAmount := with_default "0" (minAmount req) in
  match token req with
  | Some (QStr t) =>
      if truthy t then
        respond (fetchHolders fuel key up
                   (parseInt (ToString limit))
                   (parseFloat (ToString minAmount)))
      else Served 400 (ErrorBody "Token address is required.") []
  | _ => Served 400 (ErrorBody "Token address is required.") []
  end.

End Pro.

(** [api/holders.js]: the public API reports no total; the payload
    is [response.data.data] and a short page ends the scan. *)
Module Public.

Fixpoint loop (fuel : nat) (up : Upstream (list Holder.t))
    (limit : number Z) (minAmount : number Q)
    (holders : list HolderRow.t) (offset : Z)
  : outcome (list HolderRow.t) :=
  match fuel with
  | O => OutOfFuel
  | S fuel' =>
      if lt (Z.of_nat (length holders)) limit then
        match up offset with
        | Reject =>
            Threw "Failed to fetch holder data from Solscan." [offset]
        | Resp None => Returned holders [offset]
        | Resp (Some data) =>
            if (length data =? 0)%nat then Returned holders [offset]
            else
              let holders' := holders ++ qualifying minAmount data in
              if ge (Z.of_nat (length holders')) limit
                 || (Z.of_nat (length data) <? pageSize)
              then Returned holders' [offset]
              else
                requested offset
                  (loop fuel' up limit minAmount holders'
                     (offset + pageSize))
        end
      else Returned holders []
  end.

Definition fetchHolders (fuel : nat) (up : Upstream (list Holder.t))
    (limit : number Z) (minAmount : number Q)
  : outcome (list HolderRow.t) :=
  and_then (loop fuel up limit minAmount [] 0)
           (fun holders => slice0 holders limit).

End Public.

End Holders.

(** ** Transfers *)

Module Transaction.
(** A record of the Pro transfer endpoint (the fields the code
    reads). *)
Record t : Type := mk {
  blockTime : Z;
  changeAmount : JsonNumber;
  owner : string
}.
End Transaction.

Record SolscanTransferResponse : Type := mkSolscanTransferResponse {
  data : list Transaction.t;
  total : Z
}.

Module PublicTx.
(** A record of the public transactions endpoint. *)
Record t : Type := mk {
  blockTime : Z;
  signer : list string
}.

(** [const wallet = tx.signer[0]], when it is truthy. *)
Definition wallet (tx : t) : option string :=
  match signer tx with
  | s :: _ => if truthy s then Some s else None
  | [] => None
  end.
End PublicTx.

(** ** Traders *)

Module TraderRow.
(** [{wallet, volume, lastTx}]: the volume is a double in traders.ts
    and a count of transactions in traders.js. *)
Record t (V : Type) : Type := mk {
  wallet : string;
  volume : V;
  lastTx : Z
}.
Arguments wallet {V} _.
Arguments volume {V} _.
Arguments lastTx {V} _.
End TraderRow.

Module Traders.

(** [(a, b) => b.volume - a.volume] on counts, which are integers far
    below [2^53]: the difference is exact. *)
Definition by_volume (a b : TraderRow.t Q) : Q :=
  (TraderRow.volume b - TraderRow.volume a)%Q.

Record Query : Type := mkQuery {
  token : option qvalue;
  limit : option qvalue
}.

(** [api/traders.ts] *)
Module Pro.

(** The value kept for a wallet in [walletVolumes]. *)
Record entry : Type := mkEntry {
  volume : float;
  lastTx : Z
}.

(** The own properties of [walletVolumes]. *)
Definition WalletVolume : Type := dict entry.

Definition maxTransactionsToProcess : Z := 1000.

(** The body of [for (const tx of response.data.data)].  Under an
    inherited name [walletVolumes[tx.owner]] is truthy from the start:
    no own property is created, and what is written goes to the
    inherited object, which the endpoint does not read again. *)
Definition record_tx (walletVolumes : WalletVolume) (tx : Transaction.t)
  : WalletVolume :=
  let v := (abs (double (Transaction.changeAmount tx)) / 1000000000)%float in
  let k := Transaction.owner tx in
  if inherited k then walletVolumes
  else
    let e :=
      match get walletVolumes k with
      | Some e => e
      | None => {| volume := 0; lastTx := 0 |}
      end in
    let e := {| volume := (volume e + v)%float; lastTx := lastTx e |} in
    let e :=
      if Transaction.blockTime tx >? lastTx e
      then {| volume := volume e; lastTx := Transaction.blockTime tx |}
      else e in
    set walletVolumes k e.

Fixpoint loop (fuel : nat) (up : Upstream SolscanTransferResponse)
    (walletVolumes : WalletVolume) (offset transactionsProcessed : Z)
  : outcome WalletVolume :=
  match fuel with
  | O => OutOfFuel
  | S fuel' =>
      if transactionsProcessed <? maxTransactionsToProcess then
        match up offset with
        | Reject =>
            Threw "Failed to fetch transfer data from Solscan." [offset]
        | Resp None => Returned walletVolumes [offset]
        | Resp (Some r) =>
            if (length (data r) =? 0)%nat
            then Returned walletVolumes [offset]
            else
              let walletVolumes' :=
                fold_left record_tx (data r) walletVolumes in
              let transactionsProcessed' :=
                transactionsProcessed + Z.of_nat (length (data r)) in
              if total r <=? transactionsProcessed'
              then Returned walletVolumes' [offset]
              else
                requested offset
                  (loop fuel' up walletVolumes' (offset + pageSize)
                     transactionsProcessed')
        end
      else Returned walletVolumes []
  end.

(** [(a, b) => b.volume - a.volume] *)
Definition by_volume (a b : TraderRow.t float) : float :=
  (TraderRow.volume b - TraderRow.volume a)%float.

(** [Object.entries(walletVolumes).map(...).sort(...)] *)
Definition sortedTraders (walletVolumes : WalletVolume)
  : list (TraderRow.t float) :=
  sort_double by_volume
    (map (fun '(wallet, data) =>
            {| TraderRow.wallet := wallet;
               TraderRow.volume := volume data;
               TraderRow.lastTx := lastTx data |})
         (entries walletVolumes)).

(** Every non-empty page counts at least one transaction, so the
    loop ends within [maxTransactionsToProcess] iterations and one
    more test of its condition. *)
Definition iterations : nat := 1001.

Definition fetchTopTraders (key : option string)
    (up : Upstream SolscanTransferResponse) (limit : number Z)
  : outcome (list (TraderRow.t float)) :=
  if key_missing key then Threw "Solscan API key is not configured." []
  else and_then (loop iterations up [] 0 0)
                (fun walletVolumes =>
                   slice0 (sortedTraders walletVolumes) limit).

Definition handler (key : option string)
    (up : Upstream SolscanTransferResponse) (req : Query)
  : served (TraderRow.t float) :=
  let limit := with_default "50" (limit req) in
  match token req with
  | Some (QStr t) =>
      if truthy t then
        respond (fetchTopTraders key up (parseInt (ToString limit)))
      else Served 400 (ErrorBody "Token address is required.") []
  | _ => Served 400 (ErrorBody "Token address is required.") []
  end.

End Pro.

(** [api/traders.js]: transactions are counted per first signer. *)
Module Public.

Record entry : Type := mkEntry {
  count : Z;
  lastTx : Z
}.

(** The own properties of [walletCounts]. *)
Definition WalletCounts : Type := dict entry.

Definition maxTransactionsToProcess : Z := 500.

(** The body of [for (const tx of data)].  Under an inherited name
    [walletCounts[wallet]] is truthy from the start: no own property is
    created, and what is written goes to the inherited object, which
    the endpoint does not read again. *)
Definition record_tx (walletCounts : WalletCounts) (tx : PublicTx.t)
  : WalletCounts :=
  match PublicTx.wallet tx with
  | Some k =>
      if inherited k then walletCounts
      else
        let e :=
          match get walletCounts k with
          | Some e => e
          | None => {| count := 0; lastTx := 0 |}
          end in
        let e := {| count := count e + 1; lastTx := lastTx e |} in
        let e :=
          if PublicTx.blockTime tx >? lastTx e
          then {| count := count e; lastTx := PublicTx.blockTime tx |}
          else e in
        set walletCounts k e
  | None => walletCounts
  end.

Fixpoint loop (fuel : nat) (up : Upstream (list PublicTx.t))
    (walletCounts : WalletCounts) (offset : Z) : outcome WalletCounts :=
  match fuel with
  | O => OutOfFuel
  | S fuel' =>
      if offset <? maxTransactionsToProcess then
        match up offset with
        | Reject =>
            Threw "Failed to fetch transaction data from Solscan." [offset]
        | Resp None => Returned walletCounts [offset]
        | Resp (Some data) =>
            if (length data =? 0)%nat then Returned walletCounts [offset]
            else
              let walletCounts' := fold_left record_tx data walletCounts in
              if Z.of_nat (length data) <? pageSize
              then Returned walletCounts' [offset]
              else
                requested offset
                  (loop fuel' up walletCounts' (offset + pageSize))
        end
      else Returned walletCounts []
  end.

Definition sortedTraders (walletCounts : WalletCounts)
  : list (TraderRow.t Q) :=
  sort by_volume
    (map (fun '(wallet, data) =>
            {| TraderRow.wallet := wallet;
               TraderRow.volume := inject_Z (count data);
               TraderRow.lastTx := lastTx data |})
         (entries walletCounts)).

(** [offset] grows by [pageSize] from 0 and stays below 500: ten
    iterations and one more test of the condition. *)
Definition iterations : nat := 11.

Definition fetchTopTraders (up : Upstream (list PublicTx.t))
    (limit : number Z) : outcome (list (TraderRow.t Q)) :=
  and_then (loop iterations up [] 0)
           (fun walletCounts =>
              slice0 (sortedTraders walletCounts) limit).

End Public.

End Traders.

(** ** Interval *)

Module ActiveRow.
Record t : Type := mk {
  wallet : string;
  lastTx : Z
}.
End ActiveRow.

Module Interval.

(** [activeWallets]: wallet to [{lastTx}]. *)
Definition ActiveWallets : Type := dict Z.

(** [if (!activeWallets.has(k) || blockTime > activeWallets.get(k).lastTx)
      activeWallets.set(k, {lastTx: blockTime})] *)
Definition upsert (activeWallets : ActiveWallets) (k : string)
    (blockTime : Z) : ActiveWallets :=
  match get activeWallets k with
  | None => set activeWallets k blockTime
  | Some lastTx =>
      if blockTime >? lastTx then set activeWallets k blockTime
      else activeWallets
  end.

(** [Array.from(activeWallets.entries()).map(...)] *)
Definition rows (activeWallets : ActiveWallets) : list ActiveRow.t :=
  map (fun '(wallet, lastTx) =>
         {| ActiveRow.wallet := wallet; ActiveRow.lastTx := lastTx |})
      activeWallets.

Record Query : Type := mkQuery {
  token : option qvalue;
  from : option qvalue;
  to : option qvalue
}.

(** [api/interval.ts] *)
Module Pro.

(** The [for] loop over one page; the boolean is
    [continueFetching] when the loop is left. *)
Fixpoint scan (from to : number Z) (txs : list Transaction.t)
    (activeWallets : ActiveWallets) : ActiveWallets * bool :=
  match txs with
  | [] => (activeWallets, true)
  | tx :: txs' =>
      let blockTime := Transaction.blockTime tx in
      if lt blockTime from then (activeWallets, false)
      else
        scan from to txs'
          (if le blockTime to && ge blockTime from
           then upsert activeWallets (Transaction.owner tx) blockTime
           else activeWallets)
  end.

Fixpoint loop (fuel : nat) (up : Upstream SolscanTransferResponse)
    (from to : number Z) (activeWallets : ActiveWallets) (offset : Z)
  : outcome ActiveWallets :=
  match fuel with
  | O => OutOfFuel
  | S fuel' =>
      match up offset with
      | Reject =>
          Threw "Failed to fetch transfer data from Solscan." [offset]
      | Resp None => Returned activeWallets [offset]
      | Resp (Some r) =>
          if (length (data r) =? 0)%nat
          then Returned activeWallets [offset]
          else
            let '(activeWallets', continueFetching) :=
              scan from to (data r) activeWallets in
            if total r <=? offset + pageSize
            then Returned activeWallets' [offset]
            else if continueFetching then
              requested offset
                (loop fuel' up from to activeWallets' (offset + pageSize))
            else Returned activeWallets' [offset]
      end
  end.

Definition fetchActiveWallets (fuel : nat) (key : option string)
    (up : Upstream SolscanTransferResponse) (from to : number Z)
  : outcome (list ActiveRow.t) :=
  if key_missing key then Threw "Solscan API key is not configured." []
  else and_then (loop fuel up from to [] 0) rows.

Definition handler (fuel : nat) (key : option string)
    (up : Upstream SolscanTransferResponse) (req : Query)
  : served ActiveRow.t :=
  match token req with
  | Some (QStr t) =>
      if truthy t then
        if missing (from req) || missing (to req) then
          Served 400 (ErrorBody "A time range (from, to) is required.") []
        else
          respond (fetchActiveWallets fuel key up
                     (parseIntQ (from req)) (parseIntQ (to req)))
      else Served 400 (ErrorBody "Token address is required.") []
  | _ => Served 400 (ErrorBody "Token address is required.") []
  end.

End Pro.

(** [api/interval.js] *)
Module Public.

Fixpoint scan (from to : number Z) (txs : list PublicTx.t)
    (activeWallets : ActiveWallets) : ActiveWallets * bool :=
  match txs with
  | [] => (activeWallets, true)
  | tx :: txs' =>
      let blockTime := PublicTx.blockTime tx in
      if lt blockTime from then (activeWallets, false)
      else
        scan from to txs'
          (match PublicTx.wallet tx with
           | Some wallet =>
               if le blockTime to
               then upsert activeWallets wallet blockTime
               else activeWallets
           | None => activeWallets
           end)
  end.

Fixpoint loop (fuel : nat) (up : Upstream (list PublicTx.t))
    (from to : number Z) (activeWallets : ActiveWallets) (offset : Z)
  : outcome ActiveWallets :=
  match fuel with
  | O => OutOfFuel
  | S fuel' =>
      match up offset with
      | Reject =>
          Threw "Failed to fetch transaction data from Solscan." [offset]
      | Resp None => Returned activeWallets [offset]
      | Resp (Some data) =>
          if (length data =? 0)%nat then Returned activeWallets [offset]
          else
            let '(activeWallets', continueFetching) :=
              scan from to data activeWallets in
            if Z.of_nat (length data) <? pageSize
            then Returned activeWallets' [offset]
            else if continueFetching then
              requested offset
                (loop fuel' up from to activeWallets' (offset + pageSize))
            else Returned activeWallets' [offset]
      end
  end.

Definition fetchActiveWallets (fuel : nat)
    (up : Upstream (list PublicTx.t)) (from to : number Z)
  : outcome (list ActiveRow.t) :=
  and_then (loop fuel up from to [] 0) rows.

End Public.

End Interval.

(** ** The shared skeleton of the paged fetch loops

    Every loop above has the same shape: test the loop condition on
    the state and the offset, request the page at the offset, fold the
    page into the state, and either stop or go on at the next offset.
    [paged] is that shape; each loop is shown below to be an instance
    of it, so that what holds of the shape is proved once. *)

Section Paged.

Variables B St : Type.
Variable message : string.
(** The loop condition. *)
Variable guard : St -> Z -> bool.
(** One page folded into the state; the boolean tells whether the
    loop goes on. *)
Variable step : St -> Z -> option B -> St * bool.

Fixpoint paged (fuel : nat) (up : Upstream B) (st : St) (offset : Z)
  : outcome St :=
  match fuel with
  | O => OutOfFuel
  | S fuel' =>
      if guard st offset then
        match up offset with
        | Reject => Threw message [offset]
        | Resp b =>
            match step st offset b with
            | (st', true) =>
                requested offset (paged fuel' up st' (offset + pageSize))
            | (st', false) => Returned st' [offset]
            end
        end
      else Returned st []
  end.

(** The runs of the loop that return: from a state and an offset,
    the offsets requested and the state left. *)
Inductive run (up : Upstream B) : St -> Z -> list Z -> St -> Prop :=
| run_exit st offset :
    guard st offset = false ->
    run up st offset [] st
| run_break st offset b st' :
    guard st offset = true ->
    up offset = Resp b ->
    step st offset b = (st', false) ->
    run up st offset [offset] st'
| run_next st offset b st1 log st' :
    guard st offset = true ->
    up offset = Resp b ->
    step st offset b = (st1, true) ->
    run up st1 (offset + pageSize) log st' ->
    run up st offset (offset :: log) st'.

End Paged.

(** The offsets of [n] consecutive pages from [offset]. *)
Fixpoint offsets (offset : Z) (n : nat) : list Z :=
  match n with
  | O => []
  | S n' => offset :: offsets (offset + pageSize) n'
  end.

(** The loops as instances of the skeleton. *)

Module HoldersSkeleton.

Definition guard (limit : number Z) (holders : list HolderRow.t) (_ : Z)
  : bool :=
  lt (Z.of_nat (length holders)) limit.

Definition pro_step (limit : number Z) (minAmount : number Q)
    (holders : list HolderRow.t) (offset : Z)
    (b : option Holders.Pro.SolscanResponse)
  : list HolderRow.t * bool :=
  match b with
  | None => (holders, false)
  | Some r =>
      if (length (Holders.Pro.data r) =? 0)%nat then (holders, false)
      else
        let holders' :=
          holders ++ Holders.qualifying minAmount (Holders.Pro.data r) in
        (holders',
         negb (ge (Z.of_nat (length holders')) limit
               || (Holders.Pro.total r <=? offset + pageSize)))
  end.

Definition public_step (limit : number Z) (minAmount : number Q)
    (holders : list HolderRow.t) (offset : Z)
    (b : option (list Holder.t))
  : list HolderRow.t * bool :=
  match b with
  | None => (holders, false)
  | Some data =>
      if (length data =? 0)%nat then (holders, false)
      else
        let holders' := holders ++ Holders.qualifying minAmount data in
        (holders',
         negb (ge (Z.of_nat (length holders')) limit
               || (Z.of_nat (length data) <? pageSize)))
  end.

End HoldersSkeleton.

Module TradersSkeleton.

(** The Pro loop keeps [transactionsProcessed] beside the map. *)
Definition pro_guard (st : Traders.Pro.WalletVolume * Z) (_ : Z) : bool :=
  snd st <? Traders.Pro.maxTransactionsToProcess.

Definition pro_step (st : Traders.Pro.WalletVolume * Z) (_ : Z)
    (b : option SolscanTransferResponse)
  : Traders.Pro.WalletVolume * Z * bool :=
  match b with
  | None => (st, false)
  | Some r =>
      if (length (data r) =? 0)%nat then (st, false)
      else
        let processed := snd st + Z.of_nat (length (data r)) in
        (fold_left Traders.Pro.record_tx (data r) (fst st), processed,
         negb (total r <=? processed))
  end.

Definition public_guard (_ : Traders.Public.WalletCounts) (offset : Z)
  : bool :=
  offset <? Traders.Public.maxTransactionsToProcess.

Definition public_step (walletCounts : Traders.Public.WalletCounts) (_ : Z)
    (b : option (list PublicTx.t))
  : Traders.Public.WalletCounts * bool :=
  match b with
  | None => (walletCounts, false)
  | Some data =>
      if (length data =? 0)%nat then (walletCounts, false)
      else
        (fold_left Traders.Public.record_tx data walletCounts,
         negb (Z.of_nat (length data) <? pageSize))
  end.

End TradersSkeleton.

Module IntervalSkeleton.

Definition guard (_ : Interval.ActiveWallets) (_ : Z) : bool := true.

Definition pro_step (from to : number Z)
    (activeWallets : Interval.ActiveWallets) (offset : Z)
    (b : option SolscanTransferResponse)
  : Interval.ActiveWallets * bool :=
  match b with
  | None => (activeWallets, false)
  | Some r =>
      if (length (data r) =? 0)%nat then (activeWallets, false)
      else
        let '(activeWallets', continueFetching) :=
          Interval.Pro.scan from to (data r) activeWallets in
        (activeWallets',
         negb (total r <=? offset + pageSize) && continueFetching)
  end.

Definition public_step (from to : number Z)
    (activeWallets : Interval.ActiveWallets) (_ : Z)
    (b : option (list PublicTx.t))
  : Interval.ActiveWallets * bool :=
  match b with
  | None => (activeWallets, false)
  | Some data =>
      if (length data =? 0)%nat then (activeWallets, false)
      else
        let '(activeWallets', continueFetching) :=
          Interval.Public.scan from to data activeWallets in
        (activeWallets',
         negb (Z.of_nat (length data) <? pageSize) && continueFetching)
  end.

End IntervalSkeleton.

(** ** Vocabulary of the statements *)

(** The records of the page at an offset, and of the pages at the
    offsets of a log. *)
Definition page (B R : Type) (content : B -> list R) (up : Upstream B)
    (offset : Z) : list R :=
  match up offset with
  | Resp (Some b) => content b
  | _ => []
  end.

Definition fetched (B R : Type) (content : B -> list R) (up : Upstream B)
    (log : list Z) : list R :=
  flat_map (page content up) log.

(** The payload of the public endpoints is the array itself. *)
Definition items (R : Type) (l : list R) : list R := l.

(** The first page is served and holds no record. *)
Definition first_page_empty (B R : Type) (content : B -> list R)
    (up : Upstream B) : bool :=
  match up 0 with
  | Reject => false
  | Resp _ => (length (page content up 0) =? 0)%nat
  end.

(** [x] may stand before [y] in an array sorted with [cmp]. *)
Definition before (A : Type) (cmp : A -> A -> Q) (x y : A) : Prop :=
  Qle_bool (cmp x y) 0 = true.

(** The token of a request is a non-empty string. *)
Definition valid_token (v : option qvalue) : bool :=
  match v with
  | Some (QStr t) => truthy t
  | _ => false
  end.

(** The loop of the Pro interval endpoint stops at this page, whatever
    the records say. *)
Definition last_page (up : Upstream SolscanTransferResponse) (offset : Z)
  : bool :=
  match up offset with
  | Reject | Resp None => true
  | Resp (Some r) =>
      (length (data r) =? 0)%nat || (total r <=? offset + pageSize)
  end.

(** *** Grouping a stream by wallet

    The per-wallet maps of the traders and interval endpoints all fold
    a stream of records into a dictionary: a record that names a wallet
    updates the value kept for it ([None] before the first), the
    others are skipped. *)

Section GroupBy.

Variables X E : Type.
Variable key : X -> option string.
Variable upd : option E -> X -> E.

Definition accumulate (m : dict E) (x : X) : dict E :=
  match key x with
  | Some k => set m k (upd (get m k) x)
  | None => m
  end.

(** The records of a stream that name the wallet [w]. *)
Definition observed (w : string) (xs : list X) : list X :=
  filter (fun x => match key x with
                   | Some k => String.eqb k w
                   | None => false
                   end) xs.

(** The value a wallet has after its records [xs], in order. *)
Definition summary (xs : list X) : option E :=
  fold_left (fun acc x => Some (upd acc x)) xs None.

End GroupBy.

(** The wallet a transfer counts for in traders.ts: its owner,
    unless that is a name every object inherits. *)
Definition transfer_wallet (tx : Transaction.t) : option string :=
  if inherited (Transaction.owner tx) then None
  else Some (Transaction.owner tx).

(** [Math.abs(tx.changeAmount) / (10**9)] *)
Definition scaled (tx : Transaction.t) : float :=
  (abs (double (Transaction.changeAmount tx)) / 1000000000)%float.

(** [walletVolumes[tx.owner]] after one more transfer. *)
Definition add_transfer (acc : option Traders.Pro.entry) (tx : Transaction.t)
  : Traders.Pro.entry :=
  let e :=
    match acc with
    | Some e => e
    | None => {| Traders.Pro.volume := 0; Traders.Pro.lastTx := 0 |}
    end in
  let e :=
    {| Traders.Pro.volume := (Traders.Pro.volume e + scaled tx)%float;
       Traders.Pro.lastTx := Traders.Pro.lastTx e |} in
  if Transaction.blockTime tx >? Traders.Pro.lastTx e
  then {| Traders.Pro.volume := Traders.Pro.volume e;
          Traders.Pro.lastTx := Transaction.blockTime tx |}
  else e.

(** The wallet a transaction counts for in traders.js: its first
    signer, unless that is a name every object inherits. *)
Definition trader_wallet (tx : PublicTx.t) : option string :=
  match PublicTx.wallet tx with
  | Some wallet => if inherited wallet then None else Some wallet
  | None => None
  end.

(** [walletCounts[wallet]] after one more transaction. *)
Definition count_transaction (acc : option Traders.Public.entry)
    (tx : PublicTx.t) : Traders.Public.entry :=
  let e :=
    match acc with
    | Some e => e
    | None => {| Traders.Public.count := 0; Traders.Public.lastTx := 0 |}
    end in
  let e :=
    {| Traders.Public.count := Traders.Public.count e + 1;
       Traders.Public.lastTx := Traders.Public.lastTx e |} in
  if PublicTx.blockTime tx >? Traders.Public.lastTx e
  then {| Traders.Public.count := Traders.Public.count e;
          Traders.Public.lastTx := PublicTx.blockTime tx |}
  else e.

(** The volume of transfers: the sum of their scaled amounts, added
    one by one in their order, as doubles. *)
Definition double_volume (txs : list Transaction.t) : float :=
  fold_left (fun v tx => (v + scaled tx)%float) txs 0%float.

(** The doubles that are not below zero: the zeros, the positive
    finite doubles and [Infinity]. *)
Definition nonneg (x : float) : Prop := (0 <=? x)%float = true.

Definition sf_nonneg (s : spec_float) : bool :=
  match s with
  | S754_zero _ => true
  | S754_infinity sx => negb sx
  | S754_nan => false
  | S754_finite sx _ _ => negb sx
  end.

(** The greatest of a list of block times and of 0, the value a
    wallet's [lastTx] starts from. *)
Definition latest (blockTimes : list Z) : Z :=
  fold_left Z.max blockTimes 0.

(** [m] is the greatest of a list of block times. *)
Definition greatest (m : Z) (blockTimes : list Z) : Prop :=
  In m blockTimes /\ forall b, In b blockTimes -> b <= m.

(** The wallet a record of the interval scan counts for: the records
    inside the window. *)
Definition in_window (from to : number Z) (tx : Transaction.t)
  : option string :=
  if le (Transaction.blockTime tx) to && ge (Transaction.blockTime tx) from
  then Some (Transaction.owner tx)
  else None.

Definition public_in_window (to : number Z) (tx : PublicTx.t)
  : option string :=
  match PublicTx.wallet tx with
  | Some wallet => if le (PublicTx.blockTime tx) to then Some wallet else None
  | None => None
  end.

(** [activeWallets.get(wallet).lastTx] after one more record of the
    wallet. *)
Definition later (X : Type) (time : X -> Z) (acc : option Z) (tx : X) : Z :=
  match acc with
  | None => time tx
  | Some lastTx => if time tx >? lastTx then time tx else lastTx
  end.

(** The records the interval scan reads: those before the first one
    older than [from]. *)
Fixpoint scanned (X : Type) (time : X -> Z) (from : number Z) (txs : list X)
  : list X :=
  match txs with
  | [] => []
  | tx :: txs' =>
      if lt (time tx) from then [] else tx :: scanned time from txs'
  end.

(** The scan met a record older than [from]. *)
Definition short_circuited (X : Type) (time : X -> Z) (from : number Z)
    (txs : list X) : bool :=
  existsb (fun tx => lt (time tx) from) txs.

(** The records are in descending order of time. *)
Fixpoint descending (X : Type) (time : X -> Z) (txs : list X) : bool :=
  match txs with
  | [] => true
  | tx :: txs' =>
      forallb (fun tx' => time tx' <=? time tx) txs' && descending time txs'
  end.

(** The upstream requests behind a response. *)
Definition served_log (A : Type) (r : served A) : list Z :=
  match r with
  | Served _ _ log => log
  | Pending => []
  end.

(** An upstream that serves the first page of another and rejects the
    requests for the others. *)
Definition first_page_only (B : Type) (up : Upstream B) : Upstream B :=
  fun offset => if offset =? 0 then up 0 else Reject.

(** The same for the Pro holders endpoint. *)
Definition last_holders_page (up : Upstream Holders.Pro.SolscanResponse)
    (offset : Z) : bool :=
  match up offset with
  | Reject | Resp None => true
  | Resp (Some r) =>
      (length (Holders.Pro.data r) =? 0)%nat
      || (Holders.Pro.total r <=? offset + pageSize)
  end.

(** ** Sample upstreams *)

(** An upstream that rejects every request. *)
Definition down (B : Type) : Upstream B := fun _ => Reject.


(** An upstream with nothing to serve. *)
Definition nothing (B : Type) : Upstream B := fun _ => Resp None.

Definition no_holders : Upstream Holders.Pro.SolscanResponse :=
  fun _ => Resp (Some {| Holders.Pro.data := []; Holders.Pro.total := 0 |}).

Definition no_transfers : Upstream SolscanTransferResponse :=
  fun _ => Resp (Some {| data := []; total := 0 |}).

(** An upstream with a single page. *)
Definition one_page (B : Type) (b : B) : Upstream B :=
  fun offset => if offset =? 0 then Resp (Some b) else Resp None.

(** The pages of the examples of the specification. *)
Definition example_holders : Upstream Holders.Pro.SolscanResponse :=
  one_page
    {| Holders.Pro.data :=
         [ {| Holder.address := "a1"; Holder.uiAmount := 50;
              Holder.owner := "A" |};
           {| Holder.address := "b1"; Holder.uiAmount := 5;
              Holder.owner := "B" |} ];
       Holders.Pro.total := 2 |}.

Definition example_transfers : Upstream SolscanTransferResponse :=
  one_page
    {| data :=
         [ {| Transaction.blockTime := 100;
              Transaction.changeAmount := json 2000000000 eq_refl;
              Transaction.owner := "A" |};
           {| Transaction.blockTime := 200;
              Transaction.changeAmount := json 1000000000 eq_refl;
              Transaction.owner := "A" |} ];
       total := 2 |}.

Definition example_window : Upstream SolscanTransferResponse :=
  one_page
    {| data :=
         [ {| Transaction.blockTime := 120; Transaction.changeAmount := json 7 eq_refl;
              Transaction.owner := "B" |};
           {| Transaction.blockTime := 90; Transaction.changeAmount := json (-7) eq_refl;
              Transaction.owner := "B" |} ];
       total := 2 |}.

Definition example_public_holders : Upstream (list Holder.t) :=
  one_page
    [ {| Holder.address := "a1"; Holder.uiAmount := 50; Holder.owner := "A" |};
      {| Holder.address := "b1"; Holder.uiAmount := 5; Holder.owner := "B" |} ].

Definition example_public_tx : Upstream (list PublicTx.t) :=
  one_page
    [ {| PublicTx.blockTime := 120; PublicTx.signer := ["B"; "C"] |};
      {| PublicTx.blockTime := 110; PublicTx.signer := ["A"] |};
      {| PublicTx.blockTime := 105; PublicTx.signer := ["B"] |};
      {| PublicTx.blockTime := 90; PublicTx.signer := ["B"] |} ].

(** Two wallets on one page of transfers. *)
Definition two_traders : Upstream SolscanTransferResponse :=
  one_page
    {| data :=
         [ {| Transaction.blockTime := 100;
              Transaction.changeAmount := json 2000000000 eq_refl;
              Transaction.owner := "A" |};
           {| Transaction.blockTime := 50;
              Transaction.changeAmount := json (-1000000000) eq_refl;
              Transaction.owner := "B" |} ];
       total := 2 |}.

(** One owner with two token accounts on one page of holders. *)
Definition two_accounts : Upstream Holders.Pro.SolscanResponse :=
  one_page
    {| Holders.Pro.data :=
         [ {| Holder.address := "a1"; Holder.uiAmount := 50;
              Holder.owner := "A" |};
           {| Holder.address := "a2"; Holder.uiAmount := 30;
              Holder.owner := "A" |} ];
       Holders.Pro.total := 2 |}.

(** An upstream with ever more to serve: full pages of transfers
    inside the window 100..150, and a reported total of 1100. *)
Definition busy_transfers : Upstream SolscanTransferResponse :=
  fun _ =>
    Resp (Some {| data :=
                    repeat {| Transaction.blockTime := 120;
                              Transaction.changeAmount := json 1 eq_refl;
                              Transaction.owner := "A" |} 50;
                  total := 1100 |}).

Definition busy_holders : Upstream Holders.Pro.SolscanResponse :=
  fun _ =>
    Resp (Some {| Holders.Pro.data :=
                    [ {| Holder.address := "a1"; Holder.uiAmount := 50;
                         Holder.owner := "A" |} ];
                  Holders.Pro.total := 1100 |}).

(** The same transfers with a reported total of [total]. *)
Definition endless_transfers (total : Z) : Upstream SolscanTransferResponse :=
  fun _ =>
    Resp (Some {| data :=
                    repeat {| Transaction.blockTime := 120;
                              Transaction.changeAmount := json 1 eq_refl;
                              Transaction.owner := "A" |} 50;
                  total := total |}).

(** An upstream that serves pages of 49 transfers. *)
Definition short_pages : Upstream SolscanTransferResponse :=
  fun _ =>
    Resp (Some {| data :=
                    repeat {| Transaction.blockTime := 120;
                              Transaction.changeAmount := json 1 eq_refl;
                              Transaction.owner := "A" |} 49;
                  total := 2000 |}).

(** Two wallets whose amounts add up to the same total, 300000000. *)
Definition rounded_transfers : Upstream SolscanTransferResponse :=
  one_page
    {| data :=
         [ {| Transaction.blockTime := 10;
              Transaction.changeAmount := json 100000000 eq_refl;
              Transaction.owner := "A" |};
           {| Transaction.blockTime := 20;
              Transaction.changeAmount := json 200000000 eq_refl;
              Transaction.owner := "A" |};
           {| Transaction.blockTime := 30;
              Transaction.changeAmount := json 300000000 eq_refl;
              Transaction.owner := "B" |} ];
       total := 3 |}.

(** An owner named like a property every object inherits. *)
Definition inherited_owner : Upstream SolscanTransferResponse :=
  one_page
    {| data :=
         [ {| Transaction.blockTime := 10;
              Transaction.changeAmount := json 1000000000 eq_refl;
              Transaction.owner := "constructor" |} ];
       total := 1 |}.

Definition inherited_signer : Upstream (list PublicTx.t) :=
  one_page
    [ {| PublicTx.blockTime := 10; PublicTx.signer := ["constructor"] |} ].

(** A transfer with a block time below zero. *)
Definition early_transfer : Upstream SolscanTransferResponse :=
  one_page
    {| data :=
         [ {| Transaction.blockTime := -5;
              Transaction.changeAmount := json 1000000000 eq_refl;
              Transaction.owner := "A" |} ];
       total := 1 |}.

(** Two owners with the same volume, the second one an array index. *)
Definition index_owner : Upstream SolscanTransferResponse :=
  one_page
    {| data :=
         [ {| Transaction.blockTime := 10;
              Transaction.changeAmount := json 1000000000 eq_refl;
              Transaction.owner := "A" |};
           {| Transaction.blockTime := 20;
              Transaction.changeAmount := json 1000000000 eq_refl;
              Transaction.owner := "7" |} ];
       total := 2 |}.

(** ** The handlers of the public API versions *)

(** [sendJSON(res, statusCode, data)] *)
Definition sendJSON (A : Type) (statusCode : Z) (data : Json A)
    (log : list Z) : served A :=
  Served statusCode data log.

(** [try { rows = await fetch(...); sendJSON(res, 200, rows) }
     catch (error) {
       sendJSON(res, 500,
                {error: error.message || 'An unknown error occurred.'}) }] *)
Definition respond_public (A : Type) (o : outcome (list A)) : served A :=
  match o with
  | Returned rows log => sendJSON 200 (Rows rows) log
  | Threw m log =>
      sendJSON 500
        (ErrorBody (if truthy m then m else "An unknown error occurred.")) log
  | OutOfFuel => Pending
  end.

(** [api/holders.js] *)
Module HoldersJs.

Definition handler (parseFloat : string -> number Q) (fuel : nat)
    (up : Upstream (list Holder.t)) (req : Holders.Query)
  : served HolderRow.t :=
  let limit := with_default "100" (Holders.limit req) in
  let minAmount := with_default "0" (Holders.minAmount req) in
  match Holders.token req with
  | Some (QStr t) =>
      if truthy t then
        respond_public
          (Holders.Public.fetchHolders fuel up
             (parseInt (ToString limit)) (parseFloat (ToString minAmount)))
      else sendJSON 400 (ErrorBody "Token address is required.") []
  | _ => sendJSON 400 (ErrorBody "Token address is required.") []
  end.

End HoldersJs.

(** [api/traders.js] *)
Module TradersJs.

Definition handler (up : Upstream (list PublicTx.t)) (req : Traders.Query)
  : served (TraderRow.t Q) :=
  let limit := with_default "50" (Traders.limit req) in
  match Traders.token req with
  | Some (QStr t) =>
      if truthy t then
        respond_public
          (Traders.Public.fetchTopTraders up (parseInt (ToString limit)))
      else sendJSON 400 (ErrorBody "Token address is required.") []
  | _ => sendJSON 400 (ErrorBody "Token address is required.") []
  end.

End TradersJs.

(** [api/interval.js] *)
Module IntervalJs.

Definition handler (fuel : nat) (up : Upstream (list PublicTx.t))
    (req : Interval.Query) : served ActiveRow.t :=
  match Interval.token req with
  | Some (QStr t) =>
      if truthy t then
        if missing (Interval.from req) || missing (Interval.to req) then
          sendJSON 400 (ErrorBody "A time range (from, to) is required.") []
        else
          respond_public
            (Interval.Public.fetchActiveWallets fuel up
               (parseIntQ (Interval.from req)) (parseIntQ (Interval.to req)))
      else sendJSON 400 (ErrorBody "Token address is required.") []
  | _ => sendJSON 400 (ErrorBody "Token address is required.") []
  end.

End IntervalJs.

(** Full pages without end on the public endpoints. *)
Definition busy_public_holders : Upstream (list Holder.t) :=
  fun _ =>
    Resp (Some (repeat {| Holder.address := "a1"; Holder.uiAmount := 50;
                          Holder.owner := "A" |} 50)).

Definition busy_public_tx : Upstream (list PublicTx.t) :=
  fun _ =>
    Resp (Some (repeat {| PublicTx.blockTime := 120;
                          PublicTx.signer := ["A"] |} 50)).

(** *** Totals *)

Definition sumQ (l : list Q) : Q := fold_right Qplus 0%Q l.

(** The sum of the volumes of an array of traders. *)
Definition total_volume (rows : list (TraderRow.t Q)) : Q :=
  sumQ (map TraderRow.volume rows).

(** The sum of what a dictionary keeps, by a measure of its values. *)
Definition dict_weight (E : Type) (weight : E -> Q) (m : dict E) : Q :=
  sumQ (map (fun p => weight (snd p)) m).

(** The transactions that traders.js counts for a wallet. *)
Definition signed (txs : list PublicTx.t) : list PublicTx.t :=
  filter (fun tx => match trader_wallet tx with
                    | Some _ => true
                    | None => false
                    end) txs.

(** ** The client: [utils/solscan.ts] *)

Module Client.

(** [String(n)] for a number that holds an integer, or [NaN]: the
    decimal digits, after a minus sign for a negative one.  JavaScript
    prints so below [10^21] in absolute value (an exponent is used
    from there on). *)
Definition String_ (n : number Z) : string :=
  match n with
  | NaN => "NaN"
  | Num z => DecimalString.NilEmpty.string_of_int (Z.to_int z)
  end.

Definition printable (n : number Z) : Prop :=
  match n with
  | NaN => True
  | Num z => Z.abs z < 10 ^ 21
  end.

(** [Math.floor(d.getTime() / 1000)] on the time value of a [Date],
    in milliseconds; the time value of an invalid [Date] is [NaN]. *)
Definition unixSeconds (time : number Z) : number Z :=
  match time with
  | NaN => NaN
  | Num ms => Num (ms / 1000)
  end.

(** The methods of [api], as the query their [URLSearchParams] carry
    to the endpoint.  [String(minAmount)] is the host's, for a number
    that need not be an integer. *)
Definition getHolders (printNumber : number Q -> string) (token : string)
    (limit : number Z) (minAmount : number Q) : Holders.Query :=
  {| Holders.token := Some (QStr token);
     Holders.limit := Some (QStr (String_ limit));
     Holders.minAmount := Some (QStr (printNumber minAmount)) |}.

Definition getTopTraders (token : string) (limit : number Z)
  : Traders.Query :=
  {| Traders.token := Some (QStr token);
     Traders.limit := Some (QStr (String_ limit)) |}.

Definition getActiveInInterval (token : string) (from to : number Z)
  : Interval.Query :=
  {| Interval.token := Some (QStr token);
     Interval.from := Some (QStr (String_ (unixSeconds from)));
     Interval.to := Some (QStr (String_ (unixSeconds to))) |}.

(** [s.slice(start, end)] of a string, for integer arguments: a
    negative index counts from the end, and both are brought into
    [0..length]. *)
Definition clamp (len i : Z) : Z :=
  if i <? 0 then Z.max (len + i) 0 else Z.min i len.

Definition slice (s : string) (start : Z) (end_ : option Z) : string :=
  let len := Z.of_nat (String.length s) in
  let from := clamp len start in
  let to := match end_ with Some e => clamp len e | None => len end in
  substring (Z.to_nat from) (Z.to_nat (to - from)) s.

(** [formatWalletAddress(address, chars = 4)], for an integer
    [chars]. *)
Definition formatWalletAddress (address : string) (chars : Z) : string :=
  if Z.of_nat (String.length address) <=? chars * 2 then address
  else (slice address 0 (Some chars) ++ "..."
        ++ slice address (- chars) None)%string.

End Client.

(** ** The page: [App.tsx] *)

Module App.

(** The copy of [formatWalletAddress] inlined in the page tests the
    address first. *)
Definition formatWalletAddress (address : string) (chars : Z) : string :=
  if negb (truthy address)
     || (Z.of_nat (String.length address) <=? chars * 2)
  then address
  else (Client.slice address 0 (Some chars) ++ "..."
        ++ Client.slice address (- chars) None)%string.

(** A row of the table; a field that the endpoint did not send, or
    sent as [null], is [None]. *)
Record WalletData : Type := mkWalletData {
  wallet : string;
  amount : option Q;
  volume : option Q;
  lastTx : option Z
}.

(** [keyof WalletData] *)
Inductive Key : Type :=
| Key_wallet
| Key_amount
| Key_volume
| Key_lastTx.

Inductive Direction : Type :=
| ascending
| descending.

Record SortConfig : Type := mkSortConfig {
  key : Key;
  direction : Direction
}.

Definition Key_eqb (a b : Key) : bool :=
  match a, b with
  | Key_wallet, Key_wallet => true
  | Key_amount, Key_amount => true
  | Key_volume, Key_volume => true
  | Key_lastTx, Key_lastTx => true
  | _, _ => false
  end.

(** [v ?? 0] *)
Definition orZero (A : Type) (zero : A) (v : option A) : A :=
  match v with Some x => x | None => zero end.

(** [aValue < bValue], where both are [row[key] ?? 0]: strings are
    compared character by character, numbers by value. *)
Definition less (k : Key) (a b : WalletData) : bool :=
  match k with
  | Key_wallet => String.ltb (wallet a) (wallet b)
  | Key_amount =>
      negb (Qle_bool (orZero 0%Q (amount b)) (orZero 0%Q (amount a)))
  | Key_volume =>
      negb (Qle_bool (orZero 0%Q (volume b)) (orZero 0%Q (volume a)))
  | Key_lastTx => orZero 0 (lastTx a) <? orZero 0 (lastTx b)
  end.

(** The comparator of [sortedData]. *)
Definition compare (sortConfig : SortConfig) (a b : WalletData) : Q :=
  if less (key sortConfig) a b then
    match direction sortConfig with
    | ascending => (-1)%Q
    | descending => 1%Q
    end
  else if less (key sortConfig) b a then
    match direction sortConfig with
    | ascending => 1%Q
    | descending => (-1)%Q
    end
  else 0%Q.

Definition sortedData (data : list WalletData)
    (sortConfig : option SortConfig) : list WalletData :=
  let sortableData := data in
  match sortConfig with
  | Some c => sort (compare c) sortableData
  | None => sortableData
  end.

(** The configuration that [requestSort(key)] sets. *)
Definition requestSort (sortConfig : option SortConfig) (k : Key)
  : SortConfig :=
  let direction :=
    match sortConfig with
    | Some c =>
        if Key_eqb (key c) k
           && match direction c with ascending => true | descending => false end
        then descending
        else ascending
    | None => ascending
    end in
  {| key := k; direction := direction |}.

End App.

(** The requests of a log are for consecutive pages from the first
    one. *)
Definition consecutive (log : list Z) : Prop :=
  log = offsets 0 (length log).

(** * Properties *)

(** ** Doubles

    Facts of IEEE arithmetic on the doubles that are not below zero,
    from the specification of the primitive floats. *)

Unset Implicit Arguments.

Lemma pow2_succ d : 0 < d -> 2 ^ d = 2 * 2 ^ (d - 1).
Proof.
  intros H. rewrite <- Z.pow_succ_r by lia. f_equal. lia.
Qed.
Lemma digits2_pos_bounds p :
  2 ^ (Z.pos (digits2_pos p) - 1) <= Z.pos p < 2 ^ Z.pos (digits2_pos p).
Proof.
  induction p as [p IH|p IH|]; cbn [digits2_pos].
  - rewrite Pos2Z.inj_succ, (Pos2Z.inj_xI p).
    pose proof (pow2_succ (Z.pos (digits2_pos p)) ltac:(lia)) as D.
    replace (Z.succ (Z.pos (digits2_pos p)) - 1)
      with (Z.pos (digits2_pos p)) by lia.
    rewrite Z.pow_succ_r by lia. lia.
  - rewrite Pos2Z.inj_succ, (Pos2Z.inj_xO p).
    pose proof (pow2_succ (Z.pos (digits2_pos p)) ltac:(lia)) as D.
    replace (Z.succ (Z.pos (digits2_pos p)) - 1)
      with (Z.pos (digits2_pos p)) by lia.
    rewrite Z.pow_succ_r by lia. lia.
  - simpl. lia.
Qed.

Lemma iter_xO m d : Z.pos (Pos.iter xO m d) = Z.pos m * 2 ^ Z.pos d.
Proof.
  apply (@Pos.iter_ind _ xO m (fun p a => Z.pos a = Z.pos m * 2 ^ Z.pos p)).
  - rewrite (Pos2Z.inj_xO m). simpl. lia.
  - intros p a H. rewrite (Pos2Z.inj_xO a), H, Pos2Z.inj_succ.
    rewrite Z.pow_succ_r by lia. lia.
Qed.

Lemma shr_1_m mrs : 0 <= shr_m mrs -> shr_m (shr_1 mrs) = shr_m mrs / 2.
Proof.
  rewrite <- Z.div2_div.
  destruct mrs as [m r s]. cbn [shr_m].
  destruct m as [|[p|p|]|p]; intros H; try reflexivity; lia.
Qed.

Lemma iter_shr_1 p mrs :
  0 <= shr_m mrs ->
  shr_m (Pos.iter shr_1 mrs p) = shr_m mrs / 2 ^ Z.pos p.
Proof.
  intros H.
  apply (@Pos.iter_ind _ shr_1 mrs
           (fun p a => shr_m a = shr_m mrs / 2 ^ Z.pos p)).
  - rewrite shr_1_m by exact H. reflexivity.
  - intros q a E. rewrite shr_1_m.
    + rewrite E, Pos2Z.inj_succ, Z.pow_succ_r by lia.
      rewrite Z.div_div by lia. f_equal. lia.
    + rewrite E. apply Z.div_pos; [exact H|]. apply Z.pow_pos_nonneg; lia.
Qed.

Lemma iter_pos_iter (A : Type) (f : A -> A) n :
  forall x, SpecFloat.iter_pos f n x = Pos.iter f x n.
Proof.
  induction n as [n IH|n IH|]; intros x; cbn [SpecFloat.iter_pos Pos.iter].
  - rewrite !IH, !Pos.iter_swap. reflexivity.
  - rewrite !IH. reflexivity.
  - reflexivity.
Qed.

Lemma shr_record_of_loc_m m l : shr_m (shr_record_of_loc m l) = m.
Proof. destruct l as [|[]]; reflexivity. Qed.

Lemma shr_fexp_nonneg m e l :
  0 <= m -> 0 <= shr_m (fst (shr_fexp prec emax m e l)).
Proof.
  intros H. unfold shr_fexp, shr.
  destruct (fexp prec emax (Zdigits2 m + e) - e) as [|q|q];
    cbn [fst]; rewrite ?shr_record_of_loc_m; try exact H.
  rewrite iter_pos_iter, iter_shr_1 by (rewrite shr_record_of_loc_m; exact H).
  rewrite shr_record_of_loc_m.
  apply Z.div_pos; [exact H|]. apply Z.pow_pos_nonneg; lia.
Qed.

Lemma shr_fexp_pos m e l :
  0 < m -> SpecFloat.emin prec emax <= e ->
  0 < shr_m (fst (shr_fexp prec emax m e l))
  /\ SpecFloat.emin prec emax <= snd (shr_fexp prec emax m e l).
Proof.
  intros H E. unfold shr_fexp, shr.
  destruct m as [|p|p]; try lia.
  cbn [Zdigits2].
  pose proof (digits2_pos_bounds p) as [B _].
  unfold fexp. unfold SpecFloat.emin, prec, emax in *.
  destruct (Z.max (Z.pos (digits2_pos p) + e - 53) (3 - 1024 - 53) - e)
    as [|q|q] eqn:N; cbn [fst snd]; rewrite ?shr_record_of_loc_m;
    try (split; lia).
  rewrite iter_pos_iter, iter_shr_1 by (rewrite shr_record_of_loc_m; lia).
  rewrite shr_record_of_loc_m. split; [|lia].
  apply Z.div_str_pos. split; [apply Z.pow_pos_nonneg; lia|].
  eapply Z.le_trans; [|exact B].
  apply Z.pow_le_mono_r; lia.
Qed.

Lemma round_nearest_even_ge m l : m <= round_nearest_even m l.
Proof.
  unfold round_nearest_even.
  destruct l as [|[]]; try lia. destruct (Z.even m); lia.
Qed.

(** The result of rounding a mantissa that is not negative. *)
Lemma binary_round_aux_sign s m e l :
  0 <= m ->
  match binary_round_aux prec emax s m e l with
  | S754_zero s' | S754_infinity s' | S754_finite s' _ _ => s' = s
  | S754_nan => False
  end.
Proof.
  intros H. unfold binary_round_aux.
  pose proof (shr_fexp_nonneg m e l H) as H1.
  destruct (shr_fexp prec emax m e l) as [mrs' e']. cbn [fst] in H1.
  pose proof (round_nearest_even_ge (shr_m mrs') (loc_of_shr_record mrs')) as R.
  pose proof (shr_fexp_nonneg
                (round_nearest_even (shr_m mrs') (loc_of_shr_record mrs'))
                e' loc_Exact ltac:(lia)) as H2.
  destruct (shr_fexp prec emax _ e' loc_Exact) as [mrs'' e''].
  cbn [fst] in H2.
  destruct (shr_m mrs'') as [|q|q]; try reflexivity; [|lia].
  destruct (e'' <=? emax - prec); reflexivity.
Qed.

(** The result of rounding a positive mantissa is not zero. *)
Lemma binary_round_aux_pos s m e l :
  0 < m -> SpecFloat.emin prec emax <= e ->
  match binary_round_aux prec emax s m e l with
  | S754_infinity s' | S754_finite s' _ _ => s' = s
  | _ => False
  end.
Proof.
  intros H E. unfold binary_round_aux.
  pose proof (shr_fexp_pos m e l H E) as [H1 E1].
  destruct (shr_fexp prec emax m e l) as [mrs' e']. cbn [fst snd] in H1, E1.
  pose proof (round_nearest_even_ge (shr_m mrs') (loc_of_shr_record mrs')) as R.
  pose proof (shr_fexp_pos
                (round_nearest_even (shr_m mrs') (loc_of_shr_record mrs'))
                e' loc_Exact ltac:(lia) E1) as [H2 _].
  destruct (shr_fexp prec emax _ e' loc_Exact) as [mrs'' e''].
  cbn [fst] in H2.
  destruct (shr_m mrs'') as [|q|q]; try lia.
  destruct (e'' <=? emax - prec); reflexivity.
Qed.

Lemma shl_align_exp m e e' :
  Z.min e e' = snd (shl_align m e e').
Proof.
  unfold shl_align. destruct (e' - e) eqn:D; cbn [snd]; lia.
Qed.

Lemma shl_align_value m e e' :
  e' <= e -> Z.pos (fst (shl_align m e e')) = Z.pos m * 2 ^ (e - e').
Proof.
  intros L. unfold shl_align. destruct (e' - e) as [|d|d] eqn:D; cbn [fst].
  - replace (e - e') with 0 by lia. simpl. lia.
  - lia.
  - rewrite iter_xO. f_equal. f_equal. lia.
Qed.

Lemma binary_round_sign s m e :
  match binary_round prec emax s m e with
  | S754_zero s' | S754_infinity s' | S754_finite s' _ _ => s' = s
  | S754_nan => False
  end.
Proof.
  unfold binary_round.
  destruct (shl_align m e _) as [mz ez].
  apply binary_round_aux_sign. lia.
Qed.

Lemma binary_round_pos s m e :
  SpecFloat.emin prec emax <= e ->
  match binary_round prec emax s m e with
  | S754_infinity s' | S754_finite s' _ _ => s' = s
  | _ => False
  end.
Proof.
  intros E. unfold binary_round.
  pose proof (shl_align_exp m e (fexp prec emax (Z.pos (digits2_pos m) + e)))
    as X.
  destruct (shl_align m e _) as [mz ez]. cbn [snd] in X.
  apply binary_round_aux_pos; [lia|].
  unfold fexp in X. lia.
Qed.

(** ** Sums, quotients and differences of doubles that are not negative *)

Lemma SFadd_nonneg x y :
  sf_nonneg x = true -> sf_nonneg y = true ->
  sf_nonneg (SF64add x y) = true.
Proof.
  unfold SF64add, SFadd.
  destruct x as [sx|sx| |sx mx ex], y as [sy|sy| |sy my ey];
    cbn [sf_nonneg]; intros X Y; try discriminate;
    try (destruct sx; try discriminate);
    try (destruct sy; try discriminate); try reflexivity.
  cbn [cond_Zopp].
  match goal with
  | |- context [binary_normalize _ _ (Z.pos ?a + Z.pos ?b) ?e _] =>
      change (Z.pos a + Z.pos b) with (Z.pos (a + b));
      cbn [binary_normalize];
      pose proof (binary_round_sign false (a + b) e) as R;
      destruct (binary_round prec emax false (a + b) e)
  end; cbn [sf_nonneg]; try subst; try reflexivity; contradiction.
Qed.

Lemma SFdiv_core_nonneg mx ex my ey :
  0 <= fst (fst (SFdiv_core_binary prec emax (Z.pos mx) ex (Z.pos my) ey)).
Proof.
  unfold SFdiv_core_binary.
  set (s := _ - _ - _).
  set (m' := match s with 0 => Z.pos mx | Z.pos _ => Z.shiftl (Z.pos mx) s
                     | Z.neg _ => 0 end).
  assert (M : 0 <= m').
  { unfold m'. destruct s; try lia. apply Z.shiftl_nonneg. lia. }
  pose proof (Z_div_mod m' (Z.pos my) ltac:(lia)) as E.
  change IntDef.Z.div_eucl with Z.div_eucl.
  destruct (Z.div_eucl m' (Z.pos my)) as [q r]. cbn [fst]. nia.
Qed.

Lemma SFdiv_nonneg x my ey :
  sf_nonneg x = true ->
  sf_nonneg (SF64div x (S754_finite false my ey)) = true.
Proof.
  unfold SF64div, SFdiv.
  destruct x as [sx|sx| |sx mx ex]; cbn [sf_nonneg]; intros X;
    try discriminate; destruct sx; try discriminate; try reflexivity.
  pose proof (SFdiv_core_nonneg mx ex my ey) as Q.
  destruct (SFdiv_core_binary prec emax (Z.pos mx) ex (Z.pos my) ey)
    as [[mz ez] lz].
  cbn [fst] in Q. cbn [xorb].
  pose proof (binary_round_aux_sign false mz ez lz Q) as R.
  destruct (binary_round_aux prec emax false mz ez lz); cbn [sf_nonneg];
    try subst; try reflexivity; contradiction.
Qed.

Lemma valid_finite m e :
  bounded prec emax m e = true ->
  SpecFloat.emin prec emax <= e
  /\ Z.pos (digits2_pos m) <= prec
  /\ (SpecFloat.emin prec emax < e -> Z.pos (digits2_pos m) = prec).
Proof.
  unfold bounded, canonical_mantissa, fexp. intros H.
  apply andb_prop in H. destruct H as [C _]. apply Z.eqb_eq in C.
  unfold SpecFloat.emin, prec, emax in *. lia.
Qed.

(** Two finite doubles above zero, aligned on the smaller exponent,
    compare as their exponents and then their mantissas do. *)
Lemma aligned_compare mx ex my ey :
  bounded prec emax mx ex = true ->
  bounded prec emax my ey = true ->
  let ez := Z.min ey ex in
  let d := Z.pos (fst (shl_align my ey ez))
           - Z.pos (fst (shl_align mx ex ez)) in
  match (ey ?= ex) with
  | Eq => Pos.compare my mx
  | Lt => Lt
  | Gt => Gt
  end = (d ?= 0).
Proof.
  intros Vx Vy ez d.
  apply valid_finite in Vx, Vy.
  destruct Vx as [Ex [Dx Nx]], Vy as [Ey [Dy Ny]].
  pose proof (digits2_pos_bounds mx) as [Lx Ux].
  pose proof (digits2_pos_bounds my) as [Ly Uy].
  unfold d, ez. rewrite !shl_align_value by lia.
  assert (P : 2 ^ prec = 2 * 2 ^ (prec - 1)) by reflexivity.
  destruct (Z.compare_spec ey ex) as [E|E|E].
  - subst ey. rewrite Z.min_id, Z.sub_diag. cbn [Z.pow].
    rewrite !Z.mul_1_r. symmetry.
    destruct (Pos.compare_spec my mx) as [C|C|C];
      [apply Z.compare_eq_iff|apply Z.compare_lt_iff|apply Z.compare_gt_iff];
      lia.
  - rewrite Z.min_l by lia. rewrite Z.sub_diag. cbn [Z.pow].
    rewrite Z.mul_1_r. symmetry. apply Z.compare_lt_iff.
    rewrite Nx in Lx by lia.
    assert (2 <= 2 ^ (ex - ey))
      by (change 2 with (2 ^ 1) at 1; apply Z.pow_le_mono_r; lia).
    assert (2 ^ Z.pos (digits2_pos my) <= 2 ^ prec)
      by (apply Z.pow_le_mono_r; lia).
    nia.
  - rewrite Z.min_r by lia. rewrite Z.sub_diag. cbn [Z.pow].
    rewrite Z.mul_1_r. symmetry. apply Z.compare_gt_iff.
    rewrite Ny in Ly by lia.
    assert (2 <= 2 ^ (ey - ex))
      by (change 2 with (2 ^ 1) at 1; apply Z.pow_le_mono_r; lia).
    assert (2 ^ Z.pos (digits2_pos mx) <= 2 ^ prec)
      by (apply Z.pow_le_mono_r; lia).
    nia.
Qed.

Lemma SFsub_sign x y :
  valid_binary x = true -> valid_binary y = true ->
  sf_nonneg x = true -> sf_nonneg y = true ->
  SFltb (S754_zero false) (SF64sub y x) = negb (SFleb y x).
Proof.
  unfold SF64sub, SFsub.
  destruct y as [sy|sy| |sy my ey], x as [sx|sx| |sx mx ex];
    cbn [sf_nonneg valid_binary SpecFloat.valid_binary];
    intros Vx Vy X Y; try discriminate;
    try (destruct sx; try discriminate);
    try (destruct sy; try discriminate); try reflexivity.
  cbn [cond_Zopp].
  change IntDef.Z.min with Z.min.
  pose proof (aligned_compare mx ex my ey Vx Vy) as C. cbv zeta in C.
  pose proof (valid_finite _ _ Vx) as [Ex _].
  pose proof (valid_finite _ _ Vy) as [Ey _].
  unfold SFleb, SFcompare.
  change (PosDef.Pos.compare_cont Eq my mx) with (Pos.compare my mx).
  rewrite C.
  set (ez := Z.min ey ex) in *.
  destruct (Z.pos (fst (shl_align my ey ez)) - Z.pos (fst (shl_align mx ex ez)))
    as [|d|d]; cbn [binary_normalize Z.compare].
  - reflexivity.
  - pose proof (binary_round_pos false d ez ltac:(unfold ez; lia)) as R.
    destruct (binary_round prec emax false d ez) as [s|s| |s m e];
      try contradiction; subst; reflexivity.
  - pose proof (binary_round_sign true d ez) as R.
    destruct (binary_round prec emax true d ez) as [s|s| |s m e];
      try contradiction; subst; reflexivity.
Qed.

Lemma SFleb_total x y :
  sf_nonneg x = true -> sf_nonneg y = true ->
  SFleb x y = false -> SFleb y x = true.
Proof.
  unfold SFleb, SFcompare.
  destruct x as [sx|sx| |sx mx ex], y as [sy|sy| |sy my ey];
    cbn [sf_nonneg]; intros X Y; try discriminate;
    try (destruct sx; try discriminate);
    try (destruct sy; try discriminate); try (intros; reflexivity);
    try discriminate.
  change (PosDef.Pos.compare_cont Eq mx my) with (Pos.compare mx my).
  change (PosDef.Pos.compare_cont Eq my mx) with (Pos.compare my mx).
  rewrite (Z.compare_antisym ex ey), (Pos.compare_antisym mx my).
  destruct (ex ?= ey); cbn [CompOpp]; try discriminate; try reflexivity.
  destruct (mx ?= my)%positive; cbn [CompOpp]; try discriminate; reflexivity.
Qed.

Lemma SFleb_trans x y z :
  sf_nonneg x = true -> sf_nonneg y = true -> sf_nonneg z = true ->
  SFleb x y = true -> SFleb y z = true -> SFleb x z = true.
Proof.
  unfold SFleb, SFcompare.
  destruct x as [sx|sx| |sx mx ex], y as [sy|sy| |sy my ey],
           z as [sz|sz| |sz mz ez];
    cbn [sf_nonneg]; intros X Y Z; try discriminate;
    try (destruct sx; try discriminate);
    try (destruct sy; try discriminate);
    try (destruct sz; try discriminate); try (intros; reflexivity);
    try discriminate.
  change (PosDef.Pos.compare_cont Eq mx my) with (Pos.compare mx my).
  change (PosDef.Pos.compare_cont Eq my mz) with (Pos.compare my mz).
  change (PosDef.Pos.compare_cont Eq mx mz) with (Pos.compare mx mz).
  destruct (Z.compare_spec ex ey), (Z.compare_spec ey ez),
           (Z.compare_spec ex ez); try lia; try discriminate;
    try (intros; reflexivity);
    destruct (Pos.compare_spec mx my), (Pos.compare_spec my mz),
             (Pos.compare_spec mx mz); try lia; try discriminate;
    intros; reflexivity.
Qed.

(** ** The same facts on the doubles themselves *)

Lemma nonneg_spec x : nonneg x <-> sf_nonneg (Prim2SF x) = true.
Proof.
  unfold nonneg. rewrite leb_spec.
  change (Prim2SF 0) with (S754_zero false).
  replace (SFleb (S754_zero false) (Prim2SF x)) with (sf_nonneg (Prim2SF x));
    [reflexivity|].
  destruct (Prim2SF x) as [s|[]| |[] m e]; reflexivity.
Qed.

Lemma not_nan_spec x : is_nan x = false <-> Prim2SF x <> S754_nan.
Proof.
  unfold is_nan. rewrite negb_false_iff, FloatAxioms.eqb_spec.
  unfold SFeqb, SFcompare.
  destruct (Prim2SF x) as [s|[]| |[] m e];
    rewrite ?Z.compare_refl;
    try change (PosDef.Pos.compare_cont Eq m m) with (Pos.compare m m);
    rewrite ?Pos.compare_refl;
    (split; intros H; [try discriminate|try reflexivity]);
    now contradiction H.
Qed.

Lemma nonneg_zero : nonneg 0.
Proof. reflexivity. Qed.

Lemma nonneg_add x y : nonneg x -> nonneg y -> nonneg (x + y).
Proof.
  rewrite !nonneg_spec, add_spec. apply SFadd_nonneg.
Qed.

Lemma nonneg_abs x : is_nan x = false -> nonneg (abs x).
Proof.
  rewrite not_nan_spec, nonneg_spec, abs_spec.
  destruct (Prim2SF x); cbn; congruence.
Qed.

(** [Math.abs(x) / 10**9] of a number is a number that is not
    negative. *)
Lemma nonneg_scaled x : is_nan x = false -> nonneg (abs x / 1000000000).
Proof.
  intros H. apply nonneg_abs in H. revert H.
  rewrite !nonneg_spec, div_spec.
  change (Prim2SF 1000000000)
    with (S754_finite false 8388608000000000 (-23)).
  apply SFdiv_nonneg.
Qed.

(** The sign of a difference tells the order of its operands. *)
Lemma sub_sign x y :
  nonneg x -> nonneg y -> (0 <? y - x)%float = negb (y <=? x)%float.
Proof.
  rewrite !nonneg_spec, ltb_spec, leb_spec, sub_spec.
  change (Prim2SF 0) with (S754_zero false).
  apply SFsub_sign; apply Prim2SF_valid.
Qed.

Lemma leb_total x y :
  nonneg x -> nonneg y -> (x <=? y)%float = false -> (y <=? x)%float = true.
Proof. rewrite !nonneg_spec, !leb_spec. apply SFleb_total. Qed.

Lemma leb_trans x y z :
  nonneg x -> nonneg y -> nonneg z ->
  (x <=? y)%float = true -> (y <=? z)%float = true -> (x <=? z)%float = true.
Proof. rewrite !nonneg_spec, !leb_spec. apply SFleb_trans. Qed.

Set Implicit Arguments.



(** ** The host language *)

Section DictFacts.

Variable V : Type.
Implicit Types (m : dict V) (k : string) (v : V).

Lemma get_set m k v k' :
  get (set m k v) k' = if String.eqb k' k then Some v else get m k'.
Proof.
  induction m as [|[k0 v0] m IH]; simpl.
  - destruct (String.eqb k' k); reflexivity.
  - destruct (String.eqb k k0) eqn:E; simpl.
    + apply String.eqb_eq in E; subst k0.
      destruct (String.eqb k' k); reflexivity.
    + rewrite IH.
      destruct (String.eqb k' k0) eqn:E0; [|reflexivity].
      apply String.eqb_eq in E0; subst k0.
      destruct (String.eqb k' k) eqn:E1; [|reflexivity].
      apply String.eqb_eq in E1; subst k'.
      rewrite String.eqb_refl in E; discriminate.
Qed.

Lemma get_none_keys m k : get m k = None <-> ~ In k (keys m).
Proof.
  induction m as [|[k0 v0] m IH]; simpl.
  - tauto.
  - destruct (String.eqb k k0) eqn:E.
    + apply String.eqb_eq in E; subst k0.
      split; [discriminate | intros H; exfalso; apply H; now left].
    + apply String.eqb_neq in E. rewrite IH.
      split; [intros H [H1|H1]; [congruence | tauto] | tauto].
Qed.

Lemma get_some_keys m k v : get m k = Some v -> In k (keys m).
Proof.
  intros H. destruct (in_dec string_dec k (keys m)) as [i|n]; [exact i|].
  apply get_none_keys in n. congruence.
Qed.

Lemma keys_set m k v :
  keys (set m k v) = if has m k then keys m else keys m ++ [k].
Proof.
  unfold has.
  induction m as [|[k0 v0] m IH]; simpl; [reflexivity|].
  destruct (String.eqb k k0) eqn:E; simpl; [reflexivity|].
  rewrite IH. destruct (get m k); reflexivity.
Qed.

Lemma keys_set_nodup m k v : NoDup (keys m) -> NoDup (keys (set m k v)).
Proof.
  intros H. rewrite keys_set. unfold has.
  destruct (get m k) eqn:E; [exact H|].
  apply get_none_keys in E.
  apply NoDup_rev in H. rewrite <- (rev_involutive (keys m ++ [k])).
  apply NoDup_rev. rewrite rev_app_distr. simpl.
  constructor; [rewrite <- in_rev; exact E | exact H].
Qed.

Lemma in_get m k v : NoDup (keys m) -> In (k, v) m -> get m k = Some v.
Proof.
  induction m as [|[k0 v0] m IH]; simpl; [tauto|].
  intros N [H|H].
  - inversion H; subst. now rewrite String.eqb_refl.
  - inversion N as [|? ? N1 N2]; subst.
    destruct (String.eqb k k0) eqn:E.
    + apply String.eqb_eq in E; subst k0.
      exfalso; apply N1. apply (in_map fst) in H. exact H.
    + auto.
Qed.

Lemma get_in m k v : get m k = Some v -> In (k, v) m.
Proof.
  induction m as [|[k0 v0] m IH]; simpl; [discriminate|].
  destruct (String.eqb k k0) eqn:E.
  - apply String.eqb_eq in E; subst k0. intros H; inversion H; now left.
  - intros H; right; auto.
Qed.

End DictFacts.

Section SliceFacts.

Variable A : Type.
Implicit Types (l : list A).

Lemma slice0_NaN l : slice0 l NaN = [].
Proof.
  unfold slice0. simpl. rewrite Z.min_l by lia. reflexivity.
Qed.

Lemma slice0_nonneg l n :
  0 <= n -> slice0 l (Num n) = firstn (Z.to_nat n) l.
Proof.
  intros H. unfold slice0.
  destruct (n <? 0) eqn:E; [apply Z.ltb_lt in E; lia|].
  destruct (Z.le_ge_cases n (Z.of_nat (length l))) as [L|L].
  - now rewrite Z.min_l.
  - rewrite Z.min_r by lia. rewrite Nat2Z.id.
    rewrite firstn_all. symmetry. apply firstn_all2. lia.
Qed.

Lemma slice0_length_nonneg l n :
  0 <= n ->
  Z.of_nat (length (slice0 l (Num n))) = Z.min n (Z.of_nat (length l)).
Proof.
  intros H. rewrite slice0_nonneg by exact H.
  rewrite length_firstn. lia.
Qed.

Lemma slice0_prefix l e : exists l', l = slice0 l e ++ l'.
Proof.
  unfold slice0. eexists. symmetry. apply firstn_skipn.
Qed.

Lemma slice0_incl l e x : In x (slice0 l e) -> In x l.
Proof.
  intros H. destruct (slice0_prefix l e) as [l' E].
  rewrite E. apply in_or_app. now left.
Qed.

Lemma slice0_all l n :
  Z.of_nat (length (slice0 l (Num n))) < n -> slice0 l (Num n) = l.
Proof.
  intros H.
  assert (0 <= n) by lia.
  rewrite slice0_length_nonneg in H by assumption.
  rewrite slice0_nonneg by assumption.
  apply firstn_all2. lia.
Qed.

End SliceFacts.

Section SortFacts.

Variable A : Type.
Variable cmp : A -> A -> Q.

Lemma sort_insert_perm x l : Permutation (sort_insert cmp x l) (x :: l).
Proof.
  induction l as [|y l IH]; simpl; [reflexivity|].
  destruct (Qle_bool (cmp x y) 0); [reflexivity|].
  rewrite IH. apply perm_swap.
Qed.

Lemma sort_perm l : Permutation (sort cmp l) l.
Proof.
  induction l as [|x l IH]; simpl; [reflexivity|].
  rewrite sort_insert_perm. now constructor.
Qed.

Hypothesis before_total : forall x y, ~ before cmp x y -> before cmp y x.
Hypothesis before_trans :
  forall x y z, before cmp x y -> before cmp y z -> before cmp x z.

Lemma sort_insert_sorted x l :
  StronglySorted (before cmp) l ->
  StronglySorted (before cmp) (sort_insert cmp x l).
Proof.
  induction 1 as [|y l S IH F]; simpl.
  - constructor; constructor.
  - destruct (Qle_bool (cmp x y) 0) eqn:E.
    + constructor; [constructor; assumption|].
      constructor; [exact E|].
      eapply Forall_impl; [|exact F]. intros z Hz.
      eapply before_trans; eassumption.
    + constructor; [exact IH|].
      assert (Hyx : before cmp y x).
      { apply before_total. unfold before. rewrite E. discriminate. }
      eapply Permutation_Forall.
      * symmetry. apply sort_insert_perm.
      * constructor; assumption.
Qed.

Lemma sort_sorted l : StronglySorted (before cmp) (sort cmp l).
Proof.
  induction l as [|x l IH]; simpl; [constructor|].
  now apply sort_insert_sorted.
Qed.

End SortFacts.

Lemma StronglySorted_app_l (A : Type) (R : A -> A -> Prop) (l l' : list A) :
  StronglySorted R (l ++ l') -> StronglySorted R l.
Proof.
  induction l as [|x l IH]; simpl; intros H; [constructor|].
  inversion H as [|? ? S F]; subst.
  constructor; [auto|].
  apply Forall_app in F. tauto.
Qed.

(** The same of [sort_double], for the elements on which the
    comparator is the sign of an order. *)
Section SortDoubleFacts.

Variable A : Type.
Variable cmp : A -> A -> float.

Lemma sort_insert_double_perm x l :
  Permutation (sort_insert_double cmp x l) (x :: l).
Proof.
  induction l as [|y l IH]; simpl; [reflexivity|].
  destruct (0 <? cmp x y)%float; [|reflexivity].
  rewrite IH. apply perm_swap.
Qed.

Lemma sort_double_perm l : Permutation (sort_double cmp l) l.
Proof.
  induction l as [|x l IH]; simpl; [reflexivity|].
  rewrite sort_insert_double_perm. now constructor.
Qed.

Variable P : A -> Prop.
Variable R : A -> A -> Prop.

Hypothesis after :
  forall x y, P x -> P y -> (0 <? cmp x y)%float = true -> R y x.
Hypothesis otherwise :
  forall x y, P x -> P y -> (0 <? cmp x y)%float = false -> R x y.
Hypothesis R_trans :
  forall x y z, P x -> P y -> P z -> R x y -> R y z -> R x z.

Lemma sort_insert_double_sorted x l :
  P x -> Forall P l -> StronglySorted R l ->
  StronglySorted R (sort_insert_double cmp x l).
Proof.
  intros Px Pl S. induction S as [|y l S IH F]; simpl.
  - constructor; constructor.
  - inversion Pl as [|? ? Py Pl']; subst.
    destruct (0 <? cmp x y)%float eqn:E.
    + constructor; [now apply IH|].
      eapply Permutation_Forall.
      * symmetry. apply sort_insert_double_perm.
      * constructor; [now apply after | assumption].
    + constructor; [constructor; assumption|].
      constructor; [now apply otherwise|].
      rewrite Forall_forall in *. intros z Hz.
      apply (@R_trans x y z); auto.
Qed.

Lemma sort_double_sorted l :
  Forall P l -> StronglySorted R (sort_double cmp l).
Proof.
  induction l as [|x l IH]; simpl; intros F; [constructor|].
  inversion F as [|? ? Px Pl]; subst.
  apply sort_insert_double_sorted; [assumption| |now apply IH].
  eapply Permutation_Forall; [symmetry; apply sort_double_perm|assumption].
Qed.

End SortDoubleFacts.

(** [Object.entries] lists every own property once. *)
Lemma filter_partition_perm (A : Type) (f : A -> bool) l :
  Permutation (filter f l ++ filter (fun x => negb (f x)) l) l.
Proof.
  induction l as [|x l IH]; simpl; [reflexivity|].
  destruct (f x); simpl.
  - now constructor.
  - symmetry. apply Permutation_cons_app. now symmetry.
Qed.

Lemma entries_perm (V : Type) (o : dict V) : Permutation (entries o) o.
Proof.
  unfold entries. rewrite sort_perm. apply filter_partition_perm.
Qed.

Lemma entries_in (V : Type) (o : dict V) p : In p (entries o) <-> In p o.
Proof.
  split; apply Permutation_in; [|symmetry]; apply entries_perm.
Qed.

Lemma entries_plain (V : Type) (o : dict V) :
  (forall p, In p o -> array_index (fst p) = None) -> entries o = o.
Proof.
  intros H. unfold entries.
  assert (E1 : filter (@is_index V) o = []).
  { induction o as [|p o IH]; simpl; [reflexivity|].
    unfold is_index at 1. rewrite (H p (or_introl eq_refl)).
    apply IH. intros q Hq. apply H. now right. }
  rewrite E1. simpl.
  induction o as [|p o IH]; simpl; [reflexivity|].
  unfold is_index at 1. rewrite (H p (or_introl eq_refl)). simpl.
  f_equal. apply IH.
  - intros q Hq. apply H. now right.
  - simpl in E1. unfold is_index at 1 in E1.
    rewrite (H p (or_introl eq_refl)) in E1. exact E1.
Qed.

(** ** The shared skeleton *)

Section PagedFacts.

Variables B St : Type.
Variable message : string.
Variable guard : St -> Z -> bool.
Variable step : St -> Z -> option B -> St * bool.

Local Abbreviation paged := (paged message guard step).
Local Abbreviation run := (run guard step).

(** A run that finished is not changed by more fuel. *)
Lemma paged_fuel_mono fuel fuel' up st offset :
  (fuel <= fuel')%nat ->
  paged fuel up st offset <> OutOfFuel ->
  paged fuel' up st offset = paged fuel up st offset.
Proof.
  revert fuel' st offset.
  induction fuel as [|fuel IH]; intros fuel' st offset L H;
    [now contradiction H|].
  destruct fuel' as [|fuel']; [lia|].
  simpl in *.
  destruct (guard st offset); [|reflexivity].
  destruct (up offset) as [b|]; [|reflexivity].
  destruct (step st offset b) as [st' [|]]; try reflexivity.
  rewrite IH; [reflexivity | lia |].
  intros E. rewrite E in H. now apply H.
Qed.

(** The result depends on the upstream only through the pages at the
    offsets the run requested. *)
Lemma paged_ext fuel up1 up2 st offset :
  (forall o, In o (log_of (paged fuel up1 st offset)) -> up1 o = up2 o) ->
  paged fuel up1 st offset <> OutOfFuel ->
  paged fuel up2 st offset = paged fuel up1 st offset.
Proof.
  revert st offset.
  induction fuel as [|fuel IH]; intros st offset H N;
    [now contradiction N|].
  simpl in *.
  destruct (guard st offset); [|reflexivity].
  assert (E : up1 offset = up2 offset).
  { apply H.
    destruct (up1 offset) as [b|]; simpl; [|now left].
    destruct (step st offset b) as [st' [|]]; simpl; try now left.
    destruct (paged fuel up1 st' (offset + pageSize));
      simpl; try now left.
    now contradiction N. }
  rewrite <- E.
  destruct (up1 offset) as [b|]; [|reflexivity].
  destruct (step st offset b) as [st' [|]]; try reflexivity.
  rewrite IH; [reflexivity | |].
  - intros o Ho. apply H.
    destruct (paged fuel up1 st' (offset + pageSize));
      simpl in *; tauto.
  - intros E'. rewrite E' in N. now apply N.
Qed.

(** A run that returns is a run of the big-step relation. *)
Lemma paged_run fuel up st offset st' log :
  paged fuel up st offset = Returned st' log -> run up st offset log st'.
Proof.
  revert st offset log.
  induction fuel as [|fuel IH]; intros st offset log H; [discriminate|].
  simpl in H.
  destruct (guard st offset) eqn:G.
  - destruct (up offset) as [b|] eqn:U; [|discriminate].
    destruct (step st offset b) as [st1 [|]] eqn:T.
    + destruct (paged fuel up st1 (offset + pageSize))
        as [v l| |] eqn:P; try discriminate.
      simpl in H. inversion H; subst.
      eapply run_next; eauto.
    + inversion H; subst. eapply run_break; eauto.
  - inversion H; subst. now apply run_exit.
Qed.

(** Conversely, one iteration more than pages requested is enough
    fuel. *)
Lemma run_paged up st offset log st' :
  run up st offset log st' ->
  forall fuel, (length log < fuel)%nat ->
  paged fuel up st offset = Returned st' log.
Proof.
  induction 1 as [st offset G|st offset b st' G U T
                  |st offset b st1 log st' G U T R IH];
    intros fuel L; (destruct fuel as [|fuel]; [simpl in L; lia|]);
    simpl; rewrite G; try reflexivity; rewrite U, T; try reflexivity.
  rewrite IH by (simpl in L; lia). reflexivity.
Qed.

(** The offsets requested are consecutive pages: each is requested
    once. *)
Lemma run_offsets up st offset log st' :
  run up st offset log st' -> log = offsets offset (length log).
Proof.
  induction 1; simpl; congruence.
Qed.

(** Every page of a run that returns was served. *)
Lemma run_served up st offset log st' :
  run up st offset log st' -> Forall (fun o => up o <> Reject) log.
Proof.
  induction 1 as [| |st offset b st1 log st' G U T R IH];
    repeat constructor; try congruence; exact IH.
Qed.

(** A run that throws throws the loop's message, at its last
    request, which was rejected; every request before was served. *)
Lemma paged_threw fuel up st offset m log :
  paged fuel up st offset = Threw m log ->
  m = message /\
  exists l o, log = l ++ [o] /\ Forall (fun o => up o <> Reject) l /\
              up o = Reject /\ log = offsets offset (length log).
Proof.
  revert st offset log.
  induction fuel as [|fuel IH]; intros st offset log H; [discriminate|].
  simpl in H.
  destruct (guard st offset) eqn:G; [|discriminate].
  destruct (up offset) as [b|] eqn:U.
  - destruct (step st offset b) as [st1 [|]] eqn:T; try discriminate.
    destruct (paged fuel up st1 (offset + pageSize))
      as [v l| m' l|] eqn:P; try discriminate.
    simpl in H. inversion H; subst.
    destruct (IH _ _ _ P) as [Hm [l0 [o [E [F [J O]]]]]].
    split; [exact Hm|].
    exists (offset :: l0), o. subst l. simpl. split; [reflexivity|].
    split; [constructor; [congruence | exact F]|].
    split; [exact J|].
    simpl in O. congruence.
  - inversion H; subst. split; [reflexivity|].
    exists [], offset. repeat split; try constructor. exact U.
Qed.

End PagedFacts.

(** ** The loops are instances of the skeleton *)

Ltac loop_cases :=
  repeat match goal with
    | |- context [match ?x with _ => _ end] =>
        lazymatch x with
        | paged _ _ _ _ _ _ _ => fail
        | _ => destruct x eqn:?; simpl; try reflexivity
        end
    end.

Lemma and_then_requested (A C : Type) (o : outcome A) (f : A -> C) offset :
  and_then (requested offset o) f = requested offset (and_then o f).
Proof. destruct o; reflexivity. Qed.

Lemma holders_pro_paged fuel up limit minAmount holders offset :
  Holders.Pro.loop fuel up limit minAmount holders offset =
  paged "Failed to fetch holder data from Solscan."
    (HoldersSkeleton.guard limit) (HoldersSkeleton.pro_step limit minAmount)
    fuel up holders offset.
Proof.
  revert holders offset.
  induction fuel as [|fuel IH]; intros holders offset; [reflexivity|].
  simpl. unfold HoldersSkeleton.guard, HoldersSkeleton.pro_step.
  loop_cases; rewrite IH; reflexivity.
Qed.

Lemma holders_public_paged fuel up limit minAmount holders offset :
  Holders.Public.loop fuel up limit minAmount holders offset =
  paged "Failed to fetch holder data from Solscan."
    (HoldersSkeleton.guard limit) (HoldersSkeleton.public_step limit minAmount)
    fuel up holders offset.
Proof.
  revert holders offset.
  induction fuel as [|fuel IH]; intros holders offset; [reflexivity|].
  simpl. unfold HoldersSkeleton.guard, HoldersSkeleton.public_step.
  loop_cases; rewrite IH; reflexivity.
Qed.

Lemma traders_pro_paged fuel up walletVolumes offset processed :
  Traders.Pro.loop fuel up walletVolumes offset processed =
  and_then
    (paged "Failed to fetch transfer data from Solscan."
       TradersSkeleton.pro_guard TradersSkeleton.pro_step
       fuel up (walletVolumes, processed) offset)
    fst.
Proof.
  revert walletVolumes offset processed.
  induction fuel as [|fuel IH]; intros walletVolumes offset processed;
    [reflexivity|].
  simpl. unfold TradersSkeleton.pro_guard, TradersSkeleton.pro_step. simpl.
  loop_cases; rewrite IH; symmetry; apply and_then_requested.
Qed.

Lemma traders_public_paged fuel up walletCounts offset :
  Traders.Public.loop fuel up walletCounts offset =
  paged "Failed to fetch transaction data from Solscan."
    TradersSkeleton.public_guard TradersSkeleton.public_step
    fuel up walletCounts offset.
Proof.
  revert walletCounts offset.
  induction fuel as [|fuel IH]; intros walletCounts offset; [reflexivity|].
  simpl. unfold TradersSkeleton.public_guard, TradersSkeleton.public_step.
  loop_cases; rewrite IH; reflexivity.
Qed.

Lemma interval_pro_paged fuel up from to activeWallets offset :
  Interval.Pro.loop fuel up from to activeWallets offset =
  paged "Failed to fetch transfer data from Solscan."
    IntervalSkeleton.guard (IntervalSkeleton.pro_step from to)
    fuel up activeWallets offset.
Proof.
  revert activeWallets offset.
  induction fuel as [|fuel IH]; intros activeWallets offset; [reflexivity|].
  simpl. unfold IntervalSkeleton.guard, IntervalSkeleton.pro_step.
  loop_cases; rewrite IH; reflexivity.
Qed.

Lemma interval_public_paged fuel up from to activeWallets offset :
  Interval.Public.loop fuel up from to activeWallets offset =
  paged "Failed to fetch transaction data from Solscan."
    IntervalSkeleton.guard (IntervalSkeleton.public_step from to)
    fuel up activeWallets offset.
Proof.
  revert activeWallets offset.
  induction fuel as [|fuel IH]; intros activeWallets offset; [reflexivity|].
  simpl. unfold IntervalSkeleton.guard, IntervalSkeleton.public_step.
  loop_cases; rewrite IH; reflexivity.
Qed.

(** ** Empty first page *)

Lemma paged_unfold (B St : Type) message guard step fuel
    (up : Upstream B) (st : St) offset :
  paged message guard step (S fuel) up st offset =
  if guard st offset then
    match up offset with
    | Reject => Threw message [offset]
    | Resp b =>
        match step st offset b with
        | (st', true) =>
            requested offset
              (paged message guard step fuel up st' (offset + pageSize))
        | (st', false) => Returned st' [offset]
        end
    end
  else Returned st [].
Proof. reflexivity. Qed.

Lemma paged_break (B St : Type) message guard step fuel
    (up : Upstream B) (st st' : St) offset b :
  guard st offset = true ->
  up offset = Resp b ->
  step st offset b = (st', false) ->
  paged message guard step (S fuel) up st offset = Returned st' [offset].
Proof.
  intros G U T. rewrite paged_unfold, G, U, T. reflexivity.
Qed.

Lemma first_page_empty_inv (B R : Type) (content : B -> list R) up :
  first_page_empty content up = true ->
  up 0 = Resp None \/
  exists b, up 0 = Resp (Some b) /\ (length (content b) =? 0)%nat = true.
Proof.
  unfold first_page_empty, page.
  destruct (up 0) as [[b|]|]; intros H; try discriminate; eauto.
Qed.

Lemma slice0_nil (A : Type) e : slice0 (@nil A) e = [].
Proof. unfold slice0. apply firstn_nil. Qed.

(** C9. If the first upstream page is empty, every aggregation stops
    at once and returns an empty result, without raising an error: it
    made the one request for the first page (none, for the holders,
    when the limit leaves nothing to fetch). *)
Theorem empty_first_page_returns_empty
    (fuel : nat) (key : option string)
    (holdersUp : Upstream Holders.Pro.SolscanResponse)
    (transfersUp : Upstream SolscanTransferResponse)
    (publicHoldersUp : Upstream (list Holder.t))
    (publicTxUp : Upstream (list PublicTx.t))
    (limit from to : number Z) (minAmount : number Q) :
  key_missing key = false ->
  first_page_empty Holders.Pro.data holdersUp = true ->
  first_page_empty data transfersUp = true ->
  first_page_empty (@items _) publicHoldersUp = true ->
  first_page_empty (@items _) publicTxUp = true ->
  Holders.Pro.fetchHolders (S fuel) key holdersUp limit minAmount
    = Returned [] (if lt 0 limit then [0] else [])
  /\ Traders.Pro.fetchTopTraders key transfersUp limit = Returned [] [0]
  /\ Interval.Pro.fetchActiveWallets (S fuel) key transfersUp from to
     = Returned [] [0]
  /\ Holders.Public.fetchHolders (S fuel) publicHoldersUp limit minAmount
     = Returned [] (if lt 0 limit then [0] else [])
  /\ Traders.Public.fetchTopTraders publicTxUp limit = Returned [] [0]
  /\ Interval.Public.fetchActiveWallets (S fuel) publicTxUp from to
     = Returned [] [0].
Proof.
  intros K H1 H2 H3 H4.
  apply first_page_empty_inv in H1, H2, H3, H4.
  unfold Holders.Pro.fetchHolders, Traders.Pro.fetchTopTraders,
    Interval.Pro.fetchActiveWallets, Holders.Public.fetchHolders,
    Traders.Public.fetchTopTraders, Interval.Public.fetchActiveWallets.
  rewrite K.
  rewrite holders_pro_paged, traders_pro_paged, interval_pro_paged,
    holders_public_paged, traders_public_paged, interval_public_paged.
  change Traders.Pro.iterations with (S 1000).
  change Traders.Public.iterations with (S 10).
  repeat split.
  - destruct (lt 0 limit) eqn:G.
    + destruct H1 as [E|[b [E L]]];
        (erewrite paged_break; [| exact G | exact E |]);
        [| reflexivity | | unfold HoldersSkeleton.pro_step; now rewrite L];
        unfold and_then; now rewrite slice0_nil.
    + rewrite paged_unfold. unfold HoldersSkeleton.guard.
      change (Z.of_nat (length (@nil HolderRow.t))) with 0. rewrite G.
      unfold and_then; now rewrite slice0_nil.
  - destruct H2 as [E|[b [E L]]];
      (erewrite paged_break; [| reflexivity | exact E |]);
      [| reflexivity | | unfold TradersSkeleton.pro_step; now rewrite L];
      unfold and_then, fst, Traders.Pro.sortedTraders, map, sort, fold_right;
      now rewrite slice0_nil.
  - destruct H2 as [E|[b [E L]]];
      (erewrite paged_break; [| reflexivity | exact E |]);
      [| reflexivity | | unfold IntervalSkeleton.pro_step; now rewrite L];
      reflexivity.
  - destruct (lt 0 limit) eqn:G.
    + destruct H3 as [E|[b [E L]]];
        (erewrite paged_break; [| exact G | exact E |]);
        [| reflexivity | | unfold HoldersSkeleton.public_step; unfold items in L; now rewrite L];
        unfold and_then; now rewrite slice0_nil.
    + rewrite paged_unfold. unfold HoldersSkeleton.guard.
      change (Z.of_nat (length (@nil HolderRow.t))) with 0. rewrite G.
      unfold and_then; now rewrite slice0_nil.
  - destruct H4 as [E|[b [E L]]];
      (erewrite paged_break; [| reflexivity | exact E |]);
      [| reflexivity | | unfold TradersSkeleton.public_step; unfold items in L; now rewrite L];
      unfold and_then, Traders.Public.sortedTraders, map, sort, fold_right;
      now rewrite slice0_nil.
  - destruct H4 as [E|[b [E L]]];
      (erewrite paged_break; [| reflexivity | exact E |]);
      [| reflexivity | | unfold IntervalSkeleton.public_step; unfold items in L; now rewrite L];
      reflexivity.
Qed.

Lemma empty_first_page_returns_empty_witness :
  Holders.Pro.fetchHolders 1 (Some "key") no_holders (Num 100) (Num 0%Q)
    = Returned [] [0]
  /\ Traders.Pro.fetchTopTraders (Some "key") no_transfers (Num 100)
     = Returned [] [0]
  /\ Interval.Pro.fetchActiveWallets 1 (Some "key") no_transfers
       (Num 100) (Num 150) = Returned [] [0]
  /\ Holders.Public.fetchHolders 1 (@nothing _) (Num 100) (Num 0%Q)
     = Returned [] [0]
  /\ Traders.Public.fetchTopTraders (@nothing _) (Num 100) = Returned [] [0]
  /\ Interval.Public.fetchActiveWallets 1 (@nothing _) (Num 100) (Num 150)
     = Returned [] [0].
Proof.
  apply (@empty_first_page_returns_empty 0 (Some "key") no_holders
           no_transfers (@nothing _) (@nothing _) (Num 100) (Num 100)
           (Num 150) (Num 0%Q)); reflexivity.
Defined.

(** ** The handlers *)

Lemma missing_not_valid v : missing v = true -> valid_token v = false.
Proof.
  destruct v as [[t|l]|]; simpl; try reflexivity; try discriminate.
  now destruct (truthy t).
Qed.

Lemma holders_handler_cases parseFloat fuel key up req :
  Holders.Pro.handler parseFloat fuel key up req =
  if valid_token (Holders.token req) then
    respond (Holders.Pro.fetchHolders fuel key up
               (parseInt (ToString (with_default "100" (Holders.limit req))))
               (parseFloat
                  (ToString (with_default "0" (Holders.minAmount req)))))
  else Served 400 (ErrorBody "Token address is required.") [].
Proof.
  unfold Holders.Pro.handler, valid_token.
  destruct (Holders.token req) as [[t|l]|]; try reflexivity.
Qed.

Lemma traders_handler_cases key up req :
  Traders.Pro.handler key up req =
  if valid_token (Traders.token req) then
    respond (Traders.Pro.fetchTopTraders key up
               (parseInt (ToString (with_default "50" (Traders.limit req)))))
  else Served 400 (ErrorBody "Token address is required.") [].
Proof.
  unfold Traders.Pro.handler, valid_token.
  destruct (Traders.token req) as [[t|l]|]; try reflexivity.
Qed.

Lemma interval_handler_cases fuel key up req :
  Interval.Pro.handler fuel key up req =
  if valid_token (Interval.token req) then
    if missing (Interval.from req) || missing (Interval.to req) then
      Served 400 (ErrorBody "A time range (from, to) is required.") []
    else
      respond (Interval.Pro.fetchActiveWallets fuel key up
                 (parseIntQ (Interval.from req)) (parseIntQ (Interval.to req)))
  else Served 400 (ErrorBody "Token address is required.") [].
Proof.
  unfold Interval.Pro.handler, valid_token.
  destruct (Interval.token req) as [[t|l]|]; try reflexivity.
Qed.

(** C7. On each of the three routes a missing required query parameter
    (token everywhere; from and to on interval) is answered with
    status 400 and a body [{error}] before any upstream call, and an
    error thrown by the aggregation is answered with status 500 and a
    body [{error}] carrying its message. *)
Theorem handler_error_responses
    (parseFloat : string -> number Q) (fuel : nat) (key : option string)
    (holdersUp : Upstream Holders.Pro.SolscanResponse)
    (transfersUp : Upstream SolscanTransferResponse)
    (h : Holders.Query) (t : Traders.Query) (i : Interval.Query) :
  (missing (Holders.token h) = true ->
   Holders.Pro.handler parseFloat fuel key holdersUp h
   = Served 400 (ErrorBody "Token address is required.") [])
  /\ (missing (Traders.token t) = true ->
      Traders.Pro.handler key transfersUp t
      = Served 400 (ErrorBody "Token address is required.") [])
  /\ (missing (Interval.token i) = true
      \/ missing (Interval.from i) = true \/ missing (Interval.to i) = true ->
      exists error,
        Interval.Pro.handler fuel key transfersUp i
        = Served 400 (ErrorBody error) [])
  /\ (forall message log,
        valid_token (Holders.token h) = true ->
        Holders.Pro.fetchHolders fuel key holdersUp
          (parseInt (ToString (with_default "100" (Holders.limit h))))
          (parseFloat (ToString (with_default "0" (Holders.minAmount h))))
        = Threw message log ->
        Holders.Pro.handler parseFloat fuel key holdersUp h
        = Served 500 (ErrorBody message) log)
  /\ (forall message log,
        valid_token (Traders.token t) = true ->
        Traders.Pro.fetchTopTraders key transfersUp
          (parseInt (ToString (with_default "50" (Traders.limit t))))
        = Threw message log ->
        Traders.Pro.handler key transfersUp t
        = Served 500 (ErrorBody message) log)
  /\ (forall message log,
        valid_token (Interval.token i) = true ->
        missing (Interval.from i) = false ->
        missing (Interval.to i) = false ->
        Interval.Pro.fetchActiveWallets fuel key transfersUp
          (parseIntQ (Interval.from i)) (parseIntQ (Interval.to i))
        = Threw message log ->
        Interval.Pro.handler fuel key transfersUp i
        = Served 500 (ErrorBody message) log).
Proof.
  rewrite holders_handler_cases, traders_handler_cases,
    interval_handler_cases.
  repeat split.
  - intros M. now rewrite (missing_not_valid _ M).
  - intros M. now rewrite (missing_not_valid _ M).
  - intros [M|[M|M]].
    + rewrite (missing_not_valid _ M). eauto.
    + rewrite M. simpl. destruct (valid_token (Interval.token i)); eauto.
    + rewrite M, orb_true_r. destruct (valid_token (Interval.token i)); eauto.
  - intros m log V T. now rewrite V, T.
  - intros m log V T. now rewrite V, T.
  - intros m log V F T' T. now rewrite V, F, T', T.
Qed.

Lemma handler_error_responses_witness :
  Holders.Pro.handler (fun _ => NaN) 1 (Some "key") (@down _)
    {| Holders.token := None; Holders.limit := None;
       Holders.minAmount := None |}
  = Served 400 (ErrorBody "Token address is required.") []
  /\ (exists error,
        Interval.Pro.handler 1 (Some "key") (@down _)
          {| Interval.token := Some (QStr "mint");
             Interval.from := Some (QStr "100"); Interval.to := None |}
        = Served 400 (ErrorBody error) [])
  /\ Traders.Pro.handler (Some "key") (@down _)
       {| Traders.token := Some (QStr "mint"); Traders.limit := None |}
     = Served 500 (ErrorBody "Failed to fetch transfer data from Solscan.") [0].
Proof.
  pose proof
    (@handler_error_responses (fun _ => NaN) 1 (Some "key") (@down _)
       (@down _)
       {| Holders.token := None; Holders.limit := None;
          Holders.minAmount := None |}
       {| Traders.token := Some (QStr "mint"); Traders.limit := None |}
       {| Interval.token := Some (QStr "mint");
          Interval.from := Some (QStr "100"); Interval.to := None |})
    as [H400 [_ [I400 [_ [T500 _]]]]].
  split; [apply H400; reflexivity|].
  split; [apply I400; right; right; reflexivity|].
  apply T500; reflexivity.
Defined.

(** ** Termination *)

Lemma requested_finished (A : Type) offset (o : outcome A) :
  o <> OutOfFuel -> requested offset o <> OutOfFuel.
Proof. destruct o; simpl; congruence. Qed.

Lemma and_then_finished (A C : Type) (o : outcome A) (f : A -> C) :
  o <> OutOfFuel -> and_then o f <> OutOfFuel.
Proof. destruct o; simpl; congruence. Qed.

(** The Pro traders loop counts at least one transaction per
    iteration that goes on: it ends before its fuel does. *)
Lemma traders_pro_loop_total fuel up st offset :
  (Z.to_nat (Traders.Pro.maxTransactionsToProcess - snd st) < fuel)%nat ->
  paged "Failed to fetch transfer data from Solscan."
    TradersSkeleton.pro_guard TradersSkeleton.pro_step fuel up st offset
  <> OutOfFuel.
Proof.
  revert st offset.
  induction fuel as [|fuel IH]; intros st offset L; [lia|].
  rewrite paged_unfold. unfold TradersSkeleton.pro_guard.
  destruct (snd st <? Traders.Pro.maxTransactionsToProcess) eqn:G;
    [|discriminate].
  apply Z.ltb_lt in G.
  destruct (up offset) as [[r|]|]; try discriminate.
  unfold TradersSkeleton.pro_step.
  destruct (length (data r)) as [|n] eqn:E; simpl Nat.eqb; cbv iota;
    [discriminate|].
  destruct (negb (total r <=? snd st + Z.of_nat (S n))); [|discriminate].
  apply requested_finished, IH. simpl snd. lia.
Qed.

(** The public traders loop moves its offset by a page per iteration. *)
Lemma traders_public_loop_total fuel up st offset :
  (Z.to_nat (Traders.Public.maxTransactionsToProcess - offset + 49)
   < 50 * fuel)%nat ->
  paged "Failed to fetch transaction data from Solscan."
    TradersSkeleton.public_guard TradersSkeleton.public_step fuel up st offset
  <> OutOfFuel.
Proof.
  revert st offset.
  induction fuel as [|fuel IH]; intros st offset L; [lia|].
  rewrite paged_unfold. unfold TradersSkeleton.public_guard.
  destruct (offset <? Traders.Public.maxTransactionsToProcess) eqn:G;
    [|discriminate].
  apply Z.ltb_lt in G.
  destruct (up offset) as [b|]; [|discriminate].
  destruct (TradersSkeleton.public_step st offset b) as [st' [|]];
    [|discriminate].
  apply requested_finished, IH. unfold pageSize. lia.
Qed.

Lemma traders_pro_finishes key up limit :
  Traders.Pro.fetchTopTraders key up limit <> OutOfFuel.
Proof.
  unfold Traders.Pro.fetchTopTraders.
  destruct (key_missing key); [discriminate|].
  rewrite traders_pro_paged.
  apply and_then_finished, and_then_finished, traders_pro_loop_total.
  unfold Traders.Pro.iterations, Traders.Pro.maxTransactionsToProcess.
  simpl snd. lia.
Qed.

Lemma traders_public_finishes up limit :
  Traders.Public.fetchTopTraders up limit <> OutOfFuel.
Proof.
  unfold Traders.Public.fetchTopTraders.
  rewrite traders_public_paged.
  apply and_then_finished, traders_public_loop_total.
  unfold Traders.Public.iterations, Traders.Public.maxTransactionsToProcess.
  lia.
Qed.

(** The Pro interval loop ends at the latest on a last page. *)
Lemma interval_pro_loop_ends k up from to st offset :
  last_page up (offset + pageSize * Z.of_nat k) = true ->
  paged "Failed to fetch transfer data from Solscan."
    IntervalSkeleton.guard (IntervalSkeleton.pro_step from to)
    (S k) up st offset
  <> OutOfFuel.
Proof.
  revert st offset.
  induction k as [|k IH]; intros st offset L; rewrite paged_unfold;
    unfold IntervalSkeleton.guard.
  - replace (offset + pageSize * Z.of_nat 0) with offset in L by lia.
    unfold last_page in L. unfold IntervalSkeleton.pro_step.
    destruct (up offset) as [[r|]|]; try discriminate.
    destruct (length (data r) =? 0)%nat; [discriminate|].
    simpl in L. rewrite L.
    destruct (Interval.Pro.scan from to (data r) st). discriminate.
  - destruct (up offset) as [b|]; [|discriminate].
    destruct (IntervalSkeleton.pro_step from to st offset b) as [st' [|]];
      [|discriminate].
    apply requested_finished, IH.
    replace (offset + pageSize + pageSize * Z.of_nat k)
      with (offset + pageSize * Z.of_nat (S k)) by lia.
    exact L.
Qed.

(** The Pro holders loop ends at the latest on a last page. *)
Lemma holders_pro_loop_ends k up limit minAmount st offset :
  last_holders_page up (offset + pageSize * Z.of_nat k) = true ->
  paged "Failed to fetch holder data from Solscan."
    (HoldersSkeleton.guard limit) (HoldersSkeleton.pro_step limit minAmount)
    (S k) up st offset
  <> OutOfFuel.
Proof.
  revert st offset.
  induction k as [|k IH]; intros st offset L; rewrite paged_unfold;
    (destruct (HoldersSkeleton.guard limit st offset); [|discriminate]).
  - replace (offset + pageSize * Z.of_nat 0) with offset in L by lia.
    unfold last_holders_page in L. unfold HoldersSkeleton.pro_step.
    destruct (up offset) as [[r|]|]; try discriminate.
    destruct (length (Holders.Pro.data r) =? 0)%nat; [discriminate|].
    simpl in L. rewrite L, orb_true_r. discriminate.
  - destruct (up offset) as [b|]; [|discriminate].
    destruct (HoldersSkeleton.pro_step limit minAmount st offset b)
      as [st' [|]]; [|discriminate].
    apply requested_finished, IH.
    replace (offset + pageSize + pageSize * Z.of_nat k)
      with (offset + pageSize * Z.of_nat (S k)) by lia.
    exact L.
Qed.

(** So the Pro endpoints that scan without a cap of their own return
    or throw once the upstream has a last page. *)
Lemma uncapped_scans_finish k key holdersUp transfersUp limit minAmount
    from to fuel :
  (k < fuel)%nat ->
  (last_holders_page holdersUp (pageSize * Z.of_nat k) = true ->
   Holders.Pro.fetchHolders fuel key holdersUp limit minAmount <> OutOfFuel)
  /\ (last_page transfersUp (pageSize * Z.of_nat k) = true ->
      Interval.Pro.fetchActiveWallets fuel key transfersUp from to
      <> OutOfFuel).
Proof.
  intros F.
  unfold Holders.Pro.fetchHolders, Interval.Pro.fetchActiveWallets.
  destruct (key_missing key); [split; discriminate|].
  rewrite holders_pro_paged, interval_pro_paged.
  split; intros L; apply and_then_finished;
    rewrite (@paged_fuel_mono _ _ _ _ _ (S k)); try lia.
  - now apply holders_pro_loop_ends.
  - now apply holders_pro_loop_ends.
  - now apply interval_pro_loop_ends.
  - now apply interval_pro_loop_ends.
Qed.

(** With every request served, a loop does not throw. *)
Lemma paged_served (B St : Type) message guard step fuel
    (up : Upstream B) (st : St) offset m log :
  (forall o, up o <> Reject) ->
  paged message guard step fuel up st offset <> Threw m log.
Proof.
  intros N H. apply paged_threw in H.
  destruct H as [_ [l [o [_ [_ [R _]]]]]]. now apply (N o).
Qed.

(** ** Unparseable numbers *)

Lemma interval_pro_scan_NaN from to txs activeWallets :
  from = NaN \/ to = NaN ->
  fst (Interval.Pro.scan from to txs activeWallets) = activeWallets.
Proof.
  intros H. revert activeWallets.
  induction txs as [|tx txs IH]; intros activeWallets; simpl; [reflexivity|].
  destruct (lt (Transaction.blockTime tx) from); [reflexivity|].
  replace (le (Transaction.blockTime tx) to && ge (Transaction.blockTime tx) from)
    with false; [apply IH|].
  destruct H; subst; simpl; [now rewrite andb_false_r | reflexivity].
Qed.

Lemma interval_pro_run_NaN from to up st offset log st' :
  from = NaN \/ to = NaN ->
  run IntervalSkeleton.guard (IntervalSkeleton.pro_step from to)
    up st offset log st' ->
  st' = st.
Proof.
  intros H.
  assert (T : forall st offset b st' c,
             IntervalSkeleton.pro_step from to st offset b = (st', c) ->
             st' = st).
  { clear - H. intros st offset b st' c. unfold IntervalSkeleton.pro_step.
    destruct b as [r|]; [|congruence].
    destruct (length (data r) =? 0)%nat; [congruence|].
    pose proof (interval_pro_scan_NaN (data r) st H) as F.
    destruct (Interval.Pro.scan from to (data r) st); simpl in F.
    congruence. }
  induction 1 as [| st offset b st' G U E | st offset b st1 log st' G U E R IH].
  - reflexivity.
  - eapply T; eassumption.
  - apply T in E. congruence.
Qed.

Lemma interval_pro_NaN_empty k key up from to :
  key_missing key = false ->
  from = NaN \/ to = NaN ->
  (forall o, up o <> Reject) ->
  last_page up (pageSize * Z.of_nat k) = true ->
  exists log, forall fuel,
    (k < fuel)%nat ->
    Interval.Pro.fetchActiveWallets fuel key up from to = Returned [] log.
Proof.
  intros K H N L.
  unfold Interval.Pro.fetchActiveWallets. rewrite K.
  pose proof (@interval_pro_loop_ends k up from to [] 0 L) as F.
  destruct (paged "Failed to fetch transfer data from Solscan."
              IntervalSkeleton.guard (IntervalSkeleton.pro_step from to)
              (S k) up [] 0) as [st log|m log|] eqn:P.
  - exists log. intros fuel Hf.
    rewrite interval_pro_paged, (@paged_fuel_mono _ _ _ _ _ (S k)), P;
      [| lia | congruence].
    apply paged_run, (interval_pro_run_NaN H) in P. subst st. reflexivity.
  - exfalso. eapply paged_served; eassumption.
  - now contradiction F.
Qed.

(** C10. A numeric query parameter that is present but that [parseInt]
    reads as [NaN] is not answered with status 400.  With the key
    configured and the upstream serving every request, the answer is
    status 200 with an empty array: for the holders without any
    upstream request, for the traders after the scan, and for the
    interval (with either bound unparseable) as soon as the scan has
    reached a last page. *)
Theorem unparseable_number_answers_empty
    (parseFloat : string -> number Q) (key : option string)
    (token : string) (bad : qvalue) (minAmount other : option qvalue)
    (holdersUp : Upstream Holders.Pro.SolscanResponse)
    (transfersUp : Upstream SolscanTransferResponse) (k : nat) :
  key_missing key = false ->
  truthy token = true ->
  parseInt (ToString bad) = NaN ->
  missing (Some bad) = false ->
  missing other = false ->
  (forall o, transfersUp o <> Reject) ->
  last_page transfersUp (pageSize * Z.of_nat k) = true ->
  (forall fuel,
     Holders.Pro.handler parseFloat (S fuel) key holdersUp
       {| Holders.token := Some (QStr token); Holders.limit := Some bad;
          Holders.minAmount := minAmount |}
     = Served 200 (Rows []) [])
  /\ (exists log,
        Traders.Pro.handler key transfersUp
          {| Traders.token := Some (QStr token); Traders.limit := Some bad |}
        = Served 200 (Rows []) log)
  /\ (exists log, forall fuel,
        (k < fuel)%nat ->
        Interval.Pro.handler fuel key transfersUp
          {| Interval.token := Some (QStr token); Interval.from := Some bad;
             Interval.to := other |}
        = Served 200 (Rows []) log)
  /\ (exists log, forall fuel,
        (k < fuel)%nat ->
        Interval.Pro.handler fuel key transfersUp
          {| Interval.token := Some (QStr token); Interval.from := other;
             Interval.to := Some bad |}
        = Served 200 (Rows []) log).
Proof.
  intros K T P Mb Mo N L.
  rewrite traders_handler_cases.
  split; [|split; [|split]].
  - intros fuel. rewrite holders_handler_cases.
    cbn [Holders.token Holders.limit valid_token with_default].
    rewrite T, P.
    unfold Holders.Pro.fetchHolders. rewrite K. reflexivity.
  - cbn [Traders.token Traders.limit valid_token with_default].
    rewrite T, P.
    pose proof (@traders_pro_finishes key transfersUp NaN) as F.
    unfold Traders.Pro.fetchTopTraders in *. rewrite K in *.
    rewrite traders_pro_paged in *.
    match goal with
    | |- context [paged ?m ?g ?s ?f ?u ?st ?o] =>
        destruct (paged m g s f u st o) as [st' log|m' log|] eqn:E
    end.
    + exists log. unfold and_then, respond. now rewrite slice0_NaN.
    + exfalso. eapply paged_served; eassumption.
    + now contradiction F.
  - destruct (@interval_pro_NaN_empty k key transfersUp
                (parseInt (ToString bad)) (parseIntQ other) K
                (or_introl P) N L) as [log H].
    exists log. intros fuel Hf. rewrite interval_handler_cases.
    cbn [Interval.token Interval.from Interval.to valid_token].
    rewrite T, Mo, Mb. cbn [orb parseIntQ].
    now rewrite (H fuel Hf).
  - destruct (@interval_pro_NaN_empty k key transfersUp
                (parseIntQ other) (parseInt (ToString bad)) K
                (or_intror P) N L) as [log H].
    exists log. intros fuel Hf. rewrite interval_handler_cases.
    cbn [Interval.token Interval.from Interval.to valid_token].
    rewrite T, Mo, Mb. cbn [orb parseIntQ].
    now rewrite (H fuel Hf).
Qed.

Lemma one_page_served (B : Type) (b : B) o : one_page b o <> Reject.
Proof. unfold one_page. destruct (o =? 0); discriminate. Qed.

Lemma unparseable_number_answers_empty_witness :
  (forall fuel,
     Holders.Pro.handler (fun _ => Num 0%Q) (S fuel) (Some "key")
       example_holders
       {| Holders.token := Some (QStr "mint");
          Holders.limit := Some (QStr "abc"); Holders.minAmount := None |}
     = Served 200 (Rows []) [])
  /\ (exists log,
        Traders.Pro.handler (Some "key") example_transfers
          {| Traders.token := Some (QStr "mint");
             Traders.limit := Some (QStr "abc") |}
        = Served 200 (Rows []) log)
  /\ (exists log, forall fuel,
        (0 < fuel)%nat ->
        Interval.Pro.handler fuel (Some "key") example_transfers
          {| Interval.token := Some (QStr "mint");
             Interval.from := Some (QStr "abc");
             Interval.to := Some (QStr "150") |}
        = Served 200 (Rows []) log)
  /\ (exists log, forall fuel,
        (0 < fuel)%nat ->
        Interval.Pro.handler fuel (Some "key") example_transfers
          {| Interval.token := Some (QStr "mint");
             Interval.from := Some (QStr "150");
             Interval.to := Some (QStr "abc") |}
        = Served 200 (Rows []) log).
Proof.
  apply (@unparseable_number_answers_empty (fun _ => Num 0%Q) (Some "key")
           "mint" (QStr "abc") None (Some (QStr "150")) example_holders
           example_transfers 0);
    try reflexivity.
  intros o. apply one_page_served.
Defined.

(** ** Holders *)

Lemma qualifying_app minAmount l l' :
  Holders.qualifying minAmount (l ++ l') =
  Holders.qualifying minAmount l ++ Holders.qualifying minAmount l'.
Proof. unfold Holders.qualifying. now rewrite filter_app, map_app. Qed.

Lemma qualifying_amount minAmount l :
  Forall (fun r => geQ (HolderRow.amount r) minAmount = true)
    (Holders.qualifying minAmount l).
Proof.
  unfold Holders.qualifying. apply Forall_forall. intros r H.
  apply in_map_iff in H. destruct H as [h [E H]]. subst r.
  apply filter_In in H. exact (proj2 H).
Qed.

Lemma qualifying_length minAmount l :
  length (Holders.qualifying minAmount l) =
  length (filter (fun h => geQ (Holder.uiAmount h) minAmount) l).
Proof. unfold Holders.qualifying. apply length_map. Qed.

Lemma length_zero_nil (A : Type) (l : list A) :
  (length l =? 0)%nat = true -> l = [].
Proof. destruct l; [reflexivity | discriminate]. Qed.

Lemma holders_pro_step limit minAmount up st offset b st' c :
  up offset = Resp b ->
  HoldersSkeleton.pro_step limit minAmount st offset b = (st', c) ->
  st' = st ++ Holders.qualifying minAmount (page Holders.Pro.data up offset).
Proof.
  intros U. unfold HoldersSkeleton.pro_step, page. rewrite U.
  destruct b as [r|]; [|intros E; inversion E; now rewrite app_nil_r].
  destruct (length (Holders.Pro.data r) =? 0)%nat eqn:L; intros E;
    inversion E; [|reflexivity].
  apply length_zero_nil in L. rewrite L. now rewrite app_nil_r.
Qed.

Lemma holders_public_step limit minAmount up st offset b st' c :
  up offset = Resp b ->
  HoldersSkeleton.public_step limit minAmount st offset b = (st', c) ->
  st' = st ++ Holders.qualifying minAmount (page (@items _) up offset).
Proof.
  intros U. unfold HoldersSkeleton.public_step, page, items. rewrite U.
  destruct b as [r|]; [|intros E; inversion E; now rewrite app_nil_r].
  destruct (length r =? 0)%nat eqn:L; intros E; inversion E; [|reflexivity].
  apply length_zero_nil in L. rewrite L. now rewrite app_nil_r.
Qed.

(** The list a run leaves holds the qualifying records of the pages it
    fetched, in upstream order. *)
Lemma holders_pro_run limit minAmount up st offset log st' :
  run (HoldersSkeleton.guard limit) (HoldersSkeleton.pro_step limit minAmount)
    up st offset log st' ->
  st' = st ++ Holders.qualifying minAmount (fetched Holders.Pro.data up log).
Proof.
  induction 1 as [| st offset b st' G U E | st offset b st1 log st' G U E R IH];
    unfold fetched; simpl.
  - now rewrite app_nil_r.
  - rewrite app_nil_r. eapply holders_pro_step; eassumption.
  - rewrite qualifying_app, app_assoc.
    eapply holders_pro_step in E; [|exact U]. rewrite <- E. exact IH.
Qed.

Lemma holders_public_run limit minAmount up st offset log st' :
  run (HoldersSkeleton.guard limit)
    (HoldersSkeleton.public_step limit minAmount) up st offset log st' ->
  st' = st ++ Holders.qualifying minAmount (fetched (@items _) up log).
Proof.
  induction 1 as [| st offset b st' G U E | st offset b st1 log st' G U E R IH];
    unfold fetched; simpl.
  - now rewrite app_nil_r.
  - rewrite app_nil_r. eapply holders_public_step; eassumption.
  - rewrite qualifying_app, app_assoc.
    eapply holders_public_step in E; [|exact U]. rewrite <- E. exact IH.
Qed.

Lemma and_then_returned (A C : Type) (o : outcome A) (f : A -> C) v log :
  and_then o f = Returned v log ->
  exists st, o = Returned st log /\ v = f st.
Proof.
  destruct o; simpl; intros H; inversion H; eauto.
Qed.

(** The rows of the holders endpoints: the qualifying records of the
    fetched pages, cut at the limit. *)
Lemma holders_pro_rows fuel key up limit minAmount rows log :
  Holders.Pro.fetchHolders fuel key up limit minAmount = Returned rows log ->
  rows = slice0 (Holders.qualifying minAmount
                   (fetched Holders.Pro.data up log)) limit.
Proof.
  unfold Holders.Pro.fetchHolders.
  destruct (key_missing key); [discriminate|].
  intros H. apply and_then_returned in H. destruct H as [st [H E]].
  rewrite holders_pro_paged in H.
  apply paged_run, holders_pro_run in H. now subst.
Qed.

Lemma holders_public_rows fuel up limit minAmount rows log :
  Holders.Public.fetchHolders fuel up limit minAmount = Returned rows log ->
  rows = slice0 (Holders.qualifying minAmount
                   (fetched (@items _) up log)) limit.
Proof.
  unfold Holders.Public.fetchHolders.
  intros H. apply and_then_returned in H. destruct H as [st [H E]].
  rewrite holders_public_paged in H.
  apply paged_run, holders_public_run in H. now subst.
Qed.

Lemma Forall_slice0 (A : Type) (P : A -> Prop) (l : list A) e :
  Forall P l -> Forall P (slice0 l e).
Proof.
  intros H. apply Forall_forall. intros x Hx.
  apply slice0_incl in Hx. revert x Hx. now apply Forall_forall.
Qed.

(** With a limit that is not positive, or not a number, the loop of
    the holders does not run. *)
Lemma holders_pro_no_scan fuel up limit minAmount holders log :
  lt 0 limit = false ->
  Holders.Pro.loop fuel up limit minAmount [] 0 = Returned holders log ->
  holders = [] /\ log = [].
Proof.
  intros G. destruct fuel as [|fuel]; [discriminate|].
  cbn [Holders.Pro.loop length Z.of_nat]. rewrite G.
  intros H. inversion H. now split.
Qed.

Lemma holders_public_no_scan fuel up limit minAmount holders log :
  lt 0 limit = false ->
  Holders.Public.loop fuel up limit minAmount [] 0 = Returned holders log ->
  holders = [] /\ log = [].
Proof.
  intros G. destruct fuel as [|fuel]; [discriminate|].
  cbn [Holders.Public.loop length Z.of_nat]. rewrite G.
  intros H. inversion H. now split.
Qed.

Lemma holders_rows_count (rows all : list HolderRow.t) limit n :
  rows = slice0 all limit ->
  Z.of_nat (length all) = n ->
  (lt 0 limit = false -> all = []) ->
  Z.of_nat (length rows)
  = match limit with
    | Num l => Z.max 0 (Z.min l n)
    | NaN => 0
    end.
Proof.
  intros -> <- N. destruct limit as [|l].
  - rewrite (N eq_refl). reflexivity.
  - destruct (0 <? l) eqn:G.
    + apply Z.ltb_lt in G. rewrite slice0_length_nonneg by lia. lia.
    + rewrite (N G). rewrite slice0_nil. simpl.
      apply Z.ltb_ge in G. lia.
Qed.

(** C3, as the code has it.  Every row the holder aggregation emits
    has [amount >= minAmount].  The number of rows is the minimum of
    the limit and of the number of records with
    [uiAmount >= minAmount] in the pages fetched before the loop
    stopped when the limit is not negative, and 0 when the limit is
    negative or not a number: the loop then fetches no page. *)
Theorem holders_rows_qualify
    (fuel : nat) (key : option string)
    (up : Upstream Holders.Pro.SolscanResponse)
    (publicUp : Upstream (list Holder.t))
    (limit : number Z) (minAmount : number Q) :
  (forall rows log,
     Holders.Pro.fetchHolders fuel key up limit minAmount
     = Returned rows log ->
     let n :=
       Z.of_nat
         (length (filter (fun h => geQ (Holder.uiAmount h) minAmount)
                    (fetched Holders.Pro.data up log))) in
     Forall (fun r => geQ (HolderRow.amount r) minAmount = true) rows
     /\ Z.of_nat (length rows)
        = match limit with
          | Num l => Z.max 0 (Z.min l n)
          | NaN => 0
          end
     /\ (lt 0 limit = false -> log = []))
  /\ (forall rows log,
        Holders.Public.fetchHolders fuel publicUp limit minAmount
        = Returned rows log ->
        let n :=
          Z.of_nat
            (length (filter (fun h => geQ (Holder.uiAmount h) minAmount)
                       (fetched (@items _) publicUp log))) in
        Forall (fun r => geQ (HolderRow.amount r) minAmount = true) rows
        /\ Z.of_nat (length rows)
           = match limit with
             | Num l => Z.max 0 (Z.min l n)
             | NaN => 0
             end
        /\ (lt 0 limit = false -> log = [])).
Proof.
  split; intros rows log H n.
  - assert (E : lt 0 limit = false -> log = []).
    { intros G. revert H. unfold Holders.Pro.fetchHolders.
      destruct (key_missing key); [discriminate|].
      intros H. apply and_then_returned in H. destruct H as [st [H _]].
      now apply holders_pro_no_scan in H. }
    apply holders_pro_rows in H.
    split; [subst rows; apply Forall_slice0, qualifying_amount|].
    split; [|exact E].
    eapply holders_rows_count; [exact H| |].
    + rewrite qualifying_length. reflexivity.
    + intros G. now rewrite (E G).
  - assert (E : lt 0 limit = false -> log = []).
    { intros G. revert H. unfold Holders.Public.fetchHolders.
      intros H. apply and_then_returned in H. destruct H as [st [H _]].
      now apply holders_public_no_scan in H. }
    apply holders_public_rows in H.
    split; [subst rows; apply Forall_slice0, qualifying_amount|].
    split; [|exact E].
    eapply holders_rows_count; [exact H| |].
    + rewrite qualifying_length. reflexivity.
    + intros G. now rewrite (E G).
Qed.

Lemma holders_rows_qualify_witness :
  let rows := [ {| HolderRow.wallet := "A"; HolderRow.amount := 50 |} ] in
  Forall (fun r => geQ (HolderRow.amount r) (Num 10%Q) = true) rows
  /\ Z.of_nat (length rows)
     = Z.max 0
         (Z.min 10
            (Z.of_nat
               (length (filter (fun h => geQ (Holder.uiAmount h) (Num 10%Q))
                          (fetched Holders.Pro.data example_holders [0]))))).
Proof.
  intros rows.
  destruct (proj1 (@holders_rows_qualify 2 (Some "key") example_holders
                     (@nothing _) (Num 10) (Num 10%Q)) rows [0] eq_refl)
    as [F [L _]].
  split; [exact F | exact L].
Defined.

(** C3 as stated fails for a negative limit: with the limit -1 the
    loop fetches no page and the result is empty, while the minimum of
    the limit and of the number of qualifying records fetched, 0, is
    -1. *)
Lemma holders_negative_limit_count :
  exists rows log,
    Holders.Pro.fetchHolders 2 (Some "key") example_holders (Num (-1))
      (Num 10%Q)
    = Returned rows log
    /\ Holders.Public.fetchHolders 2 example_public_holders (Num (-1))
         (Num 10%Q)
       = Returned rows log
    /\ Z.of_nat (length rows)
       <> Z.min (-1)
            (Z.of_nat
               (length (filter (fun h => geQ (Holder.uiAmount h) (Num 10%Q))
                          (fetched Holders.Pro.data example_holders log))))
    /\ Z.of_nat (length rows)
       <> Z.min (-1)
            (Z.of_nat
               (length (filter (fun h => geQ (Holder.uiAmount h) (Num 10%Q))
                          (fetched (@items _) example_public_holders log)))).
Proof.
  exists [], []. split; [reflexivity|]. split; [reflexivity|].
  split; vm_compute; discriminate.
Qed.

(** ** Failure of a page fetch *)

Lemma log_of_and_then (A C : Type) (o : outcome A) (f : A -> C) :
  log_of (and_then o f) = log_of o.
Proof. destruct o; reflexivity. Qed.

(** A run that requested a page the upstream rejected threw the loop's
    message at that request, its last; the requests were for
    consecutive pages, each made once. *)
Lemma paged_aborts (B St : Type) message guard step fuel
    (up : Upstream B) (st : St) offset o :
  In o (log_of (paged message guard step fuel up st offset)) ->
  up o = Reject ->
  exists l,
    paged message guard step fuel up st offset = Threw message (l ++ [o])
    /\ l ++ [o] = offsets offset (S (length l)).
Proof.
  destruct (paged message guard step fuel up st offset)
    as [st' log|m log|] eqn:P; simpl; intros I R.
  - apply paged_run, run_served in P.
    rewrite Forall_forall in P. now contradiction (P o I).
  - apply paged_threw in P.
    destruct P as [Hm [l [o' [E [F [R' O]]]]]]. subst m log.
    apply in_app_or in I. destruct I as [I|[I|[]]].
    + rewrite Forall_forall in F. now contradiction (F o I).
    + subst o'. exists l. split; [reflexivity|].
      rewrite O at 1. rewrite length_app. simpl.
      now rewrite Nat.add_1_r.
  - contradiction.
Qed.

Lemma respond_aborted (A : Type) (o : outcome (list A)) message log :
  o = Threw message log ->
  respond o = Served 500 (ErrorBody message) log.
Proof. intros ->. reflexivity. Qed.

Lemma served_log_respond (A : Type) (o : outcome (list A)) :
  served_log (respond o) = log_of o.
Proof. destruct o; reflexivity. Qed.

Lemma and_then_threw (A C : Type) (o : outcome A) (f : A -> C) m log :
  o = Threw m log -> and_then o f = Threw m log.
Proof. intros ->. reflexivity. Qed.

(** C6. If a page fetch of an aggregation fails, the handler answers
    with status 500 and the generic failed-to-fetch error as body, so
    without any row accumulated from earlier pages; the failed request
    is the last one made, and every offset was requested once. *)
Theorem failed_fetch_aborts
    (parseFloat : string -> number Q) (fuel : nat) (key : option string)
    (holdersUp : Upstream Holders.Pro.SolscanResponse)
    (transfersUp : Upstream SolscanTransferResponse)
    (h : Holders.Query) (t : Traders.Query) (i : Interval.Query) (o : Z) :
  (In o (served_log (Holders.Pro.handler parseFloat fuel key holdersUp h)) ->
   holdersUp o = Reject ->
   exists l,
     Holders.Pro.handler parseFloat fuel key holdersUp h
     = Served 500 (ErrorBody "Failed to fetch holder data from Solscan.")
         (l ++ [o])
     /\ l ++ [o] = offsets 0 (S (length l)))
  /\ (In o (served_log (Traders.Pro.handler key transfersUp t)) ->
      transfersUp o = Reject ->
      exists l,
        Traders.Pro.handler key transfersUp t
        = Served 500 (ErrorBody "Failed to fetch transfer data from Solscan.")
            (l ++ [o])
        /\ l ++ [o] = offsets 0 (S (length l)))
  /\ (In o (served_log (Interval.Pro.handler fuel key transfersUp i)) ->
      transfersUp o = Reject ->
      exists l,
        Interval.Pro.handler fuel key transfersUp i
        = Served 500 (ErrorBody "Failed to fetch transfer data from Solscan.")
            (l ++ [o])
        /\ l ++ [o] = offsets 0 (S (length l))).
Proof.
  rewrite holders_handler_cases, traders_handler_cases,
    interval_handler_cases.
  unfold Holders.Pro.fetchHolders, Traders.Pro.fetchTopTraders,
    Interval.Pro.fetchActiveWallets.
  rewrite holders_pro_paged, traders_pro_paged, interval_pro_paged.
  split; [|split].
  - destruct (valid_token (Holders.token h)); [|contradiction].
    destruct (key_missing key); [contradiction|].
    rewrite served_log_respond, log_of_and_then. intros I R.
    destruct (@paged_aborts _ _ _ _ _ _ _ _ _ _ I R) as [l [E O]].
    exists l. split; [|exact O].
    apply respond_aborted, and_then_threw, E.
  - destruct (valid_token (Traders.token t)); [|contradiction].
    destruct (key_missing key); [contradiction|].
    rewrite served_log_respond, !log_of_and_then. intros I R.
    destruct (@paged_aborts _ _ _ _ _ _ _ _ _ _ I R) as [l [E O]].
    exists l. split; [|exact O].
    apply respond_aborted, and_then_threw, and_then_threw, E.
  - destruct (valid_token (Interval.token i)); [|contradiction].
    destruct (missing (Interval.from i) || missing (Interval.to i));
      [contradiction|].
    destruct (key_missing key); [contradiction|].
    rewrite served_log_respond, log_of_and_then. intros I R.
    destruct (@paged_aborts _ _ _ _ _ _ _ _ _ _ I R) as [l [E O]].
    exists l. split; [|exact O].
    apply respond_aborted, and_then_threw, E.
Qed.

Lemma failed_fetch_aborts_witness :
  (exists l,
     Holders.Pro.handler (fun _ => Num 0%Q) 5 (Some "key")
       (first_page_only busy_holders)
       {| Holders.token := Some (QStr "mint"); Holders.limit := None;
          Holders.minAmount := None |}
     = Served 500 (ErrorBody "Failed to fetch holder data from Solscan.")
         (l ++ [50])
     /\ l ++ [50] = offsets 0 (S (length l)))
  /\ (exists l,
        Traders.Pro.handler (Some "key") (first_page_only busy_transfers)
          {| Traders.token := Some (QStr "mint"); Traders.limit := None |}
        = Served 500 (ErrorBody "Failed to fetch transfer data from Solscan.")
            (l ++ [50])
        /\ l ++ [50] = offsets 0 (S (length l)))
  /\ (exists l,
        Interval.Pro.handler 5 (Some "key") (first_page_only busy_transfers)
          {| Interval.token := Some (QStr "mint");
             Interval.from := Some (QStr "100");
             Interval.to := Some (QStr "150") |}
        = Served 500 (ErrorBody "Failed to fetch transfer data from Solscan.")
            (l ++ [50])
        /\ l ++ [50] = offsets 0 (S (length l))).
Proof.
  pose proof
    (@failed_fetch_aborts (fun _ => Num 0%Q) 5 (Some "key")
       (first_page_only busy_holders) (first_page_only busy_transfers)
       {| Holders.token := Some (QStr "mint"); Holders.limit := None;
          Holders.minAmount := None |}
       {| Traders.token := Some (QStr "mint"); Traders.limit := None |}
       {| Interval.token := Some (QStr "mint");
          Interval.from := Some (QStr "100");
          Interval.to := Some (QStr "150") |} 50)
    as [H [T I]].
  split; [|split]; [apply H | apply T | apply I];
    solve [vm_compute; tauto | vm_compute; reflexivity].
Defined.

(** ** Determinism *)

(** Two runs of a loop against upstreams that serve the same pages at
    the offsets the first run requested end alike, whatever fuel each
    had, provided it was enough. *)
Lemma paged_deterministic (B St : Type) message guard step fuel1 fuel2
    (up1 up2 : Upstream B) (st : St) offset :
  (forall o,
     In o (log_of (paged message guard step fuel1 up1 st offset)) ->
     up1 o = up2 o) ->
  paged message guard step fuel1 up1 st offset <> OutOfFuel ->
  paged message guard step fuel2 up2 st offset <> OutOfFuel ->
  paged message guard step fuel2 up2 st offset
  = paged message guard step fuel1 up1 st offset.
Proof.
  intros A F1 F2.
  rewrite <- (@paged_fuel_mono _ _ message guard step fuel2
                (Nat.max fuel1 fuel2) up2 st offset) by (lia || exact F2).
  assert (M : paged message guard step (Nat.max fuel1 fuel2) up1 st offset
              = paged message guard step fuel1 up1 st offset)
    by (apply paged_fuel_mono; [lia | exact F1]).
  rewrite <- M. apply paged_ext; rewrite M; assumption.
Qed.

Lemma and_then_finished_inv (A C : Type) (o : outcome A) (f : A -> C) :
  and_then o f <> OutOfFuel -> o <> OutOfFuel.
Proof. destruct o; simpl; congruence. Qed.

Ltac by_paged_deterministic :=
  intros A F1 F2;
  repeat rewrite log_of_and_then in A;
  repeat apply and_then_finished_inv in F1;
  repeat apply and_then_finished_inv in F2;
  rewrite (@paged_deterministic _ _ _ _ _ _ _ _ _ _ _ A F1 F2); reflexivity.

(** C8. Every aggregation is deterministic: two runs with the same
    parameters, against upstreams that serve the same pages at the
    offsets requested, return the same rows in the same order with the
    same field values (or throw the same error), however many
    iterations each was allowed beyond those it needed. *)
Theorem aggregation_deterministic
    (fuel1 fuel2 : nat) (key : option string)
    (holdersUp1 holdersUp2 : Upstream Holders.Pro.SolscanResponse)
    (transfersUp1 transfersUp2 : Upstream SolscanTransferResponse)
    (publicHoldersUp1 publicHoldersUp2 : Upstream (list Holder.t))
    (publicTxUp1 publicTxUp2 : Upstream (list PublicTx.t))
    (limit from to : number Z) (minAmount : number Q) :
  ((forall o,
      In o (log_of (Holders.Pro.fetchHolders fuel1 key holdersUp1 limit
                      minAmount)) ->
      holdersUp1 o = holdersUp2 o) ->
   Holders.Pro.fetchHolders fuel1 key holdersUp1 limit minAmount <> OutOfFuel ->
   Holders.Pro.fetchHolders fuel2 key holdersUp2 limit minAmount <> OutOfFuel ->
   Holders.Pro.fetchHolders fuel2 key holdersUp2 limit minAmount
   = Holders.Pro.fetchHolders fuel1 key holdersUp1 limit minAmount)
  /\ ((forall o,
         In o (log_of (Traders.Pro.fetchTopTraders key transfersUp1 limit)) ->
         transfersUp1 o = transfersUp2 o) ->
      Traders.Pro.fetchTopTraders key transfersUp2 limit
      = Traders.Pro.fetchTopTraders key transfersUp1 limit)
  /\ ((forall o,
         In o (log_of (Interval.Pro.fetchActiveWallets fuel1 key transfersUp1
                         from to)) ->
         transfersUp1 o = transfersUp2 o) ->
      Interval.Pro.fetchActiveWallets fuel1 key transfersUp1 from to
      <> OutOfFuel ->
      Interval.Pro.fetchActiveWallets fuel2 key transfersUp2 from to
      <> OutOfFuel ->
      Interval.Pro.fetchActiveWallets fuel2 key transfersUp2 from to
      = Interval.Pro.fetchActiveWallets fuel1 key transfersUp1 from to)
  /\ ((forall o,
         In o (log_of (Holders.Public.fetchHolders fuel1 publicHoldersUp1
                         limit minAmount)) ->
         publicHoldersUp1 o = publicHoldersUp2 o) ->
      Holders.Public.fetchHolders fuel1 publicHoldersUp1 limit minAmount
      <> OutOfFuel ->
      Holders.Public.fetchHolders fuel2 publicHoldersUp2 limit minAmount
      <> OutOfFuel ->
      Holders.Public.fetchHolders fuel2 publicHoldersUp2 limit minAmount
      = Holders.Public.fetchHolders fuel1 publicHoldersUp1 limit minAmount)
  /\ ((forall o,
         In o (log_of (Traders.Public.fetchTopTraders publicTxUp1 limit)) ->
         publicTxUp1 o = publicTxUp2 o) ->
      Traders.Public.fetchTopTraders publicTxUp2 limit
      = Traders.Public.fetchTopTraders publicTxUp1 limit)
  /\ ((forall o,
         In o (log_of (Interval.Public.fetchActiveWallets fuel1 publicTxUp1
                         from to)) ->
         publicTxUp1 o = publicTxUp2 o) ->
      Interval.Public.fetchActiveWallets fuel1 publicTxUp1 from to
      <> OutOfFuel ->
      Interval.Public.fetchActiveWallets fuel2 publicTxUp2 from to
      <> OutOfFuel ->
      Interval.Public.fetchActiveWallets fuel2 publicTxUp2 from to
      = Interval.Public.fetchActiveWallets fuel1 publicTxUp1 from to).
Proof.
  pose proof (@traders_pro_finishes key transfersUp1 limit) as TP1.
  pose proof (@traders_pro_finishes key transfersUp2 limit) as TP2.
  pose proof (@traders_public_finishes publicTxUp1 limit) as TQ1.
  pose proof (@traders_public_finishes publicTxUp2 limit) as TQ2.
  revert TP1 TP2 TQ1 TQ2.
  unfold Holders.Pro.fetchHolders, Traders.Pro.fetchTopTraders,
    Interval.Pro.fetchActiveWallets, Holders.Public.fetchHolders,
    Traders.Public.fetchTopTraders, Interval.Public.fetchActiveWallets.
  rewrite !holders_pro_paged, !traders_pro_paged, !interval_pro_paged,
    !holders_public_paged, !traders_public_paged, !interval_public_paged.
  intros TP1 TP2 TQ1 TQ2.
  destruct (key_missing key).
  - repeat split; try reflexivity; try by_paged_deterministic.
    intros A. revert A TQ1 TQ2. by_paged_deterministic.
  - repeat split; try by_paged_deterministic.
    + intros A. revert A TP1 TP2. by_paged_deterministic.
    + intros A. revert A TQ1 TQ2. by_paged_deterministic.
Qed.

Ltac same_first_page :=
  let o := fresh "o" in
  let H := fresh "H" in
  intros o H; vm_compute in H; destruct H as [<-|[]]; reflexivity.

Lemma aggregation_deterministic_witness :
  Holders.Pro.fetchHolders 5 (Some "key") (first_page_only example_holders)
    (Num 10) (Num 10%Q)
  = Holders.Pro.fetchHolders 2 (Some "key") example_holders (Num 10)
      (Num 10%Q)
  /\ Traders.Pro.fetchTopTraders (Some "key")
       (first_page_only example_transfers) (Num 10)
     = Traders.Pro.fetchTopTraders (Some "key") example_transfers (Num 10)
  /\ Interval.Pro.fetchActiveWallets 5 (Some "key")
       (first_page_only example_window) (Num 100) (Num 150)
     = Interval.Pro.fetchActiveWallets 2 (Some "key") example_window
         (Num 100) (Num 150)
  /\ Holders.Public.fetchHolders 5 (first_page_only example_public_holders)
       (Num 10) (Num 10%Q)
     = Holders.Public.fetchHolders 2 example_public_holders (Num 10)
         (Num 10%Q)
  /\ Traders.Public.fetchTopTraders (first_page_only example_public_tx)
       (Num 10)
     = Traders.Public.fetchTopTraders example_public_tx (Num 10)
  /\ Interval.Public.fetchActiveWallets 5 (first_page_only example_public_tx)
       (Num 100) (Num 150)
     = Interval.Public.fetchActiveWallets 2 example_public_tx (Num 100)
         (Num 150).
Proof.
  pose proof
    (@aggregation_deterministic 2 5 (Some "key")
       example_holders (first_page_only example_holders)
       example_transfers (first_page_only example_transfers)
       example_public_holders (first_page_only example_public_holders)
       example_public_tx (first_page_only example_public_tx)
       (Num 10) (Num 100) (Num 150) (Num 10%Q))
    as [H1 [H2 [_ [H4 [H5 H6]]]]].
  pose proof
    (@aggregation_deterministic 2 5 (Some "key")
       example_holders (first_page_only example_holders)
       example_window (first_page_only example_window)
       example_public_holders (first_page_only example_public_holders)
       example_public_tx (first_page_only example_public_tx)
       (Num 10) (Num 100) (Num 150) (Num 10%Q))
    as [_ [_ [H3 _]]].
  split; [apply H1|split; [apply H2|split; [apply H3|split;
    [apply H4|split; [apply H5|apply H6]]]]];
    solve [same_first_page | vm_compute; discriminate].
Defined.

(** ** How much is scanned *)

Lemma fetched_cons (B R : Type) (content : B -> list R) up o log :
  fetched content up (o :: log) = page content up o ++ fetched content up log.
Proof. reflexivity. Qed.

Lemma fetched_app (B R : Type) (content : B -> list R) up l l' :
  fetched content up (l ++ l') = fetched content up l ++ fetched content up l'.
Proof. unfold fetched. apply flat_map_app. Qed.

Lemma fetched_last (B R : Type) (content : B -> list R) up log :
  log <> [] ->
  fetched content up log =
  fetched content up (removelast log) ++ page content up (last log 0).
Proof.
  intros N. rewrite (app_removelast_last 0 N) at 1.
  rewrite fetched_app. unfold fetched at 2. simpl. now rewrite app_nil_r.
Qed.

Lemma fetched_length_bound (B R : Type) (content : B -> list R) up log n :
  (forall o, (length (page content up o) <= n)%nat) ->
  (length (fetched content up log) <= n * length log)%nat.
Proof.
  intros H. induction log as [|o log IH]; simpl; [lia|].
  rewrite length_app. specialize (H o). lia.
Qed.

Lemma traders_pro_step_count up st offset b st' c :
  up offset = Resp b ->
  TradersSkeleton.pro_step st offset b = (st', c) ->
  snd st' = snd st + Z.of_nat (length (page data up offset)).
Proof.
  intros U. unfold TradersSkeleton.pro_step, page. rewrite U.
  destruct b as [r|]; [|intros E; inversion E; simpl; lia].
  destruct (length (data r) =? 0)%nat eqn:L; intros E; inversion E;
    [|reflexivity].
  apply length_zero_nil in L. rewrite L. simpl. lia.
Qed.

(** [transactionsProcessed] counts the records of the pages fetched,
    and was below the cap before the last page was requested. *)
Lemma traders_pro_run_count up st offset log st' :
  run TradersSkeleton.pro_guard TradersSkeleton.pro_step up st offset log st' ->
  snd st' = snd st + Z.of_nat (length (fetched data up log))
  /\ (log <> [] ->
      snd st + Z.of_nat (length (fetched data up (removelast log)))
      < Traders.Pro.maxTransactionsToProcess).
Proof.
  induction 1 as [| st offset b st' G U E | st offset b st1 log st' G U E R IH].
  - split; [simpl; lia | congruence].
  - eapply traders_pro_step_count in E; [|exact U].
    unfold TradersSkeleton.pro_guard in G. apply Z.ltb_lt in G.
    rewrite fetched_cons. unfold fetched at 1. simpl.
    rewrite app_nil_r. split; [exact E | lia].
  - eapply traders_pro_step_count in E; [|exact U].
    unfold TradersSkeleton.pro_guard in G. apply Z.ltb_lt in G.
    destruct IH as [C L]. rewrite fetched_cons, length_app.
    split; [lia|]. intros _.
    destruct log as [|o log]; [simpl; lia|].
    change (removelast (offset :: o :: log))
      with (offset :: removelast (o :: log)).
    rewrite fetched_cons, length_app.
    assert (N : o :: log <> []) by discriminate.
    specialize (L N). lia.
Qed.

(** The last offset the public traders loop requested is below its
    cap. *)
Lemma traders_public_run_count up st offset log st' :
  run TradersSkeleton.public_guard TradersSkeleton.public_step
    up st offset log st' ->
  log = []
  \/ offset + pageSize * (Z.of_nat (length log) - 1)
     < Traders.Public.maxTransactionsToProcess.
Proof.
  induction 1 as [| st offset b st' G U E | st offset b st1 log st' G U E R IH].
  - now left.
  - right. unfold TradersSkeleton.public_guard in G. apply Z.ltb_lt in G.
    simpl. lia.
  - right. unfold TradersSkeleton.public_guard in G. apply Z.ltb_lt in G.
    destruct IH as [->|IH]; [simpl; lia|].
    change (length (offset :: log)) with (S (length log)). lia.
Qed.

Lemma fetched_length_exact (B R : Type) (content : B -> list R) up log n :
  (forall o, In o log -> length (page content up o) = n) ->
  length (fetched content up log) = (n * length log)%nat.
Proof.
  intros H. induction log as [|o log IH]; [simpl; lia|].
  rewrite fetched_cons, length_app.
  rewrite IH by (intros; apply H; now right).
  rewrite (H o) by now left.
  simpl. lia.
Qed.

(** [continueFetching] after a page: no record was older than [from]. *)
Lemma interval_pro_scan_goes_on from to txs activeWallets :
  snd (Interval.Pro.scan from to txs activeWallets)
  = negb (short_circuited Transaction.blockTime from txs).
Proof.
  revert activeWallets.
  induction txs as [|tx txs IH]; intros activeWallets; simpl; [reflexivity|].
  destruct (lt (Transaction.blockTime tx) from); [reflexivity|]. apply IH.
Qed.

(** The step of the Pro interval loop goes on exactly after a page that
    is not empty, holds no record older than [from] and reports a total
    above the next offset. *)
Lemma interval_pro_step_goes_on from to st offset b st' c :
  IntervalSkeleton.pro_step from to st offset b = (st', c) ->
  c = true <->
  exists r,
    b = Some r /\ data r <> []
    /\ short_circuited Transaction.blockTime from (data r) = false
    /\ offset + pageSize < total r.
Proof.
  unfold IntervalSkeleton.pro_step.
  destruct b as [r|].
  - destruct (length (data r) =? 0)%nat eqn:L.
    + apply length_zero_nil in L. intros E. inversion E. split;
        [discriminate|]. intros [r' [R [N _]]]. inversion R. subst r'.
      contradiction.
    + pose proof (interval_pro_scan_goes_on from to (data r) st) as G.
      destruct (Interval.Pro.scan from to (data r) st) as [aw k].
      cbn [snd] in G. subst k. intros E. inversion E as [[E1 E2]].
      rewrite andb_true_iff, !negb_true_iff, Z.leb_gt. split.
      * intros [T S]. exists r. repeat split; try assumption.
        intros N. rewrite N in L. discriminate.
      * intros [r' [R [_ [S T]]]]. inversion R. subst r'. now split.
  - intros E. inversion E. split; [discriminate|].
    intros [r [R _]]. discriminate.
Qed.

(** The Pro interval loop tests no count of records: it requests the
    next offset exactly after such a page. *)
Lemma interval_pro_run_goes_on from to up st offset log st' :
  run IntervalSkeleton.guard (IntervalSkeleton.pro_step from to)
    up st offset log st' ->
  (log <> [] -> In offset log)
  /\ (forall o, In o log -> offset <= o)
  /\ (forall o, In o log ->
        In (o + pageSize) log <->
        exists r,
          up o = Resp (Some r) /\ data r <> []
          /\ short_circuited Transaction.blockTime from (data r) = false
          /\ o + pageSize < total r).
Proof.
  induction 1 as [| st offset b st' G U E | st offset b st1 log st' G U E R IH].
  - unfold IntervalSkeleton.guard in *. discriminate.
  - split; [intros _; now left|]. split; [intros o [<-|[]]; lia|].
    intros o [<-|[]].
    pose proof (interval_pro_step_goes_on _ _ _ _ _ E) as S.
    split.
    + intros [I|[]]. unfold pageSize in I. lia.
    + intros [r [Ur C]]. rewrite U in Ur. inversion Ur. subst b.
      assert (false = true); [|discriminate].
      apply S. exists r. now split.
  - destruct IH as [F [B N]].
    assert (I1 : In (offset + pageSize) log).
    { apply F. inversion R; subst; discriminate. }
    split; [intros _; now left|].
    split; [intros o [<-|I]; [lia|]; specialize (B o I);
            unfold pageSize in B; lia|].
    intros o [<-|I].
    + pose proof (interval_pro_step_goes_on _ _ _ _ _ E) as S.
      split; [|intros _; now right].
      intros _. destruct (proj1 S eq_refl) as [r [-> C]].
      exists r. now split.
    + rewrite <- (N o I). split; [|intros H; now right].
      intros [H|H]; [|exact H].
      specialize (B o I). unfold pageSize in *. lia.
Qed.

Lemma offsets_length n : forall offset, length (offsets offset n) = n.
Proof.
  induction n as [|n IH]; intros offset; simpl; [reflexivity|].
  now rewrite IH.
Qed.

(** One turn of the Pro interval loop on a page that is not empty. *)
Lemma interval_pro_loop_step fuel up from to activeWallets offset r :
  up offset = Resp (Some r) -> data r <> [] ->
  Interval.Pro.loop (S fuel) up from to activeWallets offset
  = let '(activeWallets', continueFetching) :=
      Interval.Pro.scan from to (data r) activeWallets in
    if total r <=? offset + pageSize then Returned activeWallets' [offset]
    else if continueFetching then
      requested offset
        (Interval.Pro.loop fuel up from to activeWallets' (offset + pageSize))
    else Returned activeWallets' [offset].
Proof.
  intros U N. cbn [Interval.Pro.loop]. rewrite U.
  destruct (data r); [contradiction|reflexivity].
Qed.

Lemma endless_scan activeWallets :
  activeWallets = [] \/ activeWallets = [("A", 120)] ->
  Interval.Pro.scan (Num 100) (Num 150)
    (repeat {| Transaction.blockTime := 120;
               Transaction.changeAmount := json 1 eq_refl;
               Transaction.owner := "A" |} 50)
    activeWallets
  = ([("A", 120)], true).
Proof. intros [-> | ->]; vm_compute; reflexivity. Qed.

(** Against [endless_transfers] the Pro interval loop reads every page
    up to the reported total. *)
Lemma interval_reads_the_total k : forall total offset activeWallets,
  activeWallets = [] \/ activeWallets = [("A", 120)] ->
  total = offset + pageSize * Z.of_nat (S k) ->
  Interval.Pro.loop (S k) (endless_transfers total)
    (Num 100) (Num 150) activeWallets offset
  = Returned [("A", 120)] (offsets offset (S k)).
Proof.
  induction k as [|k IH]; intros t offset activeWallets A T;
    rewrite (@interval_pro_loop_step _ (endless_transfers t) _ _ _ _
               _ eq_refl)
      by discriminate;
    cbn [data total]; rewrite (endless_scan A).
  - replace (t <=? offset + pageSize) with true
      by (symmetry; apply Z.leb_le; unfold pageSize in *; lia).
    reflexivity.
  - replace (t <=? offset + pageSize) with false
      by (symmetry; apply Z.leb_gt; unfold pageSize in *; lia).
    rewrite (IH t (offset + pageSize) [("A", 120)] (or_intror eq_refl))
      by (unfold pageSize in *; lia).
    reflexivity.
Qed.

(** C4, as the code has it.  The loop of traders.ts requests a page
    only while fewer than 1000 records were scanned: it scans fewer
    than 1000 plus the size of its last page, hence at most 1049
    records when no page exceeds the page size of 50, and at most 1000
    when every page but the last holds 50 records and the last one at
    most 50.  The loop of traders.js requests at most ten pages, hence
    at most 500 records when no page exceeds the page size.  The loop
    of interval.ts tests no count of records: after the page at an
    offset it requests the next offset exactly when the page is not
    empty, holds no record older than [from] and reports a total above
    the next offset; for every number there is an upstream of which it
    scans more records than that. *)
Theorem scan_caps
    (fuel : nat) (key : option string)
    (up : Upstream SolscanTransferResponse)
    (publicUp : Upstream (list PublicTx.t))
    (limit from to : number Z) :
  (forall rows log,
     Traders.Pro.fetchTopTraders key up limit = Returned rows log ->
     Z.of_nat (length (fetched data up log))
     < Traders.Pro.maxTransactionsToProcess
       + Z.of_nat (length (page data up (last log 0)))
     /\ ((forall o, (length (page data up o) <= 50)%nat) ->
         Z.of_nat (length (fetched data up log)) <= 1049)
     /\ ((forall o, In o (removelast log) ->
             length (page data up o) = 50%nat) ->
         (length (page data up (last log 0%Z)) <= 50)%nat ->
         Z.of_nat (length (fetched data up log))
         <= Traders.Pro.maxTransactionsToProcess))
  /\ (forall rows log,
        Traders.Public.fetchTopTraders publicUp limit = Returned rows log ->
        (length log <= 10)%nat
        /\ ((forall o, (length (page (@items _) publicUp o) <= 50)%nat) ->
            Z.of_nat (length (fetched (@items _) publicUp log))
            <= Traders.Public.maxTransactionsToProcess))
  /\ (forall rows log,
        Interval.Pro.fetchActiveWallets fuel key up from to
        = Returned rows log ->
        In 0 log
        /\ forall o, In o log ->
             In (o + pageSize) log <->
             exists r,
               up o = Resp (Some r) /\ data r <> []
               /\ short_circuited Transaction.blockTime from (data r) = false
               /\ o + pageSize < total r)
  /\ (forall n : nat,
        exists fuel' up' rows log,
          Interval.Pro.fetchActiveWallets fuel' (Some "key") up'
            (Num 100) (Num 150)
          = Returned rows log
          /\ (n < length (fetched data up' log))%nat).
Proof.
  split; [|split; [|split]]; [intros rows log H..|].
  - unfold Traders.Pro.fetchTopTraders in H.
    destruct (key_missing key); [discriminate|].
    apply and_then_returned in H. destruct H as [wv [H _]].
    rewrite traders_pro_paged in H.
    apply and_then_returned in H. destruct H as [st [H _]].
    apply paged_run, traders_pro_run_count in H. simpl in H.
    destruct H as [_ H].
    assert (B : Z.of_nat (length (fetched data up log))
                < Traders.Pro.maxTransactionsToProcess
                  + Z.of_nat (length (page data up (last log 0)))).
    { destruct log as [|o log];
        [unfold fetched, Traders.Pro.maxTransactionsToProcess;
         cbn [flat_map length]; lia|].
      assert (N : o :: log <> []) by discriminate.
      specialize (H N). rewrite (fetched_last _ _ N), length_app. lia. }
    split; [exact B|]. split.
    + intros P. specialize (P (last log 0)).
      unfold Traders.Pro.maxTransactionsToProcess in B. lia.
    + intros F P.
      destruct log as [|o log];
        [unfold fetched, Traders.Pro.maxTransactionsToProcess;
         cbn [flat_map length]; lia|].
      assert (N : o :: log <> []) by discriminate.
      specialize (H N).
      rewrite (fetched_last _ _ N), length_app.
      rewrite (fetched_length_exact _ _ _ F) in *.
      unfold Traders.Pro.maxTransactionsToProcess in *. lia.
  - unfold Traders.Public.fetchTopTraders in H.
    apply and_then_returned in H. destruct H as [wc [H _]].
    rewrite traders_public_paged in H.
    apply paged_run, traders_public_run_count in H.
    assert (L : (length log <= 10)%nat).
    { destruct H as [->|H]; [simpl; lia|].
      unfold Traders.Public.maxTransactionsToProcess, pageSize in H. lia. }
    split; [exact L|]. intros P.
    pose proof (fetched_length_bound _ _ log P).
    unfold Traders.Public.maxTransactionsToProcess. lia.
  - unfold Interval.Pro.fetchActiveWallets in H.
    destruct (key_missing key); [discriminate|].
    apply and_then_returned in H. destruct H as [aw [H _]].
    rewrite interval_pro_paged in H.
    apply paged_run in H.
    destruct (interval_pro_run_goes_on H) as [F [_ N]].
    split; [|exact N]. apply F.
    inversion H; subst; discriminate.
  - intros n.
    exists (S n), (endless_transfers (0 + pageSize * Z.of_nat (S n))).
    exists (Interval.rows [("A", 120)]), (offsets 0 (S n)).
    split.
    + unfold Interval.Pro.fetchActiveWallets. cbn [key_missing].
      change (key_missing (Some "key")) with false. cbv iota.
      rewrite (@interval_reads_the_total n _ 0 [] (or_introl eq_refl) eq_refl).
      reflexivity.
    + rewrite (@fetched_length_exact _ _ data _ _ 50%nat)
        by (intros; reflexivity).
      rewrite offsets_length. lia.
Qed.

Lemma scan_caps_witness :
  exists rows log,
    Traders.Pro.fetchTopTraders (Some "key") busy_transfers (Num 10)
    = Returned rows log
    /\ length log = 20%nat
    /\ Z.of_nat (length (fetched data busy_transfers log))
       <= Traders.Pro.maxTransactionsToProcess
    /\ exists rows' log',
         Interval.Pro.fetchActiveWallets 30 (Some "key") busy_transfers
           (Num 100) (Num 150)
         = Returned rows' log'
         /\ In (0 + pageSize) log'.
Proof.
  eexists. eexists. split; [vm_compute; reflexivity|].
  split; [reflexivity|]. split.
  - refine (proj2 (proj2 (proj1 (@scan_caps 30 (Some "key") busy_transfers
                                   (@nothing _) (Num 10) (Num 100) (Num 150))
                            _ _ _)) _ _);
      [vm_compute; reflexivity | intros o _; reflexivity
       | vm_compute; lia].
  - eexists. eexists. split; [vm_compute; reflexivity|].
    refine (proj2 (proj2 (proj1 (proj2 (proj2
              (@scan_caps 30 (Some "key") busy_transfers (@nothing _)
                 (Num 10) (Num 100) (Num 150)))) _ _ _) 0 _) _);
      [vm_compute; reflexivity | vm_compute; now left |].
    eexists. split; [reflexivity|].
    split; [vm_compute; discriminate|].
    split; vm_compute; reflexivity.
Defined.

(** C4 as stated fails for both variants.  The interval scan has no
    cap: against an upstream that reports 1100 transfers, all inside
    the window, it reads all 1100 of them.  The cap of traders.ts is
    tested before a page is requested, not after: against an upstream
    that serves pages of 49 transfers the scan reads 21 pages, 1029
    transfers.  Both are more than any cap between 500 and 1000. *)
Lemma scans_exceed_cap :
  (exists rows log,
     Interval.Pro.fetchActiveWallets 30 (Some "key") busy_transfers
       (Num 100) (Num 150) = Returned rows log
     /\ 1000 < Z.of_nat (length (fetched data busy_transfers log)))
  /\ (exists rows log,
        Traders.Pro.fetchTopTraders (Some "key") short_pages (Num 10)
        = Returned rows log
        /\ 1000 < Z.of_nat (length (fetched data short_pages log))).
Proof.
  split; eexists; eexists; (split; [vm_compute; reflexivity|]);
    vm_compute; reflexivity.
Qed.

(** ** Grouping by wallet *)

Lemma set_get_same (V : Type) (m : dict V) k v :
  get m k = Some v -> set m k v = m.
Proof.
  induction m as [|[k0 v0] m IH]; simpl; [discriminate|].
  destruct (String.eqb k k0) eqn:E.
  - intros H. inversion H. reflexivity.
  - intros H. now rewrite IH.
Qed.

Section GroupByFacts.

Variables X E : Type.
Variable key : X -> option string.
Variable upd : option E -> X -> E.

Lemma accumulate_get xs m w :
  get (fold_left (accumulate key upd) xs m) w =
  fold_left (fun acc x => Some (upd acc x)) (observed key w xs) (get m w).
Proof.
  revert m. induction xs as [|x xs IH]; intros m; simpl; [reflexivity|].
  rewrite IH. unfold accumulate.
  destruct (key x) as [k|]; [|reflexivity].
  rewrite get_set, String.eqb_sym.
  destruct (String.eqb k w) eqn:Ek; [|reflexivity].
  apply String.eqb_eq in Ek. subst k. reflexivity.
Qed.

Lemma accumulate_summary xs w :
  get (fold_left (accumulate key upd) xs []) w = summary upd (observed key w xs).
Proof. apply accumulate_get. Qed.

Lemma accumulate_nodup xs m :
  NoDup (keys m) -> NoDup (keys (fold_left (accumulate key upd) xs m)).
Proof.
  revert m. induction xs as [|x xs IH]; intros m N; simpl; [exact N|].
  apply IH. unfold accumulate.
  destruct (key x); [now apply keys_set_nodup | exact N].
Qed.

Lemma summary_snoc xs x :
  summary upd (xs ++ [x]) = Some (upd (summary upd xs) x).
Proof. unfold summary. now rewrite fold_left_app. Qed.

Lemma summary_none xs : summary upd xs = None <-> xs = [].
Proof.
  split; [|intros ->; reflexivity].
  destruct xs as [|x xs] using rev_ind; [reflexivity|].
  rewrite summary_snoc. discriminate.
Qed.

Lemma observed_in w xs x :
  In x (observed key w xs) <-> In x xs /\ key x = Some w.
Proof.
  unfold observed. rewrite filter_In.
  destruct (key x) as [k|].
  - split; intros [H1 H2]; split; try assumption.
    + apply String.eqb_eq in H2. now subst.
    + inversion H2. apply String.eqb_refl.
  - split; intros [H1 H2]; discriminate.
Qed.

Lemma observed_app w xs ys :
  observed key w (xs ++ ys) = observed key w xs ++ observed key w ys.
Proof. apply filter_app. Qed.

End GroupByFacts.

(** The loop bodies are such folds. *)

Lemma traders_pro_record walletVolumes tx :
  Traders.Pro.record_tx walletVolumes tx =
  accumulate transfer_wallet add_transfer walletVolumes tx.
Proof.
  unfold Traders.Pro.record_tx, accumulate, transfer_wallet.
  destruct (inherited (Transaction.owner tx)); reflexivity.
Qed.

Lemma traders_public_record walletCounts tx :
  Traders.Public.record_tx walletCounts tx =
  accumulate trader_wallet count_transaction walletCounts tx.
Proof.
  unfold Traders.Public.record_tx, accumulate, trader_wallet.
  destruct (PublicTx.wallet tx) as [k|]; [|reflexivity].
  destruct (inherited k); reflexivity.
Qed.

(** For a wallet that is not an inherited name, the records counted
    for it are the records that name it. *)
Lemma observed_transfer_wallet w txs :
  inherited w = false ->
  observed transfer_wallet w txs =
  filter (fun tx => String.eqb (Transaction.owner tx) w) txs.
Proof.
  intros H. unfold observed. apply filter_ext. intros tx.
  unfold transfer_wallet.
  destruct (inherited (Transaction.owner tx)) eqn:E; [|reflexivity].
  destruct (String.eqb (Transaction.owner tx) w) eqn:W; [|reflexivity].
  apply String.eqb_eq in W. congruence.
Qed.

Lemma observed_trader_wallet w txs :
  inherited w = false ->
  observed trader_wallet w txs = observed PublicTx.wallet w txs.
Proof.
  intros H. unfold observed. apply filter_ext. intros tx.
  unfold trader_wallet.
  destruct (PublicTx.wallet tx) as [k|]; [|reflexivity].
  destruct (inherited k) eqn:E; [|reflexivity].
  destruct (String.eqb k w) eqn:W; [|reflexivity].
  apply String.eqb_eq in W. congruence.
Qed.

Lemma transfer_wallet_own tx w :
  transfer_wallet tx = Some w <->
  Transaction.owner tx = w /\ inherited w = false.
Proof.
  unfold transfer_wallet.
  destruct (inherited (Transaction.owner tx)) eqn:E; split.
  - discriminate.
  - intros [<- H]. congruence.
  - intros H. inversion H. subst w. now split.
  - intros [<- _]. reflexivity.
Qed.

Lemma trader_wallet_own tx w :
  trader_wallet tx = Some w <->
  PublicTx.wallet tx = Some w /\ inherited w = false.
Proof.
  unfold trader_wallet.
  destruct (PublicTx.wallet tx) as [k|]; [|split; [|intros [? _]]; discriminate].
  destruct (inherited k) eqn:E; split.
  - discriminate.
  - intros [H Hw]. inversion H. congruence.
  - intros H. inversion H. subst w. now split.
  - intros [H _]. exact H.
Qed.

Lemma fold_left_ext_eq (A C : Type) (f g : A -> C -> A) l a :
  (forall a c, f a c = g a c) -> fold_left f l a = fold_left g l a.
Proof.
  intros H. revert a. induction l as [|c l IH]; intros a; simpl;
    [reflexivity|]. now rewrite H, IH.
Qed.

Lemma upsert_later (X : Type) (time : X -> Z) activeWallets k tx :
  Interval.upsert activeWallets k (time tx) =
  set activeWallets k (later time (get activeWallets k) tx).
Proof.
  unfold Interval.upsert, later.
  destruct (get activeWallets k) as [lastTx|] eqn:G; [|reflexivity].
  destruct (time tx >? lastTx); [reflexivity|].
  symmetry. now apply set_get_same.
Qed.

Lemma interval_pro_scan from to txs activeWallets :
  Interval.Pro.scan from to txs activeWallets =
  (fold_left (accumulate (in_window from to) (later Transaction.blockTime))
     (scanned Transaction.blockTime from txs) activeWallets,
   negb (short_circuited Transaction.blockTime from txs)).
Proof.
  revert activeWallets.
  induction txs as [|tx txs IH]; intros activeWallets; simpl; [reflexivity|].
  destruct (lt (Transaction.blockTime tx) from); [reflexivity|].
  simpl. rewrite IH. f_equal. f_equal.
  unfold accumulate, in_window.
  destruct (le (Transaction.blockTime tx) to
            && ge (Transaction.blockTime tx) from); [|reflexivity].
  apply upsert_later.
Qed.

Lemma interval_public_scan from to txs activeWallets :
  Interval.Public.scan from to txs activeWallets =
  (fold_left (accumulate (public_in_window to) (later PublicTx.blockTime))
     (scanned PublicTx.blockTime from txs) activeWallets,
   negb (short_circuited PublicTx.blockTime from txs)).
Proof.
  revert activeWallets.
  induction txs as [|tx txs IH]; intros activeWallets; simpl; [reflexivity|].
  destruct (lt (PublicTx.blockTime tx) from); [reflexivity|].
  simpl. rewrite IH. f_equal. f_equal.
  unfold accumulate, public_in_window.
  destruct (PublicTx.wallet tx) as [wallet|]; [|reflexivity].
  destruct (le (PublicTx.blockTime tx) to); [|reflexivity].
  apply upsert_later.
Qed.

(** What the values kept for a wallet are. *)

Lemma double_volume_snoc txs tx :
  double_volume (txs ++ [tx]) = (double_volume txs + scaled tx)%float.
Proof. unfold double_volume. now rewrite fold_left_app. Qed.

(** The scaled amount of a transfer is not below zero, and neither is
    a sum of such amounts, however it rounds. *)
Lemma scaled_nonneg tx : nonneg (scaled tx).
Proof. apply nonneg_scaled, not_NaN. Qed.

Lemma double_volume_nonneg txs : nonneg (double_volume txs).
Proof.
  induction txs as [|tx txs IH] using rev_ind; [exact nonneg_zero|].
  rewrite double_volume_snoc. apply nonneg_add; [exact IH|apply scaled_nonneg].
Qed.

Lemma latest_snoc l b : latest (l ++ [b]) = Z.max (latest l) b.
Proof. unfold latest. now rewrite fold_left_app. Qed.

Lemma later_time_max b l : (if b >? l then b else l) = Z.max l b.
Proof.
  destruct (b >? l) eqn:E.
  - apply Z.gtb_lt in E. lia.
  - rewrite Z.gtb_ltb in E. apply Z.ltb_ge in E. lia.
Qed.

Lemma summary_add_transfer txs e :
  summary add_transfer txs = Some e ->
  Traders.Pro.volume e = double_volume txs
  /\ Traders.Pro.lastTx e = latest (map Transaction.blockTime txs).
Proof.
  revert e. induction txs as [|tx txs IH] using rev_ind; intros e;
    [discriminate|].
  rewrite summary_snoc, double_volume_snoc, map_app. cbn [map].
  rewrite latest_snoc.
  intros H. inversion H as [H']. clear H H'.
  destruct (summary add_transfer txs) as [e0|] eqn:S; unfold add_transfer.
  - destruct (IH e0 eq_refl) as [V L]. clear IH.
    cbn [Traders.Pro.volume Traders.Pro.lastTx].
    split.
    + rewrite <- V.
      destruct (Transaction.blockTime tx >? Traders.Pro.lastTx e0);
        reflexivity.
    + rewrite <- L, <- later_time_max. cbn [map].
      destruct (Transaction.blockTime tx >? Traders.Pro.lastTx e0);
        reflexivity.
  - apply summary_none in S. subst txs.
    cbn [Traders.Pro.volume Traders.Pro.lastTx].
    split.
    + destruct (Transaction.blockTime tx >? 0); reflexivity.
    + rewrite <- later_time_max. cbn [map latest fold_left].
      destruct (Transaction.blockTime tx >? 0); reflexivity.
Qed.

Lemma summary_count_transaction txs e :
  summary count_transaction txs = Some e ->
  Traders.Public.count e = Z.of_nat (length txs)
  /\ Traders.Public.lastTx e = latest (map PublicTx.blockTime txs).
Proof.
  revert e. induction txs as [|tx txs IH] using rev_ind; intros e;
    [discriminate|].
  rewrite summary_snoc, length_app, map_app. cbn [map].
  rewrite latest_snoc.
  intros H. inversion H as [H']. clear H H'.
  destruct (summary count_transaction txs) as [e0|] eqn:S;
    unfold count_transaction.
  - destruct (IH e0 eq_refl) as [V L]. clear IH.
    cbn [Traders.Public.count Traders.Public.lastTx].
    split.
    + destruct (PublicTx.blockTime tx >? Traders.Public.lastTx e0);
        cbn [Traders.Public.count length]; lia.
    + rewrite <- L, <- later_time_max. cbn [map].
      destruct (PublicTx.blockTime tx >? Traders.Public.lastTx e0);
        reflexivity.
  - apply summary_none in S. subst txs.
    cbn [Traders.Public.count Traders.Public.lastTx].
    split.
    + destruct (PublicTx.blockTime tx >? 0);
        cbn [Traders.Public.count length]; lia.
    + rewrite <- later_time_max. cbn [map latest fold_left].
      destruct (PublicTx.blockTime tx >? 0); reflexivity.
Qed.

Lemma summary_later (X : Type) (time : X -> Z) txs m :
  summary (later time) txs = Some m -> greatest m (map time txs).
Proof.
  revert m. induction txs as [|tx txs IH] using rev_ind; intros m;
    [discriminate|].
  rewrite summary_snoc, map_app. intros H. inversion H as [H']. clear H H'.
  unfold greatest.
  destruct (summary (later time) txs) as [m0|] eqn:S; unfold later.
  - destruct (IH m0 eq_refl) as [I B]. clear IH.
    rewrite later_time_max. split.
    + apply in_or_app.
      destruct (Z.max_spec m0 (time tx)) as [[_ ->]|[_ ->]];
        [right; now left | now left].
    + intros b Hb. apply in_app_or in Hb.
      destruct Hb as [Hb|[<-|[]]]; [specialize (B b Hb)|]; lia.
  - apply summary_none in S. subst txs. simpl. split; [now left|].
    intros b [<-|[]]. lia.
Qed.

(** [latest] is the greatest block time, or 0 when none is above 0. *)
Lemma latest_spec l :
  (forall b, In b l -> b <= latest l)
  /\ 0 <= latest l
  /\ (latest l = 0 \/ In (latest l) l).
Proof.
  induction l as [|b l IH] using rev_ind.
  - simpl. unfold latest. simpl. repeat split; [contradiction | lia | now left].
  - rewrite latest_snoc. destruct IH as [B [P I]].
    split; [|split].
    + intros c Hc. apply in_app_or in Hc.
      destruct Hc as [Hc|[<-|[]]]; [specialize (B c Hc)|]; lia.
    + lia.
    + destruct (Z.max_spec (latest l) b) as [[_ ->]|[_ ->]].
      * right. apply in_or_app. right. now left.
      * destruct I as [I|I]; [now left | right; apply in_or_app; now left].
Qed.

(** ** Traders *)

(** For block times that are not negative, as Unix times are, [latest]
    is the greatest of them. *)
Lemma latest_greatest l :
  l <> [] -> (forall b, In b l -> 0 <= b) -> greatest (latest l) l.
Proof.
  intros N P. destruct (latest_spec l) as [B [_ [Z|I]]]; split; auto.
  destruct l as [|b l]; [congruence|].
  assert (b = 0).
  { specialize (B b (or_introl eq_refl)).
    specialize (P b (or_introl eq_refl)). lia. }
  subst b. rewrite Z. now left.
Qed.

Lemma before_by_volume a b :
  before Traders.by_volume a b <->
  (TraderRow.volume b <= TraderRow.volume a)%Q.
Proof.
  unfold before, Traders.by_volume. rewrite Qle_bool_iff. split; lra.
Qed.

Lemma by_volume_total a b :
  ~ before Traders.by_volume a b -> before Traders.by_volume b a.
Proof. rewrite !before_by_volume. lra. Qed.

Lemma by_volume_trans a b c :
  before Traders.by_volume a b -> before Traders.by_volume b c ->
  before Traders.by_volume a c.
Proof. rewrite !before_by_volume. lra. Qed.

Lemma StronglySorted_impl (A : Type) (R R' : A -> A -> Prop) l :
  (forall a b, R a b -> R' a b) -> StronglySorted R l -> StronglySorted R' l.
Proof.
  intros H. induction 1 as [|a l S IH F]; constructor; [exact IH|].
  eapply Forall_impl; [|exact F]. intros b. apply H.
Qed.

(** What holds of an array sorted by volume and cut at the limit. *)
Lemma top_rows (rows all : list (TraderRow.t Q)) limit :
  rows = slice0 (sort Traders.by_volume all) limit ->
  (forall r, In r rows -> In r all)
  /\ StronglySorted
       (fun a b => (TraderRow.volume b <= TraderRow.volume a)%Q) rows
  /\ (NoDup (map TraderRow.wallet all) -> NoDup (map TraderRow.wallet rows))
  /\ (forall l, limit = Num l -> 0 <= l -> Z.of_nat (length rows) <= l)
  /\ (forall l, limit = Num l -> Z.of_nat (length rows) < l ->
      forall r, In r all -> In r rows).
Proof.
  intros ->.
  destruct (slice0_prefix (sort Traders.by_volume all) limit) as [rest E].
  pose proof (sort_perm Traders.by_volume all) as P.
  split; [|split; [|split; [|split]]].
  - intros r H. apply slice0_incl in H.
    eapply Permutation_in; eassumption.
  - eapply StronglySorted_impl; [intros a b; apply before_by_volume|].
    eapply StronglySorted_app_l. rewrite <- E.
    apply sort_sorted; [exact by_volume_total | exact by_volume_trans].
  - intros N.
    assert (N' : NoDup (map TraderRow.wallet (sort Traders.by_volume all))).
    { eapply Permutation_NoDup; [|exact N].
      apply Permutation_map. symmetry. exact P. }
    rewrite E, map_app in N'. eapply NoDup_app_remove_r. exact N'.
  - intros l -> L. rewrite slice0_length_nonneg by exact L. lia.
  - intros l -> L r H. rewrite (slice0_all _ L).
    eapply Permutation_in; [symmetry; exact P | exact H].
Qed.

(** The same of an array of volumes that are doubles: the comparator
    [b.volume - a.volume] is the sign of [<=] on the doubles that are
    not below zero (on two infinities it is [NaN], which [sort] takes
    for 0). *)
Lemma top_rows_double (rows all : list (TraderRow.t float)) limit :
  Forall (fun r => nonneg (TraderRow.volume r)) all ->
  rows = slice0 (sort_double Traders.Pro.by_volume all) limit ->
  (forall r, In r rows -> In r all)
  /\ StronglySorted
       (fun a b => (TraderRow.volume b <=? TraderRow.volume a)%float = true)
       rows
  /\ (NoDup (map TraderRow.wallet all) -> NoDup (map TraderRow.wallet rows))
  /\ (forall l, limit = Num l -> 0 <= l -> Z.of_nat (length rows) <= l)
  /\ (forall l, limit = Num l -> Z.of_nat (length rows) < l ->
      forall r, In r all -> In r rows).
Proof.
  intros F ->.
  destruct (slice0_prefix (sort_double Traders.Pro.by_volume all) limit)
    as [rest E].
  pose proof (sort_double_perm Traders.Pro.by_volume all) as P.
  split; [|split; [|split; [|split]]].
  - intros r H. apply slice0_incl in H.
    eapply Permutation_in; eassumption.
  - eapply StronglySorted_app_l. rewrite <- E.
    apply sort_double_sorted
      with (P := fun r : TraderRow.t float => nonneg (TraderRow.volume r));
      [| | |exact F].
    + intros x y Px Py H. unfold Traders.Pro.by_volume in H.
      rewrite sub_sign in H by assumption.
      apply leb_total; [assumption|assumption|].
      now apply negb_true_iff in H.
    + intros x y Px Py H. unfold Traders.Pro.by_volume in H.
      rewrite sub_sign in H by assumption.
      now apply negb_false_iff in H.
    + intros x y z Px Py Pz H1 H2.
      apply leb_trans with (y := TraderRow.volume y); assumption.
  - intros N.
    assert (N' : NoDup (map TraderRow.wallet
                          (sort_double Traders.Pro.by_volume all))).
    { eapply Permutation_NoDup; [|exact N].
      apply Permutation_map. symmetry. exact P. }
    rewrite E, map_app in N'. eapply NoDup_app_remove_r. exact N'.
  - intros l -> L. rewrite slice0_length_nonneg by exact L. lia.
  - intros l -> L r H. rewrite (slice0_all _ L).
    eapply Permutation_in; [symmetry; exact P | exact H].
Qed.

Lemma traders_pro_step_map up st offset b st' c :
  up offset = Resp b ->
  TradersSkeleton.pro_step st offset b = (st', c) ->
  fst st' =
  fold_left (accumulate transfer_wallet add_transfer) (page data up offset)
    (fst st).
Proof.
  intros U. unfold TradersSkeleton.pro_step, page. rewrite U.
  destruct b as [r|]; [|intros E; inversion E; reflexivity].
  destruct (length (data r) =? 0)%nat eqn:L; intros E; inversion E.
  - apply length_zero_nil in L. now rewrite L.
  - cbn [fst]. apply fold_left_ext_eq. exact traders_pro_record.
Qed.

Lemma traders_pro_run_map up st offset log st' :
  run TradersSkeleton.pro_guard TradersSkeleton.pro_step up st offset log st' ->
  fst st' =
  fold_left (accumulate transfer_wallet add_transfer) (fetched data up log)
    (fst st).
Proof.
  induction 1 as [| st offset b st' G U E | st offset b st1 log st' G U E R IH].
  - reflexivity.
  - rewrite fetched_cons. unfold fetched. simpl. rewrite app_nil_r.
    eapply traders_pro_step_map; eassumption.
  - rewrite fetched_cons, fold_left_app, IH.
    eapply traders_pro_step_map in E; [|exact U]. now rewrite E.
Qed.

Lemma traders_public_step_map up st offset b st' c :
  up offset = Resp b ->
  TradersSkeleton.public_step st offset b = (st', c) ->
  st' =
  fold_left (accumulate trader_wallet count_transaction)
    (page (@items _) up offset) st.
Proof.
  intros U. unfold TradersSkeleton.public_step, page, items. rewrite U.
  destruct b as [r|]; [|intros E; inversion E; reflexivity].
  destruct (length r =? 0)%nat eqn:L; intros E; inversion E.
  - apply length_zero_nil in L. now rewrite L.
  - apply fold_left_ext_eq. exact traders_public_record.
Qed.

Lemma traders_public_run_map up st offset log st' :
  run TradersSkeleton.public_guard TradersSkeleton.public_step
    up st offset log st' ->
  st' =
  fold_left (accumulate trader_wallet count_transaction)
    (fetched (@items _) up log) st.
Proof.
  induction 1 as [| st offset b st' G U E | st offset b st1 log st' G U E R IH].
  - reflexivity.
  - rewrite fetched_cons. unfold fetched. simpl. rewrite app_nil_r.
    eapply traders_public_step_map; eassumption.
  - rewrite fetched_cons, fold_left_app, IH.
    eapply traders_public_step_map in E; [|exact U]. now rewrite E.
Qed.

(** The rows of the traders endpoints: the map of the fetched pages,
    sorted by volume and cut at the limit. *)
Lemma traders_pro_rows key up limit rows log :
  Traders.Pro.fetchTopTraders key up limit = Returned rows log ->
  rows =
  slice0
    (Traders.Pro.sortedTraders
       (fold_left (accumulate transfer_wallet add_transfer)
          (fetched data up log) []))
    limit.
Proof.
  unfold Traders.Pro.fetchTopTraders.
  destruct (key_missing key); [discriminate|].
  intros H. apply and_then_returned in H. destruct H as [wv [H ->]].
  rewrite traders_pro_paged in H.
  apply and_then_returned in H. destruct H as [st [H ->]].
  apply paged_run, traders_pro_run_map in H. now rewrite H.
Qed.

Lemma traders_public_rows up limit rows log :
  Traders.Public.fetchTopTraders up limit = Returned rows log ->
  rows =
  slice0
    (Traders.Public.sortedTraders
       (fold_left (accumulate trader_wallet count_transaction)
          (fetched (@items _) up log) []))
    limit.
Proof.
  unfold Traders.Public.fetchTopTraders.
  intros H. apply and_then_returned in H. destruct H as [wc [H ->]].
  rewrite traders_public_paged in H.
  apply paged_run, traders_public_run_map in H. now rewrite H.
Qed.

Lemma in_keys_get (V : Type) (m : dict V) k :
  In k (keys m) -> exists v, get m k = Some v.
Proof.
  intros H. destruct (get m k) as [v|] eqn:G; [eauto|].
  apply get_none_keys in G. contradiction.
Qed.

Lemma traders_pro_unsorted_wallets (walletVolumes : Traders.Pro.WalletVolume) :
  Permutation
    (map TraderRow.wallet
       (map (fun '(wallet, data) =>
               {| TraderRow.wallet := wallet;
                  TraderRow.volume := Traders.Pro.volume data;
                  TraderRow.lastTx := Traders.Pro.lastTx data |})
          (entries walletVolumes)))
    (keys walletVolumes).
Proof.
  unfold keys. rewrite map_map.
  rewrite (entries_perm walletVolumes).
  erewrite map_ext; [reflexivity|]. now intros [w d].
Qed.

Lemma traders_public_unsorted_wallets
    (walletCounts : Traders.Public.WalletCounts) :
  Permutation
    (map TraderRow.wallet
       (map (fun '(wallet, data) =>
               {| TraderRow.wallet := wallet;
                  TraderRow.volume := inject_Z (Traders.Public.count data);
                  TraderRow.lastTx := Traders.Public.lastTx data |})
          (entries walletCounts)))
    (keys walletCounts).
Proof.
  unfold keys. rewrite map_map.
  rewrite (entries_perm walletCounts).
  erewrite map_ext; [reflexivity|]. now intros [w d].
Qed.

(** Only the wallets a stream is counted for have an entry. *)
Lemma accumulate_key_named (X E : Type) (key : X -> option string)
    (upd : option E -> X -> E) stream w e :
  In (w, e) (fold_left (accumulate key upd) stream []) ->
  exists x, In x stream /\ key x = Some w.
Proof.
  intros H. apply in_get in H; [|apply accumulate_nodup; constructor].
  rewrite accumulate_summary in H.
  destruct (observed key w stream) as [|x own] eqn:O; [discriminate|].
  exists x. apply observed_in. rewrite O. now left.
Qed.

(** Rows of the Pro traders endpoint, one by one. *)
Lemma traders_pro_row stream r :
  In r (map (fun '(wallet, data) =>
               {| TraderRow.wallet := wallet;
                  TraderRow.volume := Traders.Pro.volume data;
                  TraderRow.lastTx := Traders.Pro.lastTx data |})
          (entries
             (fold_left (accumulate transfer_wallet add_transfer) stream
                []))) ->
  let own :=
    filter (fun tx => String.eqb (Transaction.owner tx) (TraderRow.wallet r))
      stream in
  own <> []
  /\ inherited (TraderRow.wallet r) = false
  /\ TraderRow.volume r = double_volume own
  /\ TraderRow.lastTx r = latest (map Transaction.blockTime own)
  /\ ((forall tx, In tx own -> 0 <= Transaction.blockTime tx) ->
      greatest (TraderRow.lastTx r) (map Transaction.blockTime own)).
Proof.
  intros H own. apply in_map_iff in H. destruct H as [[w e] [<- H]].
  apply (proj1 (entries_in _ _)) in H.
  assert (W : inherited w = false).
  { apply accumulate_key_named in H. destruct H as [tx [_ K]].
    now apply transfer_wallet_own in K. }
  apply in_get in H; [|apply accumulate_nodup; constructor].
  rewrite accumulate_summary in H. subst own.
  cbn [TraderRow.wallet TraderRow.volume TraderRow.lastTx].
  rewrite <- (@observed_transfer_wallet w stream W).
  assert (N : observed transfer_wallet w stream <> []).
  { intros N. rewrite N in H. discriminate. }
  apply summary_add_transfer in H. destruct H as [V L].
  split; [exact N|split; [exact W|split; [exact V|split; [exact L|]]]].
  intros P. rewrite L. apply latest_greatest.
  - intros E. apply map_eq_nil in E. contradiction.
  - intros b Hb. apply in_map_iff in Hb. destruct Hb as [tx [<- Hb]]. auto.
Qed.

Lemma traders_pro_volumes stream :
  Forall (fun r => nonneg (TraderRow.volume r))
    (map (fun '(wallet, data) =>
            {| TraderRow.wallet := wallet;
               TraderRow.volume := Traders.Pro.volume data;
               TraderRow.lastTx := Traders.Pro.lastTx data |})
       (entries
          (fold_left (accumulate transfer_wallet add_transfer) stream []))).
Proof.
  apply Forall_forall. intros r H. apply traders_pro_row in H.
  destruct H as [_ [_ [V _]]]. rewrite V. apply double_volume_nonneg.
Qed.

Lemma traders_public_row stream r :
  In r (map (fun '(wallet, data) =>
               {| TraderRow.wallet := wallet;
                  TraderRow.volume := inject_Z (Traders.Public.count data);
                  TraderRow.lastTx := Traders.Public.lastTx data |})
          (entries
             (fold_left (accumulate trader_wallet count_transaction)
                stream []))) ->
  let own := observed PublicTx.wallet (TraderRow.wallet r) stream in
  own <> []
  /\ inherited (TraderRow.wallet r) = false
  /\ TraderRow.volume r = inject_Z (Z.of_nat (length own))
  /\ TraderRow.lastTx r = latest (map PublicTx.blockTime own)
  /\ ((forall tx, In tx own -> 0 <= PublicTx.blockTime tx) ->
      greatest (TraderRow.lastTx r) (map PublicTx.blockTime own)).
Proof.
  intros H own. apply in_map_iff in H. destruct H as [[w e] [<- H]].
  apply (proj1 (entries_in _ _)) in H.
  assert (W : inherited w = false).
  { apply accumulate_key_named in H. destruct H as [tx [_ K]].
    now apply trader_wallet_own in K. }
  apply in_get in H; [|apply accumulate_nodup; constructor].
  rewrite accumulate_summary in H. subst own.
  cbn [TraderRow.wallet TraderRow.volume TraderRow.lastTx].
  rewrite <- (@observed_trader_wallet w stream W).
  assert (N : observed trader_wallet w stream <> []).
  { intros N. rewrite N in H. discriminate. }
  apply summary_count_transaction in H. destruct H as [-> L].
  split; [exact N|split; [exact W|split; [reflexivity|split; [exact L|]]]].
  intros P. rewrite L. apply latest_greatest.
  - intros E. apply map_eq_nil in E. contradiction.
  - intros b Hb. apply in_map_iff in Hb. destruct Hb as [tx [<- Hb]]. auto.
Qed.

(** A wallet named in the stream has a row before the cut. *)
Lemma accumulate_covers (X E R : Type) (key : X -> option string)
    (upd : option E -> X -> E) (row : string * E -> R) (name : R -> string)
    stream x w :
  (forall k e, name (row (k, e)) = k) ->
  In x stream -> key x = Some w ->
  exists r,
    In r (map row (fold_left (accumulate key upd) stream [])) /\ name r = w.
Proof.
  intros N I K.
  destruct (summary upd (observed key w stream)) as [e|] eqn:S.
  - rewrite <- accumulate_summary in S. apply get_in in S.
    exists (row (w, e)). split; [now apply in_map | apply N].
  - apply summary_none in S.
    assert (H : In x (observed key w stream)) by now apply observed_in.
    rewrite S in H. contradiction.
Qed.

Lemma entries_covers (X E R : Type) (key : X -> option string)
    (upd : option E -> X -> E) (row : string * E -> R) (name : R -> string)
    stream x w :
  (forall k e, name (row (k, e)) = k) ->
  In x stream -> key x = Some w ->
  exists r,
    In r (map row (entries (fold_left (accumulate key upd) stream [])))
    /\ name r = w.
Proof.
  intros N I K.
  destruct (@accumulate_covers _ _ _ key upd row name stream x w N I K)
    as [r [H Hw]].
  exists r. split; [|exact Hw].
  apply in_map_iff in H. destruct H as [p [<- H]].
  apply in_map. now apply entries_in.
Qed.

(** C1, as the code has it.  Every wallet the trader aggregation emits
    is the owner (in traders.js, the first signer) of a record of the
    pages fetched, and is not a name that every object inherits; its
    accumulator is the volume of the wallet's records: in traders.ts
    their amounts |changeAmount| / 1e9, added as doubles in their
    order (in traders.js, their count); its lastTx is the greatest of
    0 and of the blockTime of these records, hence their greatest
    blockTime when these are not negative; the array is sorted
    descending by the accumulator; its length is at most a limit that
    is not negative; and when it is shorter than the limit, every
    owner (first signer) of a fetched record that is not an inherited
    name is emitted. *)
Theorem traders_rows
    (key : option string) (up : Upstream SolscanTransferResponse)
    (publicUp : Upstream (list PublicTx.t)) (limit : number Z) :
  (forall rows log,
     Traders.Pro.fetchTopTraders key up limit = Returned rows log ->
     let stream := fetched data up log in
     (forall r, In r rows ->
        let own :=
          filter (fun tx =>
                    String.eqb (Transaction.owner tx) (TraderRow.wallet r))
            stream in
        own <> []
        /\ inherited (TraderRow.wallet r) = false
        /\ TraderRow.volume r = double_volume own
        /\ TraderRow.lastTx r = latest (map Transaction.blockTime own)
        /\ ((forall tx, In tx own -> 0 <= Transaction.blockTime tx) ->
            greatest (TraderRow.lastTx r) (map Transaction.blockTime own)))
     /\ StronglySorted
          (fun a b =>
             (TraderRow.volume b <=? TraderRow.volume a)%float = true) rows
     /\ (forall l, limit = Num l -> 0 <= l -> Z.of_nat (length rows) <= l)
     /\ (forall l, limit = Num l -> Z.of_nat (length rows) < l ->
         forall tx, In tx stream ->
           inherited (Transaction.owner tx) = false ->
           exists r, In r rows /\ TraderRow.wallet r = Transaction.owner tx))
  /\ (forall rows log,
        Traders.Public.fetchTopTraders publicUp limit = Returned rows log ->
        let stream := fetched (@items _) publicUp log in
        (forall r, In r rows ->
           let own := observed PublicTx.wallet (TraderRow.wallet r) stream in
           own <> []
           /\ inherited (TraderRow.wallet r) = false
           /\ TraderRow.volume r = inject_Z (Z.of_nat (length own))
           /\ TraderRow.lastTx r = latest (map PublicTx.blockTime own)
           /\ ((forall tx, In tx own -> 0 <= PublicTx.blockTime tx) ->
               greatest (TraderRow.lastTx r) (map PublicTx.blockTime own)))
        /\ StronglySorted
             (fun a b => (TraderRow.volume b <= TraderRow.volume a)%Q) rows
        /\ (forall l, limit = Num l -> 0 <= l -> Z.of_nat (length rows) <= l)
        /\ (forall l, limit = Num l -> Z.of_nat (length rows) < l ->
            forall tx wallet, In tx stream ->
              PublicTx.wallet tx = Some wallet -> inherited wallet = false ->
              exists r, In r rows /\ TraderRow.wallet r = wallet)).
Proof.
  split; intros rows log H stream.
  - apply traders_pro_rows in H. fold stream in H.
    apply top_rows_double in H; [|apply traders_pro_volumes].
    destruct H as [I [S [_ [L C]]]].
    split; [|split; [exact S|split; [exact L|]]].
    + intros r Hr. apply traders_pro_row. now apply I.
    + intros l El Ll tx Htx Hw.
      destruct (@entries_covers _ _ _ transfer_wallet add_transfer
                  (fun '(wallet, data) =>
                     {| TraderRow.wallet := wallet;
                        TraderRow.volume := Traders.Pro.volume data;
                        TraderRow.lastTx := Traders.Pro.lastTx data |})
                  (@TraderRow.wallet float) stream tx (Transaction.owner tx))
        as [r [Hr Hw']];
        [reflexivity | exact Htx | now apply transfer_wallet_own |].
      exists r. split; [|exact Hw']. eapply C; eassumption.
  - apply traders_public_rows in H. fold stream in H.
    apply top_rows in H. destruct H as [I [S [_ [L C]]]].
    split; [|split; [exact S|split; [exact L|]]].
    + intros r Hr. apply traders_public_row. now apply I.
    + intros l El Ll tx w Htx Hw Hi.
      destruct (@entries_covers _ _ _ trader_wallet count_transaction
                  (fun '(wallet, data) =>
                     {| TraderRow.wallet := wallet;
                        TraderRow.volume :=
                          inject_Z (Traders.Public.count data);
                        TraderRow.lastTx := Traders.Public.lastTx data |})
                  (@TraderRow.wallet Q) stream tx w)
        as [r [Hr Hw']];
        [reflexivity | exact Htx | now apply trader_wallet_own |].
      exists r. split; [|exact Hw']. eapply C; eassumption.
Qed.

Lemma traders_rows_witness :
  exists r,
    Traders.Pro.fetchTopTraders (Some "key") example_transfers (Num 10)
    = Returned [r] [0]
    /\ TraderRow.wallet r = "A"
    /\ TraderRow.volume r = 3%float
    /\ TraderRow.lastTx r = 200.
Proof.
  eexists. split; [vm_compute; reflexivity|].
  split; [reflexivity|].
  match goal with
  | |- TraderRow.volume ?r = _ /\ _ =>
      destruct (proj1 (proj1 (@traders_rows (Some "key") example_transfers
                                (@nothing _) (Num 10))
                         [r] [0] eq_refl)
                  r (or_introl eq_refl))
        as [_ [_ [V [L _]]]]
  end.
  split.
  - etransitivity; [exact V|]. vm_compute. reflexivity.
  - exact L.
Defined.

(** C1 as stated fails in five ways.  The limit cuts the array: with
    two wallets on the page and a limit of 1, wallet B is in the stream
    and no row is emitted for it.  The accumulator is a sum of doubles:
    the amounts of wallet A, 100000000 and 200000000, add up to
    300000000, the amount of wallet B, yet the volume of B is 0.3, the
    double of 300000000 / 1e9, and the volume of A is above it.  An
    owner named ["constructor"] is in the stream and has no row, in
    traders.ts and in traders.js.  A wallet whose only record has the
    block time -5 has the lastTx 0.  With the limit -1 the array of
    two wallets is cut to one row, more than the limit. *)
Lemma traders_rows_as_stated_fail :
  (exists rows log,
     Traders.Pro.fetchTopTraders (Some "key") two_traders (Num 1)
     = Returned rows log
     /\ (exists tx,
           In tx (fetched data two_traders log)
           /\ Transaction.owner tx = "B")
     /\ ~ (exists r, In r rows /\ TraderRow.wallet r = "B"))
  /\ (exists a b,
        Traders.Pro.fetchTopTraders (Some "key") rounded_transfers (Num 10)
        = Returned [a; b] [0]
        /\ TraderRow.wallet a = "A" /\ TraderRow.wallet b = "B"
        /\ (100000000 + 200000000 = 300000000)%float
        /\ TraderRow.volume b = (300000000 / 1000000000)%float
        /\ (TraderRow.volume b <? TraderRow.volume a)%float = true)
  /\ (Traders.Pro.fetchTopTraders (Some "key") inherited_owner (Num 10)
      = Returned [] [0]
      /\ (exists tx,
            In tx (fetched data inherited_owner [0])
            /\ Transaction.owner tx = "constructor"))
  /\ (Traders.Public.fetchTopTraders inherited_signer (Num 10)
      = Returned [] [0]
      /\ (exists tx,
            In tx (fetched (@items _) inherited_signer [0])
            /\ PublicTx.wallet tx = Some "constructor"))
  /\ (exists r,
        Traders.Pro.fetchTopTraders (Some "key") early_transfer (Num 10)
        = Returned [r] [0]
        /\ map Transaction.blockTime (fetched data early_transfer [0]) = [-5]
        /\ TraderRow.lastTx r = 0)
  /\ (exists rows log,
        Traders.Pro.fetchTopTraders (Some "key") two_traders (Num (-1))
        = Returned rows log
        /\ ~ Z.of_nat (length rows) <= -1).
Proof.
  split; [|split; [|split; [|split; [|split]]]].
  - eexists. eexists. split; [vm_compute; reflexivity|]. split.
    + eexists. split; [vm_compute; right; left; reflexivity | reflexivity].
    + intros [r [[<-|[]] W]]. discriminate.
  - eexists. eexists. split; [vm_compute; reflexivity|].
    repeat (split; [vm_compute; reflexivity|]). vm_compute. reflexivity.
  - split; [vm_compute; reflexivity|].
    eexists. split; [vm_compute; left; reflexivity | reflexivity].
  - split; [vm_compute; reflexivity|].
    eexists. split; [vm_compute; left; reflexivity | reflexivity].
  - eexists. split; [vm_compute; reflexivity|].
    split; vm_compute; reflexivity.
  - eexists. eexists. split; [vm_compute; reflexivity|].
    vm_compute. intros H. apply H. reflexivity.
Qed.

(** [Object.entries] lists an owner that is an array index first: of
    two wallets with the same volume, ["7"] comes before ["A"], whose
    transfer came first. *)
Example traders_index_owner_first :
  exists a b,
    Traders.Pro.fetchTopTraders (Some "key") index_owner (Num 10)
    = Returned [a; b] [0]
    /\ TraderRow.wallet a = "7" /\ TraderRow.wallet b = "A"
    /\ TraderRow.volume a = TraderRow.volume b.
Proof.
  eexists. eexists. split; [vm_compute; reflexivity|].
  repeat split.
Qed.

(** ** Interval *)

Section ScannedFacts.

Variable X : Type.
Variable time : X -> Z.
Variable from : number Z.

Lemma scanned_all txs :
  short_circuited time from txs = false -> scanned time from txs = txs.
Proof.
  induction txs as [|tx txs IH]; simpl; [reflexivity|].
  destruct (lt (time tx) from); [discriminate|].
  simpl. intros H. now rewrite IH.
Qed.

Lemma scanned_app txs txs' :
  short_circuited time from txs = false ->
  scanned time from (txs ++ txs') = txs ++ scanned time from txs'.
Proof.
  induction txs as [|tx txs IH]; simpl; [reflexivity|].
  destruct (lt (time tx) from); [discriminate|].
  simpl. intros H. now rewrite IH.
Qed.

Lemma scanned_app_stop txs txs' :
  short_circuited time from txs = true ->
  scanned time from (txs ++ txs') = scanned time from txs.
Proof.
  induction txs as [|tx txs IH]; simpl; [discriminate|].
  destruct (lt (time tx) from); [reflexivity|].
  simpl. intros H. now rewrite IH.
Qed.

Lemma scanned_incl txs tx : In tx (scanned time from txs) -> In tx txs.
Proof.
  induction txs as [|tx' txs IH]; simpl; [tauto|].
  destruct (lt (time tx') from); simpl; [tauto|].
  intros [H|H]; [now left | right; auto].
Qed.

Lemma scanned_not_older txs tx :
  In tx (scanned time from txs) -> lt (time tx) from = false.
Proof.
  induction txs as [|tx' txs IH]; simpl; [tauto|].
  destruct (lt (time tx') from) eqn:E; simpl; [tauto|].
  intros [<-|H]; [exact E | auto].
Qed.

End ScannedFacts.

(** In a stream in descending order of time the scan reads every
    record that is not older than [from]. *)
Lemma descending_scanned (X : Type) (time : X -> Z) f txs tx :
  descending time txs = true ->
  In tx txs -> f <= time tx ->
  In tx (scanned time (Num f) txs).
Proof.
  induction txs as [|tx' txs IH]; simpl; [tauto|].
  intros D I F. apply andb_prop in D. destruct D as [A D].
  rewrite forallb_forall in A.
  destruct (time tx' <? f) eqn:E.
  - exfalso. apply Z.ltb_lt in E.
    destruct I as [<-|I]; [lia|].
    specialize (A tx I). apply Z.leb_le in A. lia.
  - destruct I as [<-|I]; [now left | right; auto].
Qed.

Lemma offsets_app offset k m :
  offsets offset (k + m) =
  offsets offset k ++ offsets (offset + pageSize * Z.of_nat k) m.
Proof.
  revert offset. induction k as [|k IH]; intros offset.
  - simpl. f_equal. lia.
  - cbn [Nat.add offsets app]. rewrite IH. do 3 f_equal. lia.
Qed.

Lemma interval_pro_step_map from to up st offset b st' c :
  up offset = Resp b ->
  IntervalSkeleton.pro_step from to st offset b = (st', c) ->
  st' =
  fold_left (accumulate (in_window from to) (later Transaction.blockTime))
    (scanned Transaction.blockTime from (page data up offset)) st
  /\ (c = true ->
      short_circuited Transaction.blockTime from (page data up offset)
      = false).
Proof.
  intros U. unfold IntervalSkeleton.pro_step, page. rewrite U.
  destruct b as [r|]; [|intros E; inversion E; split; [reflexivity|discriminate]].
  destruct (length (data r) =? 0)%nat eqn:L.
  - apply length_zero_nil in L. rewrite L.
    intros E; inversion E; split; [reflexivity|discriminate].
  - rewrite interval_pro_scan. intros E. inversion E. split; [reflexivity|].
    intros C. apply andb_prop in C. destruct C as [_ C].
    now apply negb_true_iff in C.
Qed.

Lemma interval_public_step_map from to up st offset b st' c :
  up offset = Resp b ->
  IntervalSkeleton.public_step from to st offset b = (st', c) ->
  st' =
  fold_left (accumulate (public_in_window to) (later PublicTx.blockTime))
    (scanned PublicTx.blockTime from (page (@items _) up offset)) st
  /\ (c = true ->
      short_circuited PublicTx.blockTime from (page (@items _) up offset)
      = false).
Proof.
  intros U. unfold IntervalSkeleton.public_step, page, items. rewrite U.
  destruct b as [r|]; [|intros E; inversion E; split; [reflexivity|discriminate]].
  destruct (length r =? 0)%nat eqn:L.
  - apply length_zero_nil in L. rewrite L.
    intros E; inversion E; split; [reflexivity|discriminate].
  - rewrite interval_public_scan. intros E. inversion E. split; [reflexivity|].
    intros C. apply andb_prop in C. destruct C as [_ C].
    now apply negb_true_iff in C.
Qed.

(** The map a run leaves is the fold of the records read from the
    pages fetched: those before the first one older than [from]. *)
Lemma interval_pro_run_map from to up st offset log st' :
  run IntervalSkeleton.guard (IntervalSkeleton.pro_step from to)
    up st offset log st' ->
  st' =
  fold_left (accumulate (in_window from to) (later Transaction.blockTime))
    (scanned Transaction.blockTime from (fetched data up log)) st.
Proof.
  induction 1 as [| st offset b st' G U E | st offset b st1 log st' G U E R IH].
  - discriminate.
  - rewrite fetched_cons. unfold fetched. simpl. rewrite app_nil_r.
    eapply interval_pro_step_map in E; [|exact U]. exact (proj1 E).
  - eapply interval_pro_step_map in E; [|exact U]. destruct E as [E C].
    specialize (C eq_refl).
    rewrite fetched_cons, scanned_app by exact C.
    rewrite scanned_all in E by exact C.
    now rewrite fold_left_app, IH, E.
Qed.

Lemma interval_public_run_map from to up st offset log st' :
  run IntervalSkeleton.guard (IntervalSkeleton.public_step from to)
    up st offset log st' ->
  st' =
  fold_left (accumulate (public_in_window to) (later PublicTx.blockTime))
    (scanned PublicTx.blockTime from (fetched (@items _) up log)) st.
Proof.
  induction 1 as [| st offset b st' G U E | st offset b st1 log st' G U E R IH].
  - discriminate.
  - rewrite fetched_cons. unfold fetched. simpl. rewrite app_nil_r.
    eapply interval_public_step_map in E; [|exact U]. exact (proj1 E).
  - eapply interval_public_step_map in E; [|exact U]. destruct E as [E C].
    specialize (C eq_refl).
    rewrite fetched_cons, scanned_app by exact C.
    rewrite scanned_all in E by exact C.
    now rewrite fold_left_app, IH, E.
Qed.

Lemma interval_pro_rows fuel key up from to rows log :
  Interval.Pro.fetchActiveWallets fuel key up from to = Returned rows log ->
  rows =
  Interval.rows
    (fold_left (accumulate (in_window from to) (later Transaction.blockTime))
       (scanned Transaction.blockTime from (fetched data up log)) [])
  /\ log = offsets 0 (length log).
Proof.
  unfold Interval.Pro.fetchActiveWallets.
  destruct (key_missing key); [discriminate|].
  intros H. apply and_then_returned in H. destruct H as [aw [H ->]].
  rewrite interval_pro_paged in H. apply paged_run in H.
  split; [|exact (run_offsets H)].
  apply interval_pro_run_map in H. now rewrite H.
Qed.

Lemma interval_public_rows fuel up from to rows log :
  Interval.Public.fetchActiveWallets fuel up from to = Returned rows log ->
  rows =
  Interval.rows
    (fold_left (accumulate (public_in_window to) (later PublicTx.blockTime))
       (scanned PublicTx.blockTime from (fetched (@items _) up log)) [])
  /\ log = offsets 0 (length log).
Proof.
  unfold Interval.Public.fetchActiveWallets.
  intros H. apply and_then_returned in H. destruct H as [aw [H ->]].
  rewrite interval_public_paged in H. apply paged_run in H.
  split; [|exact (run_offsets H)].
  apply interval_public_run_map in H. now rewrite H.
Qed.

Lemma interval_rows_wallets activeWallets :
  map ActiveRow.wallet (Interval.rows activeWallets) = keys activeWallets.
Proof.
  unfold Interval.rows, keys. rewrite map_map. apply map_ext. now intros [w l].
Qed.

(** ** Each wallet once *)

(** C5, as the code has it.  The trader and interval aggregations keep
    one entry per wallet address, into which every new observation of
    the wallet is merged: their arrays hold each wallet at most once.
    The holder aggregation keeps no such map: it emits one row per
    qualifying upstream record, in upstream order. *)
Theorem wallets_emitted_once
    (fuel : nat) (key : option string)
    (up : Upstream SolscanTransferResponse)
    (publicUp : Upstream (list PublicTx.t))
    (holdersUp : Upstream Holders.Pro.SolscanResponse)
    (limit from to : number Z) (minAmount : number Q) :
  (forall rows log,
     Traders.Pro.fetchTopTraders key up limit = Returned rows log ->
     NoDup (map TraderRow.wallet rows))
  /\ (forall rows log,
        Traders.Public.fetchTopTraders publicUp limit = Returned rows log ->
        NoDup (map TraderRow.wallet rows))
  /\ (forall rows log,
        Interval.Pro.fetchActiveWallets fuel key up from to
        = Returned rows log ->
        NoDup (map ActiveRow.wallet rows))
  /\ (forall rows log,
        Interval.Public.fetchActiveWallets fuel publicUp from to
        = Returned rows log ->
        NoDup (map ActiveRow.wallet rows))
  /\ (forall rows log,
        Holders.Pro.fetchHolders fuel key holdersUp limit minAmount
        = Returned rows log ->
        rows =
        slice0 (Holders.qualifying minAmount
                  (fetched Holders.Pro.data holdersUp log)) limit).
Proof.
  split; [|split; [|split; [|split]]]; intros rows log H.
  - apply traders_pro_rows in H.
    apply top_rows_double in H; [|apply traders_pro_volumes].
    apply (proj1 (proj2 (proj2 H))).
    eapply Permutation_NoDup;
      [symmetry; apply traders_pro_unsorted_wallets|].
    apply accumulate_nodup. constructor.
  - apply traders_public_rows, top_rows in H.
    apply (proj1 (proj2 (proj2 H))).
    eapply Permutation_NoDup;
      [symmetry; apply traders_public_unsorted_wallets|].
    apply accumulate_nodup. constructor.
  - apply interval_pro_rows in H. destruct H as [-> _].
    rewrite interval_rows_wallets. apply accumulate_nodup. constructor.
  - apply interval_public_rows in H. destruct H as [-> _].
    rewrite interval_rows_wallets. apply accumulate_nodup. constructor.
  - now apply holders_pro_rows in H.
Qed.

Lemma wallets_emitted_once_witness :
  NoDup (map TraderRow.wallet
           [ {| TraderRow.wallet := "A";
                TraderRow.volume := 3%float;
                TraderRow.lastTx := 200 |} ])
  /\ NoDup (map ActiveRow.wallet
              [ {| ActiveRow.wallet := "B"; ActiveRow.lastTx := 120 |} ]).
Proof.
  split.
  - eapply (proj1 (@wallets_emitted_once 2 (Some "key") example_transfers
                     (@nothing _) example_holders (Num 10) (Num 100)
                     (Num 150) (Num 0%Q))).
    vm_compute. reflexivity.
  - eapply (proj1 (proj2 (proj2
              (@wallets_emitted_once 2 (Some "key") example_window
                 (@nothing _) example_holders (Num 10) (Num 100)
                 (Num 150) (Num 0%Q))))).
    vm_compute. reflexivity.
Defined.

(** C5 as stated fails for the holders: an owner with two token
    accounts is listed twice upstream and emitted twice. *)
Lemma holders_repeat_wallet :
  exists rows log,
    Holders.Pro.fetchHolders 2 (Some "key") two_accounts (Num 10) (Num 0%Q)
    = Returned rows log
    /\ ~ NoDup (map HolderRow.wallet rows).
Proof.
  eexists. eexists. split; [vm_compute; reflexivity|].
  simpl. intros N. inversion N as [|? ? I _]. apply I. now left.
Qed.

(** ** The window *)

Lemma in_window_some f t tx w :
  in_window (Num f) (Num t) tx = Some w <->
  Transaction.owner tx = w
  /\ f <= Transaction.blockTime tx <= t.
Proof.
  unfold in_window, le, ge.
  destruct (Transaction.blockTime tx <=? t) eqn:E1;
    destruct (f <=? Transaction.blockTime tx) eqn:E2; simpl;
    try apply Z.leb_le in E1; try apply Z.leb_le in E2;
    try apply Z.leb_gt in E1; try apply Z.leb_gt in E2;
    split; try discriminate; try (intros [_ ?]; lia).
  - intros H. inversion H. split; [reflexivity | lia].
  - intros [-> _]. reflexivity.
Qed.

Lemma public_in_window_some t tx w :
  public_in_window (Num t) tx = Some w <->
  PublicTx.wallet tx = Some w /\ PublicTx.blockTime tx <= t.
Proof.
  unfold public_in_window, le.
  destruct (PublicTx.wallet tx) as [k|]; [|split; [discriminate|intros [? _]; discriminate]].
  destruct (PublicTx.blockTime tx <=? t) eqn:E;
    [apply Z.leb_le in E | apply Z.leb_gt in E]; split.
  - intros H. inversion H. now split.
  - intros [H _]. exact H.
  - discriminate.
  - intros [_ ?]. lia.
Qed.

(** The rows of a map of active wallets, by wallet. *)
Lemma active_rows (X : Type) (key : X -> option string) (time : X -> Z)
    (read : list X) :
  let rows :=
    Interval.rows (fold_left (accumulate key (later time)) read []) in
  (forall w,
     (exists r, In r rows /\ ActiveRow.wallet r = w) <->
     (exists tx, In tx read /\ key tx = Some w))
  /\ (forall r, In r rows ->
        greatest (ActiveRow.lastTx r)
          (map time (observed key (ActiveRow.wallet r) read))).
Proof.
  intros rows. subst rows. split.
  - intros w. split.
    + intros [r [I <-]]. unfold Interval.rows in I.
      apply in_map_iff in I. destruct I as [[k l] [<- I]].
      apply in_get in I; [|apply accumulate_nodup; constructor].
      rewrite accumulate_summary in I. cbn [ActiveRow.wallet].
      destruct (observed key k read) as [|tx txs] eqn:O; [discriminate|].
      exists tx. apply (observed_in key k read tx). rewrite O. now left.
    + intros [tx [I K]].
      destruct (@accumulate_covers _ _ _ key (later time)
                  (fun '(wallet, lastTx) =>
                     {| ActiveRow.wallet := wallet;
                        ActiveRow.lastTx := lastTx |})
                  ActiveRow.wallet read tx w) as [r H];
        [reflexivity | exact I | exact K |].
      exists r. exact H.
  - intros r I. unfold Interval.rows in I.
    apply in_map_iff in I. destruct I as [[k l] [<- I]].
    apply in_get in I; [|apply accumulate_nodup; constructor].
    rewrite accumulate_summary in I. cbn [ActiveRow.wallet ActiveRow.lastTx].
    now apply summary_later.
Qed.

(** With the pages in descending order of time, no record inside the
    window is left unread: none of the pages fetched, and when the
    short-circuit fired none of the later pages either. *)
Lemma short_circuit_omits_nothing (B X : Type) (content : B -> list X)
    (time : X -> Z) (up : Upstream B) f log n tx :
  log = offsets 0 (length log) ->
  (length log <= n)%nat ->
  descending time (fetched content up (offsets 0 n)) = true ->
  n = length log
  \/ short_circuited time (Num f) (fetched content up log) = true ->
  In tx (fetched content up (offsets 0 n)) ->
  f <= time tx ->
  In tx (scanned time (Num f) (fetched content up log)).
Proof.
  intros O L D C I F.
  pose proof (@descending_scanned _ time f _ tx D I F) as H.
  replace n with (length log + (n - length log))%nat in H by lia.
  rewrite offsets_app, <- O, fetched_app in H.
  destruct C as [->|C].
  - rewrite Nat.sub_diag in H. cbn [offsets] in H.
    change (fetched content up []) with (@nil X) in H.
    now rewrite app_nil_r in H.
  - now rewrite scanned_app_stop in H by exact C.
Qed.

Lemma greatest_observed (X : Type) (key : X -> option string) (time : X -> Z)
    w read m :
  greatest m (map time (observed key w read)) ->
  (exists tx, In tx read /\ key tx = Some w /\ time tx = m)
  /\ (forall tx, In tx read -> key tx = Some w -> time tx <= m).
Proof.
  intros [I B]. split.
  - apply in_map_iff in I. destruct I as [tx [E O]].
    apply observed_in in O. exists tx. tauto.
  - intros tx R K. apply B. apply in_map. now apply observed_in.
Qed.

Lemma not_older f b : lt b (Num f) = false <-> f <= b.
Proof. unfold lt. rewrite Z.ltb_ge. tauto. Qed.

(** C2. A wallet is in the output of the interval aggregation if and
    only if one of the records read has it as wallet and a blockTime
    with [from <= blockTime <= to]; its lastTx is the greatest such
    blockTime; and when the pages are in descending order of
    blockTime, every record inside the window was read: those of the
    pages fetched and, when the scan stopped at a record older than
    [from], those of the later pages. *)
Theorem active_wallets_in_window
    (fuel : nat) (key : option string)
    (up : Upstream SolscanTransferResponse)
    (publicUp : Upstream (list PublicTx.t)) (f t : Z) :
  (forall rows log,
     Interval.Pro.fetchActiveWallets fuel key up (Num f) (Num t)
     = Returned rows log ->
     let read := scanned Transaction.blockTime (Num f) (fetched data up log) in
     (forall w,
        (exists r, In r rows /\ ActiveRow.wallet r = w) <->
        (exists tx, In tx read /\ Transaction.owner tx = w
                    /\ f <= Transaction.blockTime tx <= t))
     /\ (forall r, In r rows ->
           (exists tx, In tx read
                       /\ Transaction.owner tx = ActiveRow.wallet r
                       /\ f <= Transaction.blockTime tx <= t
                       /\ Transaction.blockTime tx = ActiveRow.lastTx r)
           /\ (forall tx, In tx read ->
                 Transaction.owner tx = ActiveRow.wallet r ->
                 f <= Transaction.blockTime tx <= t ->
                 Transaction.blockTime tx <= ActiveRow.lastTx r))
     /\ (forall n tx,
           (length log <= n)%nat ->
           descending Transaction.blockTime (fetched data up (offsets 0 n))
           = true ->
           n = length log
           \/ short_circuited Transaction.blockTime (Num f)
                (fetched data up log) = true ->
           In tx (fetched data up (offsets 0 n)) ->
           f <= Transaction.blockTime tx <= t ->
           In tx read))
  /\ (forall rows log,
        Interval.Public.fetchActiveWallets fuel publicUp (Num f) (Num t)
        = Returned rows log ->
        let read :=
          scanned PublicTx.blockTime (Num f)
            (fetched (@items _) publicUp log) in
        (forall w,
           (exists r, In r rows /\ ActiveRow.wallet r = w) <->
           (exists tx, In tx read /\ PublicTx.wallet tx = Some w
                       /\ f <= PublicTx.blockTime tx <= t))
        /\ (forall r, In r rows ->
              (exists tx, In tx read
                          /\ PublicTx.wallet tx = Some (ActiveRow.wallet r)
                          /\ f <= PublicTx.blockTime tx <= t
                          /\ PublicTx.blockTime tx = ActiveRow.lastTx r)
              /\ (forall tx, In tx read ->
                    PublicTx.wallet tx = Some (ActiveRow.wallet r) ->
                    f <= PublicTx.blockTime tx <= t ->
                    PublicTx.blockTime tx <= ActiveRow.lastTx r))
        /\ (forall n tx,
              (length log <= n)%nat ->
              descending PublicTx.blockTime
                (fetched (@items _) publicUp (offsets 0 n)) = true ->
              n = length log
              \/ short_circuited PublicTx.blockTime (Num f)
                   (fetched (@items _) publicUp log) = true ->
              In tx (fetched (@items _) publicUp (offsets 0 n)) ->
              f <= PublicTx.blockTime tx <= t ->
              In tx read)).
Proof.
  split; intros rows log H read.
  - apply interval_pro_rows in H. destruct H as [-> O]. fold read.
    destruct (active_rows (in_window (Num f) (Num t)) Transaction.blockTime
                read) as [W G].
    split; [|split].
    + intros w. rewrite W. split; intros [tx [I K]]; exists tx;
        (split; [exact I|]); now apply in_window_some.
    + intros r I. apply G, greatest_observed in I. destruct I as [[tx E] B].
      split.
      * exists tx. rewrite in_window_some in E. tauto.
      * intros tx' I' E1 E2. apply B; [exact I'|].
        now apply in_window_some.
    + intros n tx L D C I F.
      eapply short_circuit_omits_nothing; try eassumption. lia.
  - apply interval_public_rows in H. destruct H as [-> O]. fold read.
    destruct (active_rows (public_in_window (Num t)) PublicTx.blockTime
                read) as [W G].
    split; [|split].
    + intros w. rewrite W. split; intros [tx [I K]]; exists tx;
        (split; [exact I|]).
      * apply public_in_window_some in K.
        apply scanned_not_older, not_older in I. split; [tauto | lia].
      * apply public_in_window_some. split; [tauto | lia].
    + intros r I. apply G, greatest_observed in I. destruct I as [[tx E] B].
      split.
      * exists tx. rewrite public_in_window_some in E.
        destruct E as [I [[K T] M]].
        pose proof I as I'. apply scanned_not_older, not_older in I'.
        repeat split; try assumption; lia.
      * intros tx' I' E1 E2. apply B; [exact I'|].
        apply public_in_window_some. split; [exact E1 | lia].
    + intros n tx L D C I F.
      eapply short_circuit_omits_nothing; try eassumption. lia.
Qed.

Lemma active_wallets_in_window_witness :
  let rows := [ {| ActiveRow.wallet := "B"; ActiveRow.lastTx := 120 |} ] in
  let read :=
    scanned Transaction.blockTime (Num 100)
      (fetched data example_window [0]) in
  (forall w,
     (exists r, In r rows /\ ActiveRow.wallet r = w) <->
     (exists tx, In tx read /\ Transaction.owner tx = w
                 /\ 100 <= Transaction.blockTime tx <= 150))
  /\ (forall r, In r rows ->
        (exists tx, In tx read
                    /\ Transaction.owner tx = ActiveRow.wallet r
                    /\ 100 <= Transaction.blockTime tx <= 150
                    /\ Transaction.blockTime tx = ActiveRow.lastTx r)
        /\ (forall tx, In tx read ->
              Transaction.owner tx = ActiveRow.wallet r ->
              100 <= Transaction.blockTime tx <= 150 ->
              Transaction.blockTime tx <= ActiveRow.lastTx r))
  /\ (forall n tx,
        (length [0] <= n)%nat ->
        descending Transaction.blockTime
          (fetched data example_window (offsets 0 n)) = true ->
        n = length [0]
        \/ short_circuited Transaction.blockTime (Num 100)
             (fetched data example_window [0]) = true ->
        In tx (fetched data example_window (offsets 0 n)) ->
        100 <= Transaction.blockTime tx <= 150 ->
        In tx read).
Proof.
  intros rows.
  apply (proj1 (@active_wallets_in_window 2 (Some "key") example_window
                  (@nothing _) 100 150) rows [0]).
  reflexivity.
Defined.

(** ** The examples of the specification *)

Example parseInt_examples :
  parseInt "50" = Num 50
  /\ parseInt "  -7px" = Num (-7)
  /\ parseInt "abc" = NaN
  /\ parseInt "" = NaN.
Proof. repeat split; reflexivity. Qed.

(** Holders A (50) and B (5), minAmount 10, limit 10: only A. *)
Example holders_example :
  Holders.Pro.fetchHolders 2 (Some "key") example_holders (Num 10) (Num 10%Q)
  = Returned [ {| HolderRow.wallet := "A"; HolderRow.amount := 50 |} ] [0].
Proof. reflexivity. Qed.

(** Window 100..150, wallet B active at 120 and at 90: B, lastTx 120. *)
Example interval_example :
  Interval.Pro.fetchActiveWallets 2 (Some "key") example_window
    (Num 100) (Num 150)
  = Returned [ {| ActiveRow.wallet := "B"; ActiveRow.lastTx := 120 |} ] [0].
Proof. reflexivity. Qed.

(** The public endpoints on a page signed by B, A, B and, before the
    window, B: three transactions are counted for B by the traders,
    two fall in the window of the interval. *)
Example public_examples :
  Traders.Public.fetchTopTraders example_public_tx (Num 10)
  = Returned
      [ {| TraderRow.wallet := "B"; TraderRow.volume := inject_Z 3;
           TraderRow.lastTx := 120 |};
        {| TraderRow.wallet := "A"; TraderRow.volume := inject_Z 1;
           TraderRow.lastTx := 110 |} ] [0]
  /\ Interval.Public.fetchActiveWallets 2 example_public_tx
       (Num 100) (Num 150)
     = Returned
         [ {| ActiveRow.wallet := "B"; ActiveRow.lastTx := 120 |};
           {| ActiveRow.wallet := "A"; ActiveRow.lastTx := 110 |} ] [0].
Proof. split; reflexivity. Qed.

(** ** Limits and bounds that are not counts *)

(** A negative limit: the holders loop does not run, and the traders'
    [slice(0, -1)] drops the last row only. *)
Example negative_limit :
  Holders.Pro.fetchHolders 2 (Some "key") example_holders (Num (-1))
    (Num 0%Q) = Returned [] []
  /\ exists r,
       Traders.Pro.fetchTopTraders (Some "key") two_traders (Num (-1))
       = Returned [r] [0]
       /\ TraderRow.wallet r = "A".
Proof.
  split; [reflexivity|]. eexists. split; [vm_compute; reflexivity|].
  reflexivity.
Qed.

(** The public interval endpoint tests [blockTime <= to] only: with
    an unparseable [from] and a numeric [to] it emits the wallets seen
    up to [to]. *)
Example public_interval_unparseable_from :
  Interval.Public.fetchActiveWallets 2 example_public_tx NaN (Num 150)
  = Returned
      [ {| ActiveRow.wallet := "B"; ActiveRow.lastTx := 120 |};
        {| ActiveRow.wallet := "A"; ActiveRow.lastTx := 110 |} ] [0].
Proof. reflexivity. Qed.

(** * Further properties of the endpoints *)

(** ** The handlers of the public API versions *)

Lemma holders_js_handler_cases parseFloat fuel up req :
  HoldersJs.handler parseFloat fuel up req =
  if valid_token (Holders.token req) then
    respond_public
      (Holders.Public.fetchHolders fuel up
         (parseInt (ToString (with_default "100" (Holders.limit req))))
         (parseFloat (ToString (with_default "0" (Holders.minAmount req)))))
  else Served 400 (ErrorBody "Token address is required.") [].
Proof.
  unfold HoldersJs.handler, valid_token.
  destruct (Holders.token req) as [[t|l]|]; reflexivity.
Qed.

Lemma traders_js_handler_cases up req :
  TradersJs.handler up req =
  if valid_token (Traders.token req) then
    respond_public
      (Traders.Public.fetchTopTraders up
         (parseInt (ToString (with_default "50" (Traders.limit req)))))
  else Served 400 (ErrorBody "Token address is required.") [].
Proof.
  unfold TradersJs.handler, valid_token.
  destruct (Traders.token req) as [[t|l]|]; reflexivity.
Qed.

Lemma interval_js_handler_cases fuel up req :
  IntervalJs.handler fuel up req =
  if valid_token (Interval.token req) then
    if missing (Interval.from req) || missing (Interval.to req) then
      Served 400 (ErrorBody "A time range (from, to) is required.") []
    else
      respond_public
        (Interval.Public.fetchActiveWallets fuel up
           (parseIntQ (Interval.from req)) (parseIntQ (Interval.to req)))
  else Served 400 (ErrorBody "Token address is required.") [].
Proof.
  unfold IntervalJs.handler, valid_token.
  destruct (Interval.token req) as [[t|l]|]; reflexivity.
Qed.

Lemma served_log_respond_public (A : Type) (o : outcome (list A)) :
  served_log (respond_public o) = log_of o.
Proof. destruct o; reflexivity. Qed.

(** X1. The handlers of holders.js, traders.js and interval.js answer
    a request whose token is missing, empty or repeated (and, for the
    interval, whose from or to is missing or empty) with status 400
    and a body [{error}], before any upstream request. *)
Theorem public_handlers_validate
    (parseFloat : string -> number Q) (fuel : nat)
    (holdersUp : Upstream (list Holder.t)) (txUp : Upstream (list PublicTx.t))
    (h : Holders.Query) (t : Traders.Query) (i : Interval.Query) :
  (valid_token (Holders.token h) = false ->
   HoldersJs.handler parseFloat fuel holdersUp h
   = Served 400 (ErrorBody "Token address is required.") [])
  /\ (valid_token (Traders.token t) = false ->
      TradersJs.handler txUp t
      = Served 400 (ErrorBody "Token address is required.") [])
  /\ (valid_token (Interval.token i) = false ->
      IntervalJs.handler fuel txUp i
      = Served 400 (ErrorBody "Token address is required.") [])
  /\ (valid_token (Interval.token i) = true ->
      missing (Interval.from i) = true \/ missing (Interval.to i) = true ->
      IntervalJs.handler fuel txUp i
      = Served 400 (ErrorBody "A time range (from, to) is required.") []).
Proof.
  rewrite holders_js_handler_cases, traders_js_handler_cases,
    interval_js_handler_cases.
  split; [|split; [|split]].
  - now intros ->.
  - now intros ->.
  - now intros ->.
  - intros -> [M|M]; rewrite M; [reflexivity | now rewrite orb_true_r].
Qed.

Lemma public_handlers_validate_witness :
  HoldersJs.handler (fun _ => NaN) 3 example_public_holders
    {| Holders.token := Some (QArr ["a"; "b"]); Holders.limit := None;
       Holders.minAmount := None |}
  = Served 400 (ErrorBody "Token address is required.") []
  /\ IntervalJs.handler 3 example_public_tx
       {| Interval.token := Some (QStr "mint");
          Interval.from := Some (QStr ""); Interval.to := Some (QStr "9") |}
     = Served 400 (ErrorBody "A time range (from, to) is required.") [].
Proof.
  pose proof
    (@public_handlers_validate (fun _ => NaN) 3 example_public_holders
       example_public_tx
       {| Holders.token := Some (QArr ["a"; "b"]); Holders.limit := None;
          Holders.minAmount := None |}
       {| Traders.token := None; Traders.limit := None |}
       {| Interval.token := Some (QStr "mint");
          Interval.from := Some (QStr ""); Interval.to := Some (QStr "9") |})
    as [H [_ [_ I]]].
  split; [apply H; reflexivity|].
  apply I; [reflexivity | left; reflexivity].
Defined.

(** X2. In holders.js, traders.js and interval.js a rejected page
    fetch is answered with status 500 and the loop's failed-to-fetch
    message, without rows; the rejected request is the last one made
    and every offset was requested once. *)
Theorem public_failed_fetch_aborts
    (parseFloat : string -> number Q) (fuel : nat)
    (holdersUp : Upstream (list Holder.t)) (txUp : Upstream (list PublicTx.t))
    (h : Holders.Query) (t : Traders.Query) (i : Interval.Query) (o : Z) :
  (In o (served_log (HoldersJs.handler parseFloat fuel holdersUp h)) ->
   holdersUp o = Reject ->
   exists l,
     HoldersJs.handler parseFloat fuel holdersUp h
     = Served 500 (ErrorBody "Failed to fetch holder data from Solscan.")
         (l ++ [o])
     /\ l ++ [o] = offsets 0 (S (length l)))
  /\ (In o (served_log (TradersJs.handler txUp t)) ->
      txUp o = Reject ->
      exists l,
        TradersJs.handler txUp t
        = Served 500
            (ErrorBody "Failed to fetch transaction data from Solscan.")
            (l ++ [o])
        /\ l ++ [o] = offsets 0 (S (length l)))
  /\ (In o (served_log (IntervalJs.handler fuel txUp i)) ->
      txUp o = Reject ->
      exists l,
        IntervalJs.handler fuel txUp i
        = Served 500
            (ErrorBody "Failed to fetch transaction data from Solscan.")
            (l ++ [o])
        /\ l ++ [o] = offsets 0 (S (length l))).
Proof.
  rewrite holders_js_handler_cases, traders_js_handler_cases,
    interval_js_handler_cases.
  unfold Holders.Public.fetchHolders, Traders.Public.fetchTopTraders,
    Interval.Public.fetchActiveWallets.
  rewrite holders_public_paged, traders_public_paged, interval_public_paged.
  split; [|split].
  - destruct (valid_token (Holders.token h)); [|contradiction].
    rewrite served_log_respond_public, log_of_and_then. intros I R.
    destruct (@paged_aborts _ _ _ _ _ _ _ _ _ _ I R) as [l [E O]].
    exists l. split; [|exact O]. now rewrite E.
  - destruct (valid_token (Traders.token t)); [|contradiction].
    rewrite served_log_respond_public, log_of_and_then. intros I R.
    destruct (@paged_aborts _ _ _ _ _ _ _ _ _ _ I R) as [l [E O]].
    exists l. split; [|exact O]. now rewrite E.
  - destruct (valid_token (Interval.token i)); [|contradiction].
    destruct (missing (Interval.from i) || missing (Interval.to i));
      [contradiction|].
    rewrite served_log_respond_public, log_of_and_then. intros I R.
    destruct (@paged_aborts _ _ _ _ _ _ _ _ _ _ I R) as [l [E O]].
    exists l. split; [|exact O]. now rewrite E.
Qed.

Lemma public_failed_fetch_aborts_witness :
  (exists l,
     HoldersJs.handler (fun _ => Num 0%Q) 5
       (first_page_only busy_public_holders)
       {| Holders.token := Some (QStr "mint"); Holders.limit := None;
          Holders.minAmount := None |}
     = Served 500 (ErrorBody "Failed to fetch holder data from Solscan.")
         (l ++ [50])
     /\ l ++ [50] = offsets 0 (S (length l)))
  /\ (exists l,
        TradersJs.handler (first_page_only busy_public_tx)
          {| Traders.token := Some (QStr "mint"); Traders.limit := None |}
        = Served 500
            (ErrorBody "Failed to fetch transaction data from Solscan.")
            (l ++ [50])
        /\ l ++ [50] = offsets 0 (S (length l)))
  /\ (exists l,
        IntervalJs.handler 5 (first_page_only busy_public_tx)
          {| Interval.token := Some (QStr "mint");
             Interval.from := Some (QStr "100");
             Interval.to := Some (QStr "150") |}
        = Served 500
            (ErrorBody "Failed to fetch transaction data from Solscan.")
            (l ++ [50])
        /\ l ++ [50] = offsets 0 (S (length l))).
Proof.
  pose proof
    (@public_failed_fetch_aborts (fun _ => Num 0%Q) 5
       (first_page_only busy_public_holders)
       (first_page_only busy_public_tx)
       {| Holders.token := Some (QStr "mint"); Holders.limit := None;
          Holders.minAmount := None |}
       {| Traders.token := Some (QStr "mint"); Traders.limit := None |}
       {| Interval.token := Some (QStr "mint");
          Interval.from := Some (QStr "100");
          Interval.to := Some (QStr "150") |} 50)
    as [H [T I]].
  split; [|split]; [apply H | apply T | apply I];
    solve [vm_compute; tauto | vm_compute; reflexivity].
Defined.

(** ** The traders endpoints always answer *)

Lemma log_of_requested (A : Type) offset (o : outcome A) :
  (length (log_of (requested offset o)) <= S (length (log_of o)))%nat.
Proof. destruct o; simpl; lia. Qed.

Lemma traders_pro_requests fuel up st offset :
  Z.of_nat
    (length
       (log_of
          (paged "Failed to fetch transfer data from Solscan."
             TradersSkeleton.pro_guard TradersSkeleton.pro_step
             fuel up st offset)))
  <= Z.max 0 (Traders.Pro.maxTransactionsToProcess - snd st).
Proof.
  revert st offset.
  induction fuel as [|fuel IH]; intros st offset;
    [cbn [paged log_of length]; lia|].
  rewrite paged_unfold.
  destruct (TradersSkeleton.pro_guard st offset) eqn:G;
    [|cbn [log_of length]; lia].
  unfold TradersSkeleton.pro_guard in G. apply Z.ltb_lt in G.
  destruct (up offset) as [b|]; [|cbn [log_of length]; lia].
  destruct (TradersSkeleton.pro_step st offset b) as [st' [|]] eqn:T;
    [|cbn [log_of length]; lia].
  assert (P : snd st < snd st').
  { unfold TradersSkeleton.pro_step in T.
    destruct b as [r|]; [|discriminate].
    destruct (length (data r)) as [|n] eqn:E; simpl Nat.eqb in T;
      cbv iota in T; [discriminate|].
    inversion T. cbn [snd]. lia. }
  match goal with
  | |- context [requested offset ?o] =>
      pose proof (log_of_requested offset o) as L
  end.
  specialize (IH st' (offset + pageSize)). lia.
Qed.

Lemma traders_public_requests fuel up st offset :
  pageSize
  * Z.of_nat
      (length
         (log_of
            (paged "Failed to fetch transaction data from Solscan."
               TradersSkeleton.public_guard TradersSkeleton.public_step
               fuel up st offset)))
  <= Z.max 0 (Traders.Public.maxTransactionsToProcess + 49 - offset).
Proof.
  revert st offset.
  induction fuel as [|fuel IH]; intros st offset;
    [cbn [paged log_of length]; lia|].
  rewrite paged_unfold.
  destruct (TradersSkeleton.public_guard st offset) eqn:G;
    [|cbn [log_of length]; lia].
  unfold TradersSkeleton.public_guard in G. apply Z.ltb_lt in G.
  destruct (up offset) as [b|]; [|cbn [log_of length]; unfold pageSize; lia].
  destruct (TradersSkeleton.public_step st offset b) as [st' [|]];
    [|cbn [log_of length]; unfold pageSize; lia].
  match goal with
  | |- context [requested offset ?o] =>
      pose proof (log_of_requested offset o) as L
  end.
  specialize (IH st' (offset + pageSize)). unfold pageSize in *. lia.
Qed.

(** X3. The traders endpoints answer every request: traders.ts after
    at most 1000 upstream requests and traders.js after at most ten,
    whatever the upstream serves or rejects. *)
Theorem traders_always_answer
    (key : option string) (up : Upstream SolscanTransferResponse)
    (publicUp : Upstream (list PublicTx.t)) (req : Traders.Query) :
  (exists status body log,
     Traders.Pro.handler key up req = Served status body log
     /\ (length log <= 1000)%nat)
  /\ (exists status body log,
        TradersJs.handler publicUp req = Served status body log
        /\ (length log <= 10)%nat).
Proof.
  rewrite traders_handler_cases, traders_js_handler_cases.
  destruct (valid_token (Traders.token req)).
  - split.
    + pose proof (@traders_pro_finishes key up
                    (parseInt (ToString (with_default "50" (Traders.limit req)))))
        as F.
      unfold Traders.Pro.fetchTopTraders in *.
      destruct (key_missing key).
      * do 3 eexists. split; [reflexivity | cbn [length]; lia].
      * rewrite traders_pro_paged in *.
        match goal with
        | |- context [paged ?m ?g ?s ?f ?u ?st ?o] =>
            pose proof (traders_pro_requests f u st o) as B;
            destruct (paged m g s f u st o) as [st' log|m' log|] eqn:E
        end;
          [| |now contradiction F];
          do 3 eexists; (split; [reflexivity|]);
          cbn [log_of length snd] in B;
          unfold Traders.Pro.maxTransactionsToProcess in B; lia.
    + pose proof (@traders_public_finishes publicUp
                    (parseInt (ToString (with_default "50" (Traders.limit req)))))
        as F.
      unfold Traders.Public.fetchTopTraders in *.
      rewrite traders_public_paged in *.
      match goal with
      | |- context [paged ?m ?g ?s ?f ?u ?st ?o] =>
          pose proof (traders_public_requests f u st o) as B;
          destruct (paged m g s f u st o) as [st' log|m' log|] eqn:E
      end;
        [| |now contradiction F];
        do 3 eexists; (split; [reflexivity|]);
        cbn [log_of length] in B;
        unfold Traders.Public.maxTransactionsToProcess, pageSize in B; lia.
  - split; do 3 eexists; (split; [reflexivity | cbn [length]; lia]).
Qed.

(** ** The API key *)

(** X4. With the API key missing or empty, the three Pro handlers
    answer a well-formed request with status 500 and the message that
    the key is not configured, without any upstream request. *)
Theorem missing_key_is_reported
    (parseFloat : string -> number Q) (fuel : nat) (key : option string)
    (holdersUp : Upstream Holders.Pro.SolscanResponse)
    (transfersUp : Upstream SolscanTransferResponse)
    (h : Holders.Query) (t : Traders.Query) (i : Interval.Query) :
  key_missing key = true ->
  (valid_token (Holders.token h) = true ->
   Holders.Pro.handler parseFloat fuel key holdersUp h
   = Served 500 (ErrorBody "Solscan API key is not configured.") [])
  /\ (valid_token (Traders.token t) = true ->
      Traders.Pro.handler key transfersUp t
      = Served 500 (ErrorBody "Solscan API key is not configured.") [])
  /\ (valid_token (Interval.token i) = true ->
      missing (Interval.from i) = false ->
      missing (Interval.to i) = false ->
      Interval.Pro.handler fuel key transfersUp i
      = Served 500 (ErrorBody "Solscan API key is not configured.") []).
Proof.
  intros K.
  rewrite holders_handler_cases, traders_handler_cases,
    interval_handler_cases.
  unfold Holders.Pro.fetchHolders, Traders.Pro.fetchTopTraders,
    Interval.Pro.fetchActiveWallets.
  rewrite K.
  split; [|split].
  - now intros ->.
  - now intros ->.
  - now intros -> -> ->.
Qed.

Lemma missing_key_is_reported_witness :
  Holders.Pro.handler (fun _ => Num 0%Q) 3 (Some "") example_holders
    {| Holders.token := Some (QStr "mint"); Holders.limit := None;
       Holders.minAmount := None |}
  = Served 500 (ErrorBody "Solscan API key is not configured.") []
  /\ Traders.Pro.handler (Some "") example_transfers
       {| Traders.token := Some (QStr "mint"); Traders.limit := None |}
     = Served 500 (ErrorBody "Solscan API key is not configured.") []
  /\ Interval.Pro.handler 3 (Some "") example_window
       {| Interval.token := Some (QStr "mint");
          Interval.from := Some (QStr "100");
          Interval.to := Some (QStr "150") |}
     = Served 500 (ErrorBody "Solscan API key is not configured.") [].
Proof.
  pose proof
    (@missing_key_is_reported (fun _ => Num 0%Q) 3 (Some "") example_holders
       example_transfers
       {| Holders.token := Some (QStr "mint"); Holders.limit := None;
          Holders.minAmount := None |}
       {| Traders.token := Some (QStr "mint"); Traders.limit := None |}
       {| Interval.token := Some (QStr "mint");
          Interval.from := Some (QStr "100");
          Interval.to := Some (QStr "150") |} eq_refl)
    as [H [T I]].
  split; [apply H; reflexivity|].
  split; [apply T; reflexivity|].
  apply I; reflexivity.
Defined.

(** ** The public interval endpoint with an unparseable bound *)

Lemma scanned_NaN (X : Type) (time : X -> Z) txs :
  scanned time NaN txs = txs.
Proof.
  induction txs as [|tx txs IH]; simpl; [reflexivity | now rewrite IH].
Qed.

Lemma accumulate_no_key (X E : Type) (key : X -> option string)
    (upd : option E -> X -> E) xs m :
  (forall x, key x = None) -> fold_left (accumulate key upd) xs m = m.
Proof.
  intros H. induction xs as [|x xs IH]; simpl; [reflexivity|].
  unfold accumulate at 2. now rewrite H, IH.
Qed.

(** X5. In interval.js the lower bound is tested only by the
    short-circuit.  With an unparseable [from] nothing stops the scan
    and a wallet is emitted if and only if one of its transactions in
    the pages fetched has [blockTime <= to], with the greatest such
    blockTime as lastTx; with an unparseable [to] the result is
    empty. *)
Theorem public_interval_unparseable_bound
    (fuel : nat) (up : Upstream (list PublicTx.t)) (from : number Z) (t : Z) :
  (forall rows log,
     Interval.Public.fetchActiveWallets fuel up NaN (Num t)
     = Returned rows log ->
     let stream := fetched (@items _) up log in
     (forall w,
        (exists r, In r rows /\ ActiveRow.wallet r = w) <->
        (exists tx, In tx stream /\ PublicTx.wallet tx = Some w
                    /\ PublicTx.blockTime tx <= t))
     /\ (forall r, In r rows ->
           (exists tx, In tx stream
                       /\ PublicTx.wallet tx = Some (ActiveRow.wallet r)
                       /\ PublicTx.blockTime tx <= t
                       /\ PublicTx.blockTime tx = ActiveRow.lastTx r)
           /\ (forall tx, In tx stream ->
                 PublicTx.wallet tx = Some (ActiveRow.wallet r) ->
                 PublicTx.blockTime tx <= t ->
                 PublicTx.blockTime tx <= ActiveRow.lastTx r)))
  /\ (forall rows log,
        Interval.Public.fetchActiveWallets fuel up from NaN
        = Returned rows log ->
        rows = []).
Proof.
  split; intros rows log H.
  - intros stream. apply interval_public_rows in H. destruct H as [-> _].
    rewrite scanned_NaN. fold stream.
    destruct (active_rows (public_in_window (Num t)) PublicTx.blockTime
                stream) as [W G].
    split.
    + intros w. rewrite W. split; intros [tx [I K]]; exists tx;
        (split; [exact I|]); now apply public_in_window_some.
    + intros r I. apply G, greatest_observed in I. destruct I as [[tx E] B].
      split.
      * exists tx. rewrite public_in_window_some in E. tauto.
      * intros tx' I' E1 E2. apply B; [exact I'|].
        now apply public_in_window_some.
  - apply interval_public_rows in H. destruct H as [-> _].
    rewrite accumulate_no_key; [reflexivity|].
    intros tx. unfold public_in_window.
    now destruct (PublicTx.wallet tx).
Qed.

Lemma public_interval_unparseable_bound_witness :
  (exists tx,
     In tx (fetched (@items _) example_public_tx [0])
     /\ PublicTx.wallet tx = Some "B"
     /\ PublicTx.blockTime tx <= 150
     /\ PublicTx.blockTime tx = 120)
  /\ @nil ActiveRow.t = [].
Proof.
  pose proof
    (@public_interval_unparseable_bound 2 example_public_tx (Num 100) 150)
    as [F T].
  split.
  - refine (proj1 (proj2 (F [ {| ActiveRow.wallet := "B";
                                 ActiveRow.lastTx := 120 |};
                              {| ActiveRow.wallet := "A";
                                 ActiveRow.lastTx := 110 |} ] [0] eq_refl)
                     {| ActiveRow.wallet := "B"; ActiveRow.lastTx := 120 |}
                     (or_introl eq_refl))).
  - exact (T [] [0] eq_refl).
Defined.

(** ** How far the holders endpoints scan *)

Lemma removelast_cons2 (A : Type) (a b : A) l :
  removelast (a :: b :: l) = a :: removelast (b :: l).
Proof. reflexivity. Qed.

Lemma holders_pro_run_bound limit minAmount up st offset log st' :
  run (HoldersSkeleton.guard limit) (HoldersSkeleton.pro_step limit minAmount)
    up st offset log st' ->
  (log <> [] ->
   lt (Z.of_nat
         (length (st ++ Holders.qualifying minAmount
                          (fetched Holders.Pro.data up (removelast log)))))
      limit = true)
  /\ (forall o, In o log ->
        o = offset
        \/ exists r,
             up (o - pageSize) = Resp (Some r) /\ o < Holders.Pro.total r).
Proof.
  induction 1 as [| st offset b st' G U E | st offset b st1 log st' G U E R IH].
  - split; [congruence | contradiction].
  - split.
    + intros _. unfold fetched. simpl. now rewrite app_nil_r.
    + intros o [<-|[]]. now left.
  - destruct IH as [B T]. split.
    + intros _. destruct log as [|o log].
      * unfold fetched. simpl. now rewrite app_nil_r.
      * rewrite removelast_cons2, fetched_cons, qualifying_app, app_assoc.
        eapply holders_pro_step in E; [|exact U]. rewrite <- E.
        apply B. discriminate.
    + intros o [<-|I]; [now left|]. right.
      destruct (T o I) as [->|H]; [|exact H].
      replace (offset + pageSize - pageSize) with offset by lia.
      unfold HoldersSkeleton.pro_step in E.
      destruct b as [r|]; [|discriminate].
      destruct (length (Holders.Pro.data r) =? 0)%nat; [discriminate|].
      inversion E as [[E1 E2]].
      apply negb_true_iff, orb_false_elim in E2. destruct E2 as [_ E2].
      apply Z.leb_gt in E2. exists r. split; [exact U | lia].
Qed.

Lemma holders_public_run_bound limit minAmount up st offset log st' :
  run (HoldersSkeleton.guard limit)
    (HoldersSkeleton.public_step limit minAmount) up st offset log st' ->
  (log <> [] ->
   lt (Z.of_nat
         (length (st ++ Holders.qualifying minAmount
                          (fetched (@items _) up (removelast log)))))
      limit = true)
  /\ (forall o, In o (removelast log) ->
        pageSize <= Z.of_nat (length (page (@items _) up o))).
Proof.
  induction 1 as [| st offset b st' G U E | st offset b st1 log st' G U E R IH].
  - split; [congruence | contradiction].
  - split.
    + intros _. unfold fetched. simpl. now rewrite app_nil_r.
    + simpl. contradiction.
  - destruct IH as [B T]. split.
    + intros _. destruct log as [|o log].
      * unfold fetched. simpl. now rewrite app_nil_r.
      * rewrite removelast_cons2, fetched_cons, qualifying_app, app_assoc.
        eapply holders_public_step in E; [|exact U]. rewrite <- E.
        apply B. discriminate.
    + assert (F : pageSize <= Z.of_nat (length (page (@items _) up offset))).
      { unfold HoldersSkeleton.public_step in E. unfold page, items.
        rewrite U. destruct b as [r|]; [|discriminate].
        destruct (length r =? 0)%nat; [discriminate|].
        inversion E as [[E1 E2]].
        apply negb_true_iff, orb_false_elim in E2. destruct E2 as [_ E2].
        now apply Z.ltb_ge in E2. }
      destruct log as [|o' log].
      * (* the run ended at the next test of the loop condition *)
        simpl. contradiction.
      * rewrite removelast_cons2. intros o [<-|I]; [exact F | now apply T].
Qed.

(** X6. The holders endpoints request a page only while fewer rows
    than the limit are collected: the qualifying records of the pages
    before the last one number fewer than the limit (so there is no
    request at all for a limit that is 0, negative or unparseable).
    holders.ts moves on to an offset only below the total the page
    before reported, holders.js only after a full page. *)
Theorem holders_scan_bound
    (fuel : nat) (key : option string)
    (up : Upstream Holders.Pro.SolscanResponse)
    (publicUp : Upstream (list Holder.t))
    (limit : number Z) (minAmount : number Q) :
  (forall rows log,
     Holders.Pro.fetchHolders fuel key up limit minAmount
     = Returned rows log ->
     (log <> [] ->
      exists l,
        limit = Num l
        /\ Z.of_nat
             (length (Holders.qualifying minAmount
                        (fetched Holders.Pro.data up (removelast log))))
           < l)
     /\ (forall o, In o log ->
           o = 0
           \/ exists r,
                up (o - pageSize) = Resp (Some r)
                /\ o < Holders.Pro.total r))
  /\ (forall rows log,
        Holders.Public.fetchHolders fuel publicUp limit minAmount
        = Returned rows log ->
        (log <> [] ->
         exists l,
           limit = Num l
           /\ Z.of_nat
                (length (Holders.qualifying minAmount
                           (fetched (@items _) publicUp (removelast log))))
              < l)
        /\ (forall o, In o (removelast log) ->
              pageSize <= Z.of_nat (length (page (@items _) publicUp o)))).
Proof.
  split; intros rows log H.
  - unfold Holders.Pro.fetchHolders in H.
    destruct (key_missing key); [discriminate|].
    apply and_then_returned in H. destruct H as [st [H _]].
    rewrite holders_pro_paged in H.
    apply paged_run, holders_pro_run_bound in H. destruct H as [B T].
    split; [|exact T]. intros N. specialize (B N).
    destruct limit as [|l]; [discriminate|].
    exists l. split; [reflexivity|]. now apply Z.ltb_lt in B.
  - unfold Holders.Public.fetchHolders in H.
    apply and_then_returned in H. destruct H as [st [H _]].
    rewrite holders_public_paged in H.
    apply paged_run, holders_public_run_bound in H. destruct H as [B T].
    split; [|exact T]. intros N. specialize (B N).
    destruct limit as [|l]; [discriminate|].
    exists l. split; [reflexivity|]. now apply Z.ltb_lt in B.
Qed.

Lemma holders_scan_bound_witness :
  (exists l,
     Num 2 = Num l
     /\ Z.of_nat
          (length (Holders.qualifying (Num 0%Q)
                     (fetched Holders.Pro.data busy_holders
                        (removelast [0; 50]))))
        < l)
  /\ (50 = 0
      \/ exists r,
           busy_holders (50 - pageSize) = Resp (Some r)
           /\ 50 < Holders.Pro.total r).
Proof.
  destruct (proj1 (@holders_scan_bound 5 (Some "key") busy_holders
                     (@nothing _) (Num 2) (Num 0%Q))
              (repeat {| HolderRow.wallet := "A"; HolderRow.amount := 50 |} 2)
              [0; 50] eq_refl) as [B T].
  split.
  - apply B. discriminate.
  - apply T. right. left. reflexivity.
Defined.

(** ** Nested top-N lists *)

Lemma firstn_app_short (A : Type) (l more : list A) n :
  ((length l < n)%nat -> more = []) ->
  firstn n (l ++ more) = firstn n l.
Proof.
  intros H. destruct (Nat.lt_ge_cases (length l) n) as [L|L].
  - rewrite (H L). now rewrite app_nil_r.
  - rewrite firstn_app.
    replace (n - length l)%nat with 0%nat by lia.
    simpl. now rewrite app_nil_r.
Qed.

(** The two runs stopped together. *)
Ltac stopped_together H :=
  injection H as <- <-;
  do 2 eexists; exists [], [];
  split; [reflexivity|];
  split; [now rewrite app_nil_r|];
  split; [reflexivity | intros _; reflexivity].

Lemma holders_pro_nested l l' minAmount fuel up st offset st2 log2 :
  l <= l' ->
  paged "Failed to fetch holder data from Solscan."
    (HoldersSkeleton.guard (Num l'))
    (HoldersSkeleton.pro_step (Num l') minAmount) fuel up st offset
  = Returned st2 log2 ->
  exists st1 log1 more rest,
    paged "Failed to fetch holder data from Solscan."
      (HoldersSkeleton.guard (Num l))
      (HoldersSkeleton.pro_step (Num l) minAmount) fuel up st offset
    = Returned st1 log1
    /\ st2 = st1 ++ more
    /\ log2 = log1 ++ rest
    /\ (Z.of_nat (length st1) < l -> more = []).
Proof.
  intros L. revert st offset st2 log2.
  induction fuel as [|fuel IH]; intros st offset st2 log2 H; [discriminate|].
  pose proof H as R. apply paged_run, holders_pro_run in R.
  rewrite paged_unfold in H. rewrite paged_unfold.
  destruct (HoldersSkeleton.guard (Num l) st offset) eqn:G.
  - unfold HoldersSkeleton.guard, lt in G. apply Z.ltb_lt in G.
    assert (G' : HoldersSkeleton.guard (Num l') st offset = true)
      by (apply Z.ltb_lt; lia).
    rewrite G' in H.
    destruct (up offset) as [b|] eqn:U; [|discriminate].
    unfold HoldersSkeleton.pro_step at 1 in H.
    unfold HoldersSkeleton.pro_step at 1.
    destruct b as [r|]; [|stopped_together H].
    destruct (length (Holders.Pro.data r) =? 0)%nat; [stopped_together H|].
    cbv zeta in *.
    set (st' := st ++ Holders.qualifying minAmount (Holders.Pro.data r)) in *.
    unfold ge in *.
    destruct (l' <=? Z.of_nat (length st')) eqn:C'.
    + apply Z.leb_le in C'.
      assert (C : (l <=? Z.of_nat (length st')) = true)
        by (apply Z.leb_le; lia).
      rewrite C. cbn [orb negb] in *. stopped_together H.
    + destruct (Holders.Pro.total r <=? offset + pageSize) eqn:T.
      * rewrite orb_true_r. cbn [orb negb] in *. stopped_together H.
      * cbn [orb negb] in H.
        destruct (paged "Failed to fetch holder data from Solscan."
                    (HoldersSkeleton.guard (Num l'))
                    (HoldersSkeleton.pro_step (Num l') minAmount)
                    fuel up st' (offset + pageSize))
          as [v lg| |] eqn:P; try discriminate.
        cbn [requested] in H. injection H as <- <-.
        destruct (l <=? Z.of_nat (length st')) eqn:C; cbn [orb negb].
        -- apply Z.leb_le in C.
           apply paged_run, holders_pro_run in P.
           exists st', [offset]. eexists. exists lg.
           split; [reflexivity|]. split; [exact P|].
           split; [reflexivity | lia].
        -- destruct (IH _ _ _ _ P) as [s1 [l1 [m [rs [E [A [B D]]]]]]].
           rewrite E. cbn [requested]. exists s1, (offset :: l1), m, rs.
           split; [reflexivity|]. split; [exact A|].
           split; [simpl; now rewrite B | exact D].
  - unfold HoldersSkeleton.guard, lt in G. apply Z.ltb_ge in G.
    exists st, []. eexists. exists log2.
    split; [reflexivity|]. split; [exact R|]. split; [reflexivity | lia].
Qed.

Lemma holders_public_nested l l' minAmount fuel up st offset st2 log2 :
  l <= l' ->
  paged "Failed to fetch holder data from Solscan."
    (HoldersSkeleton.guard (Num l'))
    (HoldersSkeleton.public_step (Num l') minAmount) fuel up st offset
  = Returned st2 log2 ->
  exists st1 log1 more rest,
    paged "Failed to fetch holder data from Solscan."
      (HoldersSkeleton.guard (Num l))
      (HoldersSkeleton.public_step (Num l) minAmount) fuel up st offset
    = Returned st1 log1
    /\ st2 = st1 ++ more
    /\ log2 = log1 ++ rest
    /\ (Z.of_nat (length st1) < l -> more = []).
Proof.
  intros L. revert st offset st2 log2.
  induction fuel as [|fuel IH]; intros st offset st2 log2 H; [discriminate|].
  pose proof H as R. apply paged_run, holders_public_run in R.
  rewrite paged_unfold in H. rewrite paged_unfold.
  destruct (HoldersSkeleton.guard (Num l) st offset) eqn:G.
  - unfold HoldersSkeleton.guard, lt in G. apply Z.ltb_lt in G.
    assert (G' : HoldersSkeleton.guard (Num l') st offset = true)
      by (apply Z.ltb_lt; lia).
    rewrite G' in H.
    destruct (up offset) as [b|] eqn:U; [|discriminate].
    unfold HoldersSkeleton.public_step at 1 in H.
    unfold HoldersSkeleton.public_step at 1.
    destruct b as [r|]; [|stopped_together H].
    destruct (length r =? 0)%nat; [stopped_together H|].
    cbv zeta in *.
    set (st' := st ++ Holders.qualifying minAmount r) in *.
    unfold ge in *.
    destruct (l' <=? Z.of_nat (length st')) eqn:C'.
    + apply Z.leb_le in C'.
      assert (C : (l <=? Z.of_nat (length st')) = true)
        by (apply Z.leb_le; lia).
      rewrite C. cbn [orb negb] in *. stopped_together H.
    + destruct (Z.of_nat (length r) <? pageSize) eqn:T.
      * rewrite orb_true_r. cbn [orb negb] in *. stopped_together H.
      * cbn [orb negb] in H.
        destruct (paged "Failed to fetch holder data from Solscan."
                    (HoldersSkeleton.guard (Num l'))
                    (HoldersSkeleton.public_step (Num l') minAmount)
                    fuel up st' (offset + pageSize))
          as [v lg| |] eqn:P; try discriminate.
        cbn [requested] in H. injection H as <- <-.
        destruct (l <=? Z.of_nat (length st')) eqn:C; cbn [orb negb].
        -- apply Z.leb_le in C.
           apply paged_run, holders_public_run in P.
           exists st', [offset]. eexists. exists lg.
           split; [reflexivity|]. split; [exact P|].
           split; [reflexivity | lia].
        -- destruct (IH _ _ _ _ P) as [s1 [l1 [m [rs [E [A [B D]]]]]]].
           rewrite E. cbn [requested]. exists s1, (offset :: l1), m, rs.
           split; [reflexivity|]. split; [exact A|].
           split; [simpl; now rewrite B | exact D].
  - unfold HoldersSkeleton.guard, lt in G. apply Z.ltb_ge in G.
    exists st, []. eexists. exists log2.
    split; [reflexivity|]. split; [exact R|]. split; [reflexivity | lia].
Qed.

Lemma slice0_nested (A : Type) (st1 more : list A) l l' :
  0 <= l <= l' ->
  (Z.of_nat (length st1) < l -> more = []) ->
  slice0 st1 (Num l)
  = firstn (Z.to_nat l) (slice0 (st1 ++ more) (Num l')).
Proof.
  intros L D. rewrite !slice0_nonneg by lia.
  rewrite firstn_firstn, Nat.min_l by lia.
  symmetry. apply firstn_app_short. intros H. apply D. lia.
Qed.

(** X7. Top-N lists are nested.  For limits [0 <= l <= l'], the rows
    an endpoint returns for the limit [l] are the first [l] rows it
    returns for the limit [l'] against the same upstream; the holders
    endpoints make, for the smaller limit, a first part of the same
    upstream requests, the traders endpoints the same requests. *)
Theorem top_lists_nested
    (fuel : nat) (key : option string)
    (holdersUp : Upstream Holders.Pro.SolscanResponse)
    (publicHoldersUp : Upstream (list Holder.t))
    (transfersUp : Upstream SolscanTransferResponse)
    (publicTxUp : Upstream (list PublicTx.t))
    (minAmount : number Q) (l l' : Z) :
  0 <= l <= l' ->
  (forall rows' log',
     Holders.Pro.fetchHolders fuel key holdersUp (Num l') minAmount
     = Returned rows' log' ->
     exists log rest,
       Holders.Pro.fetchHolders fuel key holdersUp (Num l) minAmount
       = Returned (firstn (Z.to_nat l) rows') log
       /\ log' = log ++ rest)
  /\ (forall rows' log',
        Holders.Public.fetchHolders fuel publicHoldersUp (Num l') minAmount
        = Returned rows' log' ->
        exists log rest,
          Holders.Public.fetchHolders fuel publicHoldersUp (Num l) minAmount
          = Returned (firstn (Z.to_nat l) rows') log
          /\ log' = log ++ rest)
  /\ (forall rows' log,
        Traders.Pro.fetchTopTraders key transfersUp (Num l')
        = Returned rows' log ->
        Traders.Pro.fetchTopTraders key transfersUp (Num l)
        = Returned (firstn (Z.to_nat l) rows') log)
  /\ (forall rows' log,
        Traders.Public.fetchTopTraders publicTxUp (Num l')
        = Returned rows' log ->
        Traders.Public.fetchTopTraders publicTxUp (Num l)
        = Returned (firstn (Z.to_nat l) rows') log).
Proof.
  intros L.
  unfold Holders.Pro.fetchHolders, Holders.Public.fetchHolders,
    Traders.Pro.fetchTopTraders, Traders.Public.fetchTopTraders.
  rewrite !holders_pro_paged, !holders_public_paged.
  split; [|split; [|split]]; intros rows' log' H.
  - destruct (key_missing key); [discriminate|].
    apply and_then_returned in H. destruct H as [st2 [H ->]].
    destruct (@holders_pro_nested l l' minAmount fuel holdersUp [] 0 st2 log'
                (proj2 L) H) as [st1 [log1 [more [rest [E [-> [-> D]]]]]]].
    exists log1, rest. rewrite E. cbn [and_then].
    split; [|reflexivity]. f_equal. now apply slice0_nested.
  - apply and_then_returned in H. destruct H as [st2 [H ->]].
    destruct (@holders_public_nested l l' minAmount fuel publicHoldersUp [] 0
                st2 log' (proj2 L) H)
      as [st1 [log1 [more [rest [E [-> [-> D]]]]]]].
    exists log1, rest. rewrite E. cbn [and_then].
    split; [|reflexivity]. f_equal. now apply slice0_nested.
  - destruct (key_missing key); [discriminate|].
    apply and_then_returned in H. destruct H as [wv [H ->]].
    rewrite H. cbn [and_then]. f_equal.
    rewrite <- (app_nil_r (Traders.Pro.sortedTraders wv)) at 2.
    apply slice0_nested; [exact L | reflexivity].
  - apply and_then_returned in H. destruct H as [wc [H ->]].
    rewrite H. cbn [and_then]. f_equal.
    rewrite <- (app_nil_r (Traders.Public.sortedTraders wc)) at 2.
    apply slice0_nested; [exact L | reflexivity].
Qed.

Lemma top_lists_nested_witness :
  (exists log rest,
     Holders.Pro.fetchHolders 5 (Some "key") busy_holders (Num 1) (Num 0%Q)
     = Returned
         (firstn (Z.to_nat 1)
            (repeat {| HolderRow.wallet := "A"; HolderRow.amount := 50 |} 2))
         log
     /\ [0; 50] = log ++ rest)
  /\ Traders.Pro.fetchTopTraders (Some "key") two_traders (Num 1)
     = Returned
         (firstn (Z.to_nat 1)
            [ {| TraderRow.wallet := "A";
                 TraderRow.volume := 2%float;
                 TraderRow.lastTx := 100 |};
              {| TraderRow.wallet := "B";
                 TraderRow.volume := 1%float;
                 TraderRow.lastTx := 50 |} ])
         [0].
Proof.
  pose proof
    (@top_lists_nested 5 (Some "key") busy_holders (@nothing _) two_traders
       (@nothing _) (Num 0%Q) 1 2 ltac:(lia)) as [H [_ [T _]]].
  split.
  - apply H. reflexivity.
  - apply T. reflexivity.
Defined.

(** ** Totals of the traders *)

Lemma sumQ_app l l' : (sumQ (l ++ l') == sumQ l + sumQ l')%Q.
Proof.
  induction l as [|q l IH]; simpl; [lra|]. rewrite IH. lra.
Qed.

Lemma sumQ_perm l l' : Permutation l l' -> (sumQ l == sumQ l')%Q.
Proof.
  induction 1 as [| q l l' P IH | q q' l | l l' l'' P IH P' IH']; simpl.
  - lra.
  - rewrite IH. lra.
  - lra.
  - lra.
Qed.

Lemma sumQ_nonneg l : (forall q, In q l -> (0 <= q)%Q) -> (0 <= sumQ l)%Q.
Proof.
  induction l as [|q l IH]; simpl; intros H; [lra|].
  assert (0 <= q)%Q by (apply H; now left).
  assert (0 <= sumQ l)%Q by (apply IH; intros; apply H; now right).
  lra.
Qed.

Section WeightFacts.

Variables X E : Type.
Variable key : X -> option string.
Variable upd : option E -> X -> E.
Variable weight : E -> Q.
Variable gain : X -> Q.

Hypothesis upd_gain :
  forall acc x,
    (weight (upd acc x)
     == match acc with Some e => weight e | None => 0 end + gain x)%Q.

Lemma dict_weight_set (m : dict E) k e :
  (dict_weight weight (set m k e)
   == dict_weight weight m
      - match get m k with Some e0 => weight e0 | None => 0 end
      + weight e)%Q.
Proof.
  unfold dict_weight.
  induction m as [|[k0 e0] m IH]; simpl; [lra|].
  destruct (String.eqb k k0); simpl; [lra|]. rewrite IH. lra.
Qed.

Lemma accumulate_weight (m : dict E) x :
  (dict_weight weight (accumulate key upd m x)
   == dict_weight weight m
      + match key x with Some _ => gain x | None => 0 end)%Q.
Proof.
  unfold accumulate. destruct (key x) as [k|]; [|lra].
  rewrite dict_weight_set, upd_gain. destruct (get m k); lra.
Qed.

End WeightFacts.

Lemma count_transaction_gain acc tx :
  (inject_Z (Traders.Public.count (count_transaction acc tx))
   == match acc with
      | Some e => inject_Z (Traders.Public.count e)
      | None => 0
      end + 1)%Q.
Proof.
  unfold count_transaction.
  destruct acc as [e|]; cbn [Traders.Public.count Traders.Public.lastTx];
    match goal with
    | |- context [if ?c then _ else _] => destruct c
    end; cbn [Traders.Public.count]; rewrite inject_Z_plus;
    change (inject_Z 1) with 1%Q; change (inject_Z 0) with 0%Q; lra.
Qed.

Lemma signed_snoc txs tx :
  signed (txs ++ [tx]) =
  signed txs ++ match trader_wallet tx with Some _ => [tx] | None => [] end.
Proof.
  unfold signed. rewrite filter_app. simpl.
  now destruct (trader_wallet tx).
Qed.

(** The map of traders.js holds every transaction it counted. *)
Lemma traders_public_weight stream :
  (dict_weight (fun e => inject_Z (Traders.Public.count e))
     (fold_left (accumulate trader_wallet count_transaction) stream [])
   == inject_Z (Z.of_nat (length (signed stream))))%Q.
Proof.
  induction stream as [|tx stream IH] using rev_ind; [reflexivity|].
  rewrite fold_left_app. cbn [fold_left].
  rewrite (accumulate_weight trader_wallet count_transaction
             (fun e => inject_Z (Traders.Public.count e)) (fun _ => 1%Q)
             count_transaction_gain).
  rewrite IH, signed_snoc, length_app.
  destruct (trader_wallet tx); cbn [length].
  - rewrite Nat2Z.inj_add, inject_Z_plus.
    change (inject_Z (Z.of_nat 1)) with 1%Q. lra.
  - rewrite Nat.add_0_r. lra.
Qed.

(** X8. The rows of traders.ts carry a volume that is not negative and
    a lastTx that is not negative; those of traders.js count at least
    one transaction. *)
Theorem traders_rows_not_negative
    (key : option string) (up : Upstream SolscanTransferResponse)
    (publicUp : Upstream (list PublicTx.t)) (limit : number Z) :
  (forall rows log,
     Traders.Pro.fetchTopTraders key up limit = Returned rows log ->
     forall r, In r rows ->
       (0 <=? TraderRow.volume r)%float = true /\ 0 <= TraderRow.lastTx r)
  /\ (forall rows log,
        Traders.Public.fetchTopTraders publicUp limit = Returned rows log ->
        forall r, In r rows ->
          (1 <= TraderRow.volume r)%Q /\ 0 <= TraderRow.lastTx r).
Proof.
  split; intros rows log H r I.
  - apply traders_pro_rows in H.
    apply top_rows_double in H; [|apply traders_pro_volumes].
    destruct H as [A _].
    apply A, traders_pro_row in I. destruct I as [_ [_ [V [L _]]]].
    split.
    + rewrite V. apply double_volume_nonneg.
    + rewrite L. apply latest_spec.
  - apply traders_public_rows, top_rows in H. destruct H as [A _].
    apply A, traders_public_row in I. destruct I as [N [_ [V [L _]]]].
    split.
    + rewrite V.
      destruct (observed PublicTx.wallet (TraderRow.wallet r)
                  (fetched (@items _) publicUp log)) as [|tx txs];
        [congruence|].
      change 1%Q with (inject_Z 1). rewrite <- Zle_Qle.
      cbn [length]. lia.
    + rewrite L. apply latest_spec.
Qed.

Lemma traders_rows_not_negative_witness :
  exists rows,
    Traders.Pro.fetchTopTraders (Some "key") two_traders (Num 1)
    = Returned rows [0]
    /\ forall r, In r rows ->
         (0 <=? TraderRow.volume r)%float = true /\ 0 <= TraderRow.lastTx r.
Proof.
  eexists. split; [vm_compute; reflexivity|].
  exact (proj1 (@traders_rows_not_negative (Some "key") two_traders
                  (@nothing _) (Num 1)) _ [0] eq_refl).
Defined.

Lemma total_volume_top (all : list (TraderRow.t Q)) limit :
  (forall r, In r all -> (0 <= TraderRow.volume r)%Q) ->
  (total_volume (slice0 (sort Traders.by_volume all) limit)
   <= total_volume all)%Q
  /\ (forall l, limit = Num l ->
        Z.of_nat (length (slice0 (sort Traders.by_volume all) limit)) < l ->
        (total_volume (slice0 (sort Traders.by_volume all) limit)
         == total_volume all)%Q).
Proof.
  intros N.
  assert (P : (total_volume (sort Traders.by_volume all)
               == total_volume all)%Q).
  { apply sumQ_perm, Permutation_map, sort_perm. }
  split.
  - destruct (slice0_prefix (sort Traders.by_volume all) limit) as [l' E].
    rewrite <- P. rewrite E at 2.
    unfold total_volume. rewrite map_app, sumQ_app.
    assert (0 <= sumQ (map TraderRow.volume l'))%Q; [|lra].
    apply sumQ_nonneg. intros q I.
    apply in_map_iff in I. destruct I as [r [<- I]].
    apply N. eapply Permutation_in; [apply sort_perm|].
    rewrite E. apply in_or_app. now right.
  - intros l -> S. rewrite slice0_all by exact S. exact P.
Qed.

(** X9. The counts of the rows of traders.js add up to at most the
    number of the transactions read that are counted for a wallet
    (those with a first signer that is not empty and not a name every
    object inherits), and to exactly that number when the limit leaves
    no row out. *)
Theorem traders_volume_conserved
    (publicUp : Upstream (list PublicTx.t)) (limit : number Z) :
  forall rows log,
    Traders.Public.fetchTopTraders publicUp limit = Returned rows log ->
    (total_volume rows
     <= inject_Z (Z.of_nat
                    (length (signed (fetched (@items _) publicUp log)))))%Q
    /\ (forall l, limit = Num l -> Z.of_nat (length rows) < l ->
          (total_volume rows
           == inject_Z
                (Z.of_nat
                   (length (signed (fetched (@items _) publicUp log)))))%Q).
Proof.
  intros rows log H.
  apply traders_public_rows in H. subst rows.
  unfold Traders.Public.sortedTraders.
  set (all := map _ _).
  assert (T : (total_volume all
               == inject_Z
                    (Z.of_nat
                       (length (signed (fetched (@items _) publicUp log)))))%Q).
  { rewrite <- traders_public_weight.
    unfold all, total_volume, dict_weight. rewrite map_map.
    eapply Qeq_trans; [apply sumQ_perm, Permutation_map, entries_perm|].
    erewrite map_ext; [apply Qeq_refl|]. now intros [w e]. }
  destruct (@total_volume_top all limit) as [A B].
  { intros r I. apply traders_public_row in I. destruct I as [_ [_ [V _]]].
    rewrite V. change 0%Q with (inject_Z 0). rewrite <- Zle_Qle. lia. }
  split.
  - rewrite <- T. exact A.
  - intros l E S. rewrite <- T. exact (B l E S).
Qed.

Lemma traders_volume_conserved_witness :
  exists rows,
    Traders.Public.fetchTopTraders example_public_tx (Num 5)
    = Returned rows [0]
    /\ (total_volume rows == 4)%Q.
Proof.
  eexists. split; [vm_compute; reflexivity|].
  eapply Qeq_trans.
  - refine (proj2 (@traders_volume_conserved example_public_tx (Num 5)
                     _ [0] eq_refl)
              5 eq_refl _).
    vm_compute. reflexivity.
  - vm_compute. reflexivity.
Defined.

(** ** The parameters of the client *)

Lemma digits_of_uint_acc d p :
  digits (DecimalString.NilEmpty.string_of_uint d) (Some (Z.pos p))
  = Some (Z.pos (Pos.of_uint_acc d p)).
Proof.
  revert p. induction d; intros p; cbn [DecimalString.NilEmpty.string_of_uint
                                        Pos.of_uint_acc]; [reflexivity|..];
    unfold digits; fold digits;
    match goal with
    | |- context [digit_value ?c] =>
        change (digit_value c) with (Some (Z.of_nat (nat_of_ascii c) - 48))
    end; cbv beta iota;
    rewrite <- IHd; f_equal; f_equal; vm_compute Z.of_nat; lia.
Qed.

Lemma digits_of_uint d acc :
  d <> Decimal.Nil ->
  acc = None \/ acc = Some 0 ->
  digits (DecimalString.NilEmpty.string_of_uint d) acc
  = Some (Z.of_uint d).
Proof.
  revert acc. unfold Z.of_uint.
  induction d; intros acc N A; [congruence|..];
    cbn [DecimalString.NilEmpty.string_of_uint Pos.of_uint];
    unfold digits; fold digits;
    match goal with
    | |- context [digit_value ?c] =>
        change (digit_value c) with (Some (Z.of_nat (nat_of_ascii c) - 48))
    end; cbv beta iota;
    try (destruct A as [-> | ->];
         match goal with
         | |- digits _ (Some ?v) = _ =>
             let v' := eval vm_compute in v in change v with v'
         end; apply digits_of_uint_acc).
  destruct A as [-> | ->];
    (match goal with
     | |- digits _ (Some ?v) = _ =>
         let v' := eval vm_compute in v in change v with v'
     end;
     destruct d; [reflexivity|apply IHd; [discriminate|now right]..]).
Qed.

Lemma parseInt_digits s :
  skip_white_space s = s ->
  match s with
  | String c _ => c <> "-"%char /\ c <> "+"%char
  | EmptyString => True
  end ->
  parseInt s = match digits s None with Some n => Num n | None => NaN end.
Proof.
  intros W C. unfold parseInt. rewrite W.
  destruct s as [|c s]; [reflexivity|].
  destruct C as [C1 C2].
  destruct c as [[] [] [] [] [] [] [] []]; try congruence;
    cbv beta iota; destruct (digits _ None); f_equal; lia.
Qed.

Lemma string_of_uint_plain d :
  let s := DecimalString.NilEmpty.string_of_uint d in
  skip_white_space s = s
  /\ match s with
     | String c _ => c <> "-"%char /\ c <> "+"%char
     | EmptyString => True
     end.
Proof.
  destruct d; cbn; (split; [reflexivity|]); try exact I; split; discriminate.
Qed.

(** [parseInt(String(n), 10)] is [n], for an integer and for [NaN]. *)
Lemma parseInt_String n : parseInt (Client.String_ n) = n.
Proof.
  destruct n as [|z]; [reflexivity|].
  unfold Client.String_.
  assert (U : forall d, d <> Decimal.Nil ->
              parseInt (DecimalString.NilEmpty.string_of_uint d)
              = Num (Z.of_uint d)).
  { intros d N. destruct (string_of_uint_plain d) as [W C].
    rewrite parseInt_digits by assumption.
    rewrite digits_of_uint by (auto; now left). reflexivity. }
  rewrite <- (DecimalZ.of_to z) at 2.
  destruct z as [|p|p]; cbn [Z.to_int DecimalString.NilEmpty.string_of_int
                             Z.of_int].
  - reflexivity.
  - apply U, DecimalPos.Unsigned.to_uint_nonnil.
  - pose proof (DecimalPos.Unsigned.to_uint_nonnil p) as N.
    unfold parseInt. cbn [skip_white_space].
    change (is_white_space "-") with false. cbv beta iota.
    rewrite digits_of_uint by (auto; now left).
    f_equal; lia.
Qed.

Lemma String_truthy n : truthy (Client.String_ n) = true.
Proof.
  destruct n as [|z]; [reflexivity|].
  pose proof (parseInt_String (Num z)) as P.
  destruct (Client.String_ (Num z)); [discriminate|reflexivity].
Qed.

(** X10. What the client's [api] sends is what the endpoints compute
    with: for a token that is not empty, an integer limit (or [NaN])
    and two dates, the handlers answer with the aggregation for that
    limit, and for the dates' seconds since the epoch, rounded down;
    an invalid date arrives as [NaN]. *)
Theorem client_parameters_arrive
    (parseFloat : string -> number Q) (printNumber : number Q -> string)
    (fuel : nat) (key : option string)
    (holdersUp : Upstream Holders.Pro.SolscanResponse)
    (publicHoldersUp : Upstream (list Holder.t))
    (transfersUp : Upstream SolscanTransferResponse)
    (publicTxUp : Upstream (list PublicTx.t))
    (token : string) (limit : number Z) (minAmount : number Q)
    (from to : number Z) :
  truthy token = true ->
  Client.printable limit ->
  Client.printable (Client.unixSeconds from) ->
  Client.printable (Client.unixSeconds to) ->
  Holders.Pro.handler parseFloat fuel key holdersUp
    (Client.getHolders printNumber token limit minAmount)
  = respond (Holders.Pro.fetchHolders fuel key holdersUp limit
               (parseFloat (printNumber minAmount)))
  /\ HoldersJs.handler parseFloat fuel publicHoldersUp
       (Client.getHolders printNumber token limit minAmount)
     = respond_public (Holders.Public.fetchHolders fuel publicHoldersUp limit
                         (parseFloat (printNumber minAmount)))
  /\ Traders.Pro.handler key transfersUp (Client.getTopTraders token limit)
     = respond (Traders.Pro.fetchTopTraders key transfersUp limit)
  /\ TradersJs.handler publicTxUp (Client.getTopTraders token limit)
     = respond_public (Traders.Public.fetchTopTraders publicTxUp limit)
  /\ Interval.Pro.handler fuel key transfersUp
       (Client.getActiveInInterval token from to)
     = respond (Interval.Pro.fetchActiveWallets fuel key transfersUp
                  (Client.unixSeconds from) (Client.unixSeconds to))
  /\ IntervalJs.handler fuel publicTxUp
       (Client.getActiveInInterval token from to)
     = respond_public
         (Interval.Public.fetchActiveWallets fuel publicTxUp
            (Client.unixSeconds from) (Client.unixSeconds to)).
Proof.
  intros T _ _ _.
  unfold Holders.Pro.handler, HoldersJs.handler, Traders.Pro.handler,
    TradersJs.handler, Interval.Pro.handler, IntervalJs.handler,
    Client.getHolders, Client.getTopTraders, Client.getActiveInInterval.
  cbn [Holders.token Holders.limit Holders.minAmount Traders.token
       Traders.limit Interval.token Interval.from Interval.to with_default
       ToString parseIntQ missing].
  rewrite T, !parseInt_String, !String_truthy. cbn [negb orb].
  split; [reflexivity|]. split; [reflexivity|]. split; [reflexivity|].
  split; [reflexivity|]. split; reflexivity.
Qed.


Lemma client_parameters_arrive_witness :
  Traders.Pro.handler (Some "key") two_traders
    (Client.getTopTraders "T" (Num 1))
  = respond (Traders.Pro.fetchTopTraders (Some "key") two_traders (Num 1))
  /\ Interval.Pro.handler 5 (Some "key") two_traders
       (Client.getActiveInInterval "T" (Num 1500) NaN)
     = respond (Interval.Pro.fetchActiveWallets 5 (Some "key") two_traders
                  (Num 1) NaN).
Proof.
  assert (P1 : Client.printable (Num 1)) by (vm_compute; reflexivity).
  assert (P2 : Client.printable (Client.unixSeconds (Num 1500)))
    by (vm_compute; reflexivity).
  pose proof (@client_parameters_arrive (fun _ => NaN) (fun _ => "0") 5
                (Some "key") (@nothing _) (@nothing _) two_traders
                (@nothing _) "T" (Num 1) (Num 0%Q) (Num 1500) NaN
                eq_refl P1 P2 I) as [_ [_ [T [_ [V _]]]]].
  split; [exact T | exact V].
Defined.


(** ** The short form of an address *)

Lemma string_length_append (s1 s2 : string) :
  String.length (s1 ++ s2) = (String.length s1 + String.length s2)%nat.
Proof. induction s1 as [|c s1 IH]; simpl; congruence. Qed.

Lemma substring_length n m s :
  String.length (substring n m s) = Nat.min m (String.length s - n).
Proof.
  revert n m. induction s as [|c s IH]; intros [|n] [|m];
    cbn [substring String.length]; rewrite ?IH; lia.
Qed.

Lemma substring_prefix (s1 s2 : string) :
  substring 0 (String.length s1) (s1 ++ s2) = s1.
Proof.
  induction s1 as [|c s1 IH]; simpl; [now destruct s2|now rewrite IH].
Qed.

Lemma substring_skip (s1 s2 : string) n m :
  substring (String.length s1 + n) m (s1 ++ s2) = substring n m s2.
Proof.
  induction s1 as [|c s1 IH]; simpl; [reflexivity|exact IH].
Qed.

Lemma substring_all m s :
  (String.length s <= m)%nat -> substring 0 m s = s.
Proof.
  revert m. induction s as [|c s IH]; intros [|m] H; simpl in *;
    try reflexivity; try lia.
  rewrite IH by lia. reflexivity.
Qed.

Lemma slices_long address chars :
  0 <= chars ->
  chars <= Z.of_nat (String.length address) ->
  Client.slice address 0 (Some chars) = substring 0 (Z.to_nat chars) address
  /\ (0 < chars ->
      Client.slice address (- chars) None
      = substring (String.length address - Z.to_nat chars) (Z.to_nat chars)
          address).
Proof.
  intros P L. unfold Client.slice, Client.clamp. split.
  - destruct (0 <? 0) eqn:E0; [discriminate|].
    destruct (chars <? 0) eqn:E; [apply Z.ltb_lt in E; lia|].
    rewrite Z.min_l by lia. rewrite Z.min_l by lia.
    f_equal. f_equal. lia.
  - intros Q.
    destruct (- chars <? 0) eqn:E; [|apply Z.ltb_ge in E; lia].
    rewrite Z.max_l by lia. f_equal; lia.
Qed.

Lemma format_long address chars :
  0 < chars ->
  2 * chars < Z.of_nat (String.length address) ->
  Client.formatWalletAddress address chars
  = (substring 0 (Z.to_nat chars) address ++ "..."
     ++ substring (String.length address - Z.to_nat chars) (Z.to_nat chars)
          address)%string.
Proof.
  intros P L. unfold Client.formatWalletAddress.
  destruct (Z.of_nat (String.length address) <=? chars * 2) eqn:E;
    [apply Z.leb_le in E; lia|].
  destruct (@slices_long address chars) as [A B]; [lia|lia|].
  rewrite A, B by exact P. reflexivity.
Qed.

(** X11. For a positive [chars], [formatWalletAddress] leaves an
    address of at most [2 * chars] characters as it is, and writes a
    longer one as its first [chars] characters, three dots and its
    last [chars] characters, which is [2 * chars + 3] characters long;
    a formatted address is formatted to itself, and the copy inlined
    in the page gives the same result. *)
Theorem format_wallet_address (address : string) (chars : Z) :
  0 < chars ->
  let r := Client.formatWalletAddress address chars in
  let n := Z.to_nat chars in
  (Z.of_nat (String.length address) <= 2 * chars -> r = address)
  /\ (2 * chars < Z.of_nat (String.length address) ->
      r = (substring 0 n address ++ "..."
           ++ substring (String.length address - n) n address)%string
      /\ Z.of_nat (String.length r) = 2 * chars + 3)
  /\ Client.formatWalletAddress r chars = r
  /\ App.formatWalletAddress address chars = r.
Proof.
  intros P r n.
  assert (Short : Z.of_nat (String.length address) <= 2 * chars ->
                  r = address).
  { intros L. unfold r, Client.formatWalletAddress.
    destruct (Z.of_nat (String.length address) <=? chars * 2) eqn:E;
      [reflexivity|apply Z.leb_gt in E; lia]. }
  assert (Long : 2 * chars < Z.of_nat (String.length address) ->
                 r = (substring 0 n address ++ "..."
                      ++ substring (String.length address - n) n address)%string
                 /\ Z.of_nat (String.length r) = 2 * chars + 3).
  { intros L. unfold r. rewrite format_long by assumption. fold n.
    split; [reflexivity|].
    rewrite !string_length_append, !substring_length. simpl String.length.
    unfold n. lia. }
  split; [exact Short|]. split; [exact Long|]. split.
  - destruct (Z_le_gt_dec (Z.of_nat (String.length address)) (2 * chars))
      as [L|L].
    + rewrite (Short L). exact (Short L).
    + destruct Long as [E N]; [lia|].
      rewrite format_long by lia.
      set (p := substring 0 n address) in E.
      set (q := substring (String.length address - n) n address) in E.
      assert (Lp : String.length p = n).
      { unfold p. rewrite substring_length. unfold n. lia. }
      assert (Lq : String.length q = n).
      { unfold q. rewrite substring_length. unfold n. lia. }
      fold n. rewrite E at 1 2 3.
      rewrite <- Lp at 1. rewrite substring_prefix.
      replace (String.length (p ++ "..." ++ q) - n)%nat
        with (String.length p + 3)%nat
        by (rewrite !string_length_append, Lp, Lq; simpl String.length; lia).
      rewrite substring_skip. cbn [append substring].
      rewrite substring_all by lia. symmetry. exact E.
  - unfold App.formatWalletAddress, r, Client.formatWalletAddress.
    destruct address as [|c address]; [|reflexivity].
    cbn [truthy negb orb String.length Z.of_nat].
    destruct (0 <=? chars * 2) eqn:E; [reflexivity|apply Z.leb_gt in E; lia].
Qed.

Lemma format_wallet_address_witness :
  Client.formatWalletAddress "So11111111111111111111111111111111111111112" 4
  = "So11...1112"
  /\ Client.formatWalletAddress "So11...1112" 4 = "So11...1112"
  /\ App.formatWalletAddress "So11111111111111111111111111111111111111112" 4
     = "So11...1112".
Proof.
  pose proof (@format_wallet_address
                "So11111111111111111111111111111111111111112" 4 ltac:(lia))
    as [_ [L [I A]]].
  destruct L as [L _]; [vm_compute; reflexivity|].
  split; [exact L|]. split; [|exact (eq_trans A L)].
  exact (eq_trans (f_equal (fun s => Client.formatWalletAddress s 4) (eq_sym L))
           (eq_trans I L)).
Defined.

(** X12. With [chars = 0] nothing is cut: three dots are put before
    the whole address, since [slice(-0)] is the whole string.  The two
    copies of the function differ on the empty address with a negative
    [chars], where the one of utils/solscan.ts answers with three dots
    and the page's with the empty string, and nowhere else. *)
Theorem format_wallet_address_edges (address : string) (chars : Z) :
  (address <> "" ->
   Client.formatWalletAddress address 0 = ("..." ++ address)%string)
  /\ (address <> "" \/ 0 <= chars ->
      App.formatWalletAddress address chars
      = Client.formatWalletAddress address chars)
  /\ (chars < 0 ->
      Client.formatWalletAddress "" chars = "..."
      /\ App.formatWalletAddress "" chars = "").
Proof.
  split; [|split].
  - intros N. unfold Client.formatWalletAddress, Client.slice, Client.clamp.
    destruct address as [|c address]; [congruence|].
    change (Z.of_nat (String.length (String c address)) <=? 0 * 2) with false.
    cbv beta iota. change (- 0) with 0. change (0 <? 0) with false.
    cbv beta iota.
    rewrite !Z.min_l by lia.
    change (Z.to_nat (0 - 0)) with 0%nat. change (Z.to_nat 0) with 0%nat.
    rewrite Z.sub_0_r, Nat2Z.id.
    rewrite (@substring_all (String.length (String c address))) by lia.
    reflexivity.
  - intros H. unfold App.formatWalletAddress, Client.formatWalletAddress.
    destruct address as [|c address]; [|reflexivity].
    destruct H as [H|H]; [congruence|].
    cbn [truthy negb orb String.length Z.of_nat].
    destruct (0 <=? chars * 2) eqn:E; [reflexivity|apply Z.leb_gt in E; lia].
  - intros N. split; [|reflexivity].
    unfold Client.formatWalletAddress. cbn [String.length Z.of_nat].
    destruct (0 <=? chars * 2) eqn:E; [apply Z.leb_le in E; lia|].
    unfold Client.slice. cbn [String.length Z.of_nat].
    now destruct (Z.to_nat _), (Z.to_nat _), (Z.to_nat _), (Z.to_nat _).
Qed.

Lemma format_wallet_address_edges_witness :
  Client.formatWalletAddress "So11" 0 = "...So11"
  /\ App.formatWalletAddress "So11" 0 = "...So11"
  /\ Client.formatWalletAddress "" (-1) = "...".
Proof.
  split; [|split].
  - apply (proj1 (@format_wallet_address_edges "So11" 0)). discriminate.
  - rewrite (proj1 (proj2 (@format_wallet_address_edges "So11" 0)))
      by (left; discriminate).
    reflexivity.
  - apply (proj2 (proj2 (@format_wallet_address_edges "" (-1)))).
    lia.
Defined.


(** ** The table of the page *)

Lemma string_compare_trans a :
  forall b c,
    String.compare a b = Lt -> String.compare b c = Lt ->
    String.compare a c = Lt.
Proof.
  induction a as [|x a IH]; intros [|y b] [|z c]; simpl;
    try discriminate; try reflexivity.
  unfold Ascii.compare.
  destruct (N.compare_spec (N_of_ascii x) (N_of_ascii y)) as [E1|E1|E1],
           (N.compare_spec (N_of_ascii y) (N_of_ascii z)) as [E2|E2|E2],
           (N.compare_spec (N_of_ascii x) (N_of_ascii z)) as [E3|E3|E3];
    intros H1 H2; try discriminate; try reflexivity; try lia; eauto.
Qed.

Lemma string_ltb_asym a b : String.ltb a b = true -> String.ltb b a = false.
Proof.
  unfold String.ltb. rewrite (String.compare_antisym b a).
  now destruct (String.compare a b).
Qed.

Lemma string_ltb_negtrans a b c :
  String.ltb b a = false -> String.ltb c b = false -> String.ltb c a = false.
Proof.
  unfold String.ltb.
  rewrite (String.compare_antisym b a), (String.compare_antisym c b),
    (String.compare_antisym c a).
  destruct (String.compare a b) eqn:E1; try discriminate;
    destruct (String.compare b c) eqn:E2; try discriminate; intros _ _.
  - apply String.compare_eq_iff in E1. subst. now rewrite E2.
  - apply String.compare_eq_iff in E1. subst. now rewrite E2.
  - apply String.compare_eq_iff in E2. subst. now rewrite E1.
  - now rewrite (@string_compare_trans a b c E1 E2).
Qed.

Lemma less_asym k a b : App.less k a b = true -> App.less k b a = false.
Proof.
  destruct k; unfold App.less.
  - apply string_ltb_asym.
  - intros H. apply negb_true_iff in H. apply negb_false_iff.
    apply Qle_bool_iff. apply not_true_iff_false in H.
    rewrite Qle_bool_iff in H. lra.
  - intros H. apply negb_true_iff in H. apply negb_false_iff.
    apply Qle_bool_iff. apply not_true_iff_false in H.
    rewrite Qle_bool_iff in H. lra.
  - intros H. apply Z.ltb_lt in H. apply Z.ltb_ge. lia.
Qed.

Lemma less_negtrans k a b c :
  App.less k b a = false -> App.less k c b = false ->
  App.less k c a = false.
Proof.
  destruct k; unfold App.less.
  - apply string_ltb_negtrans.
  - rewrite !negb_false_iff, !Qle_bool_iff. lra.
  - rewrite !negb_false_iff, !Qle_bool_iff. lra.
  - rewrite !Z.ltb_ge. lia.
Qed.

Lemma before_compare k d a b :
  before (App.compare {| App.key := k; App.direction := d |}) a b
  <-> match d with
      | App.ascending => App.less k b a = false
      | App.descending => App.less k a b = false
      end.
Proof.
  unfold before, App.compare. cbn [App.key App.direction].
  destruct (App.less k a b) eqn:E1.
  - rewrite (less_asym _ _ _ E1). destruct d; split; intros; try reflexivity;
      discriminate.
  - destruct (App.less k b a) eqn:E2; destruct d; split; intros;
      try reflexivity; discriminate.
Qed.

Lemma sorted_by_compare k d data :
  StronglySorted
    (fun a b => match d with
                | App.ascending => App.less k b a = false
                | App.descending => App.less k a b = false
                end)
    (sort (App.compare {| App.key := k; App.direction := d |}) data).
Proof.
  eapply StronglySorted_impl;
    [|apply (@sort_sorted _ (App.compare {| App.key := k; App.direction := d |}))].
  - intros a b H. apply before_compare in H. exact H.
  - intros x y H. apply before_compare.
    destruct d.
    + destruct (App.less k y x) eqn:E.
      * now apply less_asym.
      * exfalso. apply H. apply before_compare. exact E.
    + destruct (App.less k x y) eqn:E.
      * now apply less_asym.
      * exfalso. apply H. apply before_compare. exact E.
  - intros x y z H1 H2. apply before_compare in H1, H2.
    apply before_compare. destruct d.
    + eapply less_negtrans; eassumption.
    + eapply less_negtrans; eassumption.
Qed.

(** X13. After a click on a column header the table shows the rows of
    [data], each as often as it is there, in the order of that column:
    no row stands before one with a smaller value, unless the table
    was already in ascending order of this column; then the order is
    descending, and no row stands before one with a greater value. *)
Theorem click_sorts_table (data : list App.WalletData)
    (sortConfig : option App.SortConfig) (k : App.Key) :
  let c := App.requestSort sortConfig k in
  let shown := App.sortedData data (Some c) in
  Permutation shown data
  /\ App.key c = k
  /\ (App.direction c = App.descending <->
      sortConfig = Some {| App.key := k; App.direction := App.ascending |})
  /\ (App.direction c = App.ascending ->
      StronglySorted (fun a b => App.less k b a = false) shown)
  /\ (App.direction c = App.descending ->
      StronglySorted (fun a b => App.less k a b = false) shown).
Proof.
  intros c shown.
  split; [apply sort_perm|]. split; [reflexivity|]. split.
  - unfold c, App.requestSort. cbn [App.direction].
    destruct sortConfig as [[k0 d0]|]; cbn [App.key App.direction].
    + destruct k0, k, d0; cbn [App.Key_eqb andb]; split; intros H;
        try reflexivity; try discriminate; congruence.
    + split; discriminate.
  - unfold shown, App.sortedData.
    change (sort (App.compare c) data)
      with (sort (App.compare {| App.key := k;
                                 App.direction := App.direction c |}) data).
    generalize (App.direction c). intros d.
    assert (S := sorted_by_compare k d data).
    split; intros D; subst d; exact S.
Qed.


Lemma click_sorts_table_witness :
  StronglySorted (fun a b => App.less App.Key_wallet b a = false)
    (App.sortedData
       [ {| App.wallet := "B"; App.amount := Some 5%Q; App.volume := None;
            App.lastTx := None |};
         {| App.wallet := "A"; App.amount := Some 7%Q; App.volume := None;
            App.lastTx := None |} ]
       (Some (App.requestSort None App.Key_wallet))).
Proof.
  apply (proj1 (proj2 (proj2 (proj2
           (@click_sorts_table
              [ {| App.wallet := "B"; App.amount := Some 5%Q;
                   App.volume := None; App.lastTx := None |};
                {| App.wallet := "A"; App.amount := Some 7%Q;
                   App.volume := None; App.lastTx := None |} ]
              None App.Key_wallet))))).
  reflexivity.
Defined.


(** ** Scans that end *)

Section PagedStops.

Variables B St : Type.
Variable message : string.
Variable guard : St -> Z -> bool.
Variable step : St -> Z -> option B -> St * bool.

Local Abbreviation paged := (paged message guard step).

(** If the loop cannot go on after the page [k] pages from its offset,
    it ends within [k + 1] requests. *)
Lemma paged_stops (up : Upstream B) k :
  forall fuel st offset,
    (k < fuel)%nat ->
    (forall st b,
       up (offset + pageSize * Z.of_nat k) = Resp b ->
       snd (step st (offset + pageSize * Z.of_nat k) b) = false) ->
    paged fuel up st offset <> OutOfFuel
    /\ (length (log_of (paged fuel up st offset)) <= S k)%nat.
Proof.
  induction k as [|k IH]; intros fuel st offset L H;
    (destruct fuel as [|fuel]; [lia|]); rewrite paged_unfold.
  - replace (offset + pageSize * Z.of_nat 0) with offset in H
      by (cbn [Z.of_nat]; lia).
    destruct (guard st offset); [|split; [discriminate|simpl; lia]].
    destruct (up offset) as [b|] eqn:U; [|split; [discriminate|simpl; lia]].
    specialize (H st b eq_refl).
    destruct (step st offset b) as [st' []]; [discriminate|].
    split; [discriminate|simpl; lia].
  - destruct (guard st offset); [|split; [discriminate|simpl; lia]].
    destruct (up offset) as [b|]; [|split; [discriminate|simpl; lia]].
    destruct (step st offset b) as [st' []];
      [|split; [discriminate|simpl; lia]].
    destruct (IH fuel st' (offset + pageSize)) as [F N]; [lia| |].
    + replace (offset + pageSize + pageSize * Z.of_nat k)
        with (offset + pageSize * Z.of_nat (S k)) by lia.
      exact H.
    + destruct (paged fuel up st' (offset + pageSize));
        [split; [discriminate|simpl in *; lia]
        |split; [discriminate|simpl in *; lia]
        |now contradiction F].
Qed.

End PagedStops.

Lemma requests_within (A C : Type) (o : outcome A) (f : A -> C) k :
  o <> OutOfFuel /\ (length (log_of o) <= k)%nat ->
  and_then o f <> OutOfFuel /\ (length (log_of (and_then o f)) <= k)%nat.
Proof.
  intros [F N]. split; [now apply and_then_finished|].
  now rewrite log_of_and_then.
Qed.

(** X14. A scan of the holders or of the interval ends once the
    upstream has no more to serve: if the page [k] pages from the
    start reports a total that ends with it (Pro), or is not full
    (public), the aggregation finishes, by returning or by throwing,
    after at most [k + 1] requests. *)
Theorem scans_end_with_the_data
    (fuel : nat) (key : option string)
    (holdersUp : Upstream Holders.Pro.SolscanResponse)
    (transfersUp : Upstream SolscanTransferResponse)
    (publicHoldersUp : Upstream (list Holder.t))
    (publicTxUp : Upstream (list PublicTx.t))
    (limit from to : number Z) (minAmount : number Q) (k : nat) :
  (k < fuel)%nat ->
  ((forall r, holdersUp (pageSize * Z.of_nat k) = Resp (Some r) ->
              Holders.Pro.total r <= pageSize * Z.of_nat (S k)) ->
   Holders.Pro.fetchHolders fuel key holdersUp limit minAmount <> OutOfFuel
   /\ (length (log_of (Holders.Pro.fetchHolders fuel key holdersUp limit
                         minAmount)) <= S k)%nat)
  /\ ((forall r, transfersUp (pageSize * Z.of_nat k) = Resp (Some r) ->
                 total r <= pageSize * Z.of_nat (S k)) ->
      Interval.Pro.fetchActiveWallets fuel key transfersUp from to
      <> OutOfFuel
      /\ (length (log_of (Interval.Pro.fetchActiveWallets fuel key
                            transfersUp from to)) <= S k)%nat)
  /\ ((length (page (@items _) publicHoldersUp (pageSize * Z.of_nat k)) < 50)%nat ->
      Holders.Public.fetchHolders fuel publicHoldersUp limit minAmount
      <> OutOfFuel
      /\ (length (log_of (Holders.Public.fetchHolders fuel publicHoldersUp
                            limit minAmount)) <= S k)%nat)
  /\ ((length (page (@items _) publicTxUp (pageSize * Z.of_nat k)) < 50)%nat ->
      Interval.Public.fetchActiveWallets fuel publicTxUp from to
      <> OutOfFuel
      /\ (length (log_of (Interval.Public.fetchActiveWallets fuel publicTxUp
                            from to)) <= S k)%nat).
Proof.
  intros L. split; [|split; [|split]]; intros H.
  - unfold Holders.Pro.fetchHolders.
    destruct (key_missing key); [split; [discriminate|simpl; lia]|].
    apply requests_within. rewrite holders_pro_paged.
    apply paged_stops; [exact L|].
    intros st b U. cbn [Z.add] in *. unfold HoldersSkeleton.pro_step.
    destruct b as [r|]; [|reflexivity].
    destruct (length (Holders.Pro.data r) =? 0)%nat; [reflexivity|].
    cbn [snd]. specialize (H r U).
    match goal with
    | |- context [?a <=? ?b] =>
        replace (a <=? b) with true
          by (symmetry; apply Z.leb_le; unfold pageSize in *; lia)
    end.
    now rewrite orb_true_r.
  - unfold Interval.Pro.fetchActiveWallets.
    destruct (key_missing key); [split; [discriminate|simpl; lia]|].
    apply requests_within. rewrite interval_pro_paged.
    apply paged_stops; [exact L|].
    intros st b U. unfold IntervalSkeleton.pro_step.
    destruct b as [r|]; [|reflexivity].
    destruct (length (data r) =? 0)%nat; [reflexivity|].
    destruct (Interval.Pro.scan from to (data r) st) as [aw c].
    cbn [snd]. specialize (H r U).
    match goal with
    | |- context [?a <=? ?b] =>
        replace (a <=? b) with true
          by (symmetry; apply Z.leb_le; unfold pageSize in *; lia)
    end.
    reflexivity.
  - unfold Holders.Public.fetchHolders.
    apply requests_within. rewrite holders_public_paged.
    apply paged_stops; [exact L|].
    intros st b U. unfold HoldersSkeleton.public_step.
    destruct b as [d|]; [|reflexivity].
    destruct (length d =? 0)%nat; [reflexivity|].
    cbn [snd]. unfold page in H. cbn [Z.add] in U. rewrite U in H.
    unfold items in H.
    replace (Z.of_nat (length d) <? pageSize)
      with true by (symmetry; apply Z.ltb_lt; unfold pageSize; lia).
    now rewrite orb_true_r.
  - unfold Interval.Public.fetchActiveWallets.
    apply requests_within. rewrite interval_public_paged.
    apply paged_stops; [exact L|].
    intros st b U. unfold IntervalSkeleton.public_step.
    destruct b as [d|]; [|reflexivity].
    destruct (length d =? 0)%nat; [reflexivity|].
    destruct (Interval.Public.scan from to d st) as [aw c].
    cbn [snd]. unfold page in H. cbn [Z.add] in U. rewrite U in H.
    unfold items in H.
    replace (Z.of_nat (length d) <? pageSize)
      with true by (symmetry; apply Z.ltb_lt; unfold pageSize; lia).
    reflexivity.
Qed.

Lemma scans_end_with_the_data_witness :
  Holders.Pro.fetchHolders 1 (Some "key") two_accounts (Num 10) (Num 0%Q)
  <> OutOfFuel
  /\ (length (log_of (Holders.Pro.fetchHolders 1 (Some "key") two_accounts
                        (Num 10%Z) (Num 0%Q))) <= 1)%nat.
Proof.
  apply (proj1 (@scans_end_with_the_data 1 (Some "key") two_accounts
                  (@nothing _) (@nothing _) (@nothing _) (Num 10) NaN NaN
                  (Num 0%Q) 0%nat ltac:(lia))).
  intros r U. vm_compute in U. injection U as <-. vm_compute. discriminate.
Defined.


(** ** Limits that are not positive *)

Lemma slice0_negative (A : Type) (l : list A) n :
  n < 0 -> slice0 l (Num n) = firstn (length l - Z.to_nat (- n)) l.
Proof.
  intros N. unfold slice0.
  destruct (n <? 0) eqn:E; [|apply Z.ltb_ge in E; lia].
  f_equal. lia.
Qed.

(** X15. A limit of zero or less asks the holders for nothing: no
    request is made and the result is empty.  The traders are still
    scanned: a limit of zero gives no row, and a negative limit gives
    all rows of the ranking but its last [-limit]. *)
Theorem limits_not_positive
    (fuel : nat) (key : option string)
    (holdersUp : Upstream Holders.Pro.SolscanResponse)
    (publicHoldersUp : Upstream (list Holder.t))
    (transfersUp : Upstream SolscanTransferResponse)
    (publicTxUp : Upstream (list PublicTx.t))
    (minAmount : number Q) (l : Z) :
  l <= 0 ->
  key_missing key = false ->
  Holders.Pro.fetchHolders (S fuel) key holdersUp (Num l) minAmount
  = Returned [] []
  /\ Holders.Public.fetchHolders (S fuel) publicHoldersUp (Num l) minAmount
     = Returned [] []
  /\ (forall rows log,
        Traders.Pro.fetchTopTraders key transfersUp (Num l)
        = Returned rows log ->
        let ranking :=
          Traders.Pro.sortedTraders
            (fold_left (accumulate transfer_wallet add_transfer)
               (fetched data transfersUp log) []) in
        rows = if l =? 0 then []
               else firstn (length ranking - Z.to_nat (- l)) ranking)
  /\ (forall rows log,
        Traders.Public.fetchTopTraders publicTxUp (Num l)
        = Returned rows log ->
        let ranking :=
          Traders.Public.sortedTraders
            (fold_left (accumulate trader_wallet count_transaction)
               (fetched (@items _) publicTxUp log) []) in
        rows = if l =? 0 then []
               else firstn (length ranking - Z.to_nat (- l)) ranking).
Proof.
  intros L K.
  assert (G : lt (Z.of_nat (@length HolderRow.t [])) (Num l) = false).
  { unfold lt. apply Z.ltb_ge. simpl. lia. }
  split; [|split; [|split]].
  - unfold Holders.Pro.fetchHolders. rewrite K.
    cbn [Holders.Pro.loop]. rewrite G. cbn [and_then].
    now rewrite slice0_nil.
  - unfold Holders.Public.fetchHolders.
    cbn [Holders.Public.loop]. rewrite G. cbn [and_then].
    now rewrite slice0_nil.
  - intros rows log H ranking. apply traders_pro_rows in H.
    fold ranking in H. rewrite H.
    destruct (l =? 0) eqn:E.
    + apply Z.eqb_eq in E. subst l. rewrite slice0_nonneg by lia.
      reflexivity.
    + apply Z.eqb_neq in E. apply slice0_negative. lia.
  - intros rows log H ranking. apply traders_public_rows in H.
    fold ranking in H. rewrite H.
    destruct (l =? 0) eqn:E.
    + apply Z.eqb_eq in E. subst l. rewrite slice0_nonneg by lia.
      reflexivity.
    + apply Z.eqb_neq in E. apply slice0_negative. lia.
Qed.

Lemma limits_not_positive_witness :
  Holders.Pro.fetchHolders 1 (Some "key") two_accounts (Num (-1)) (Num 0%Q)
  = Returned [] []
  /\ exists r,
       Traders.Pro.fetchTopTraders (Some "key") two_traders (Num (-1))
       = Returned [r] [0]
       /\ TraderRow.wallet r = "A".
Proof.
  pose proof (@limits_not_positive 0 (Some "key") two_accounts (@nothing _)
                two_traders (@nothing _) (Num 0%Q) (-1) ltac:(lia) eq_refl)
    as [H _].
  split; [exact H|].
  eexists. split; vm_compute; reflexivity.
Defined.


(** ** The order of the active wallets *)

Lemma set_same (V : Type) (m : dict V) k v :
  get m k = Some v -> set m k v = m.
Proof.
  induction m as [|[k0 v0] m IH]; simpl; [discriminate|].
  destruct (String.eqb k k0) eqn:E.
  - intros H. inversion H. reflexivity.
  - intros H. now rewrite IH.
Qed.

Lemma set_new (V : Type) (m : dict V) k v :
  get m k = None -> set m k v = m ++ [(k, v)].
Proof.
  induction m as [|[k0 v0] m IH]; simpl; [reflexivity|].
  destruct (String.eqb k k0) eqn:E; [discriminate|].
  intros H. now rewrite IH.
Qed.

Lemma StronglySorted_snoc (A : Type) (R : A -> A -> Prop) l y :
  StronglySorted R l -> Forall (fun a => R a y) l ->
  StronglySorted R (l ++ [y]).
Proof.
  induction 1 as [|x l S IH F]; intros H; simpl.
  - constructor; constructor.
  - inversion H as [|? ? Rx H']; subst.
    constructor; [now apply IH|].
    apply Forall_app. split; [exact F|]. constructor; [exact Rx|constructor].
Qed.

Lemma descending_scanned_prefix (X : Type) (time : X -> Z) from txs :
  descending time txs = true ->
  descending time (scanned time from txs) = true.
Proof.
  induction txs as [|tx txs IH]; simpl; [reflexivity|].
  intros D. apply andb_prop in D. destruct D as [A D].
  destruct (lt (time tx) from); [reflexivity|].
  simpl. rewrite (IH D), andb_true_r.
  apply forallb_forall. intros y I.
  rewrite forallb_forall in A. apply A.
  revert I. clear. induction txs as [|z txs IH]; simpl; [tauto|].
  destruct (lt (time z) from); simpl; [tauto|].
  intros [H|H]; [now left | right; auto].
Qed.

Section NewestFirst.

Variable X : Type.
Variable key : X -> option string.
Variable time : X -> Z.

Lemma accumulate_newest (m : dict Z) x :
  (forall k v, In (k, v) m -> time x <= v) ->
  accumulate key (later time) m x = m
  \/ exists k, accumulate key (later time) m x = m ++ [(k, time x)].
Proof.
  intros B. unfold accumulate.
  destruct (key x) as [k|]; [|now left].
  destruct (get m k) as [v|] eqn:G.
  - left. cbn [later].
    assert (time x <= v) by (eapply B, get_in, G).
    destruct (time x >? v) eqn:E; [apply Z.gtb_lt in E; lia|].
    now apply set_same.
  - right. exists k. cbn [later]. now apply set_new.
Qed.

Lemma newest_first xs :
  forall m : dict Z,
    descending time xs = true ->
    StronglySorted (fun a b => snd b <= snd a) m ->
    (forall k v x, In (k, v) m -> In x xs -> time x <= v) ->
    StronglySorted (fun a b => snd b <= snd a)
      (fold_left (accumulate key (later time)) xs m).
Proof.
  induction xs as [|x xs IH]; intros m D S B; [exact S|].
  cbn [fold_left]. cbn [descending] in D.
  apply andb_prop in D. destruct D as [A D].
  rewrite forallb_forall in A.
  assert (Bx : forall k v, In (k, v) m -> time x <= v)
    by (intros k v I; apply (B k v x I); now left).
  destruct (@accumulate_newest m x Bx) as [E | [k E]]; rewrite E.
  - apply IH; [exact D | exact S |].
    intros k v y I J. apply (B k v y I). now right.
  - apply IH; [exact D | |].
    + apply StronglySorted_snoc; [exact S|].
      apply Forall_forall. intros [k' v'] I. cbn [snd]. eapply Bx, I.
    + intros k' v' y I J. apply in_app_or in I. destruct I as [I|[I|[]]].
      * apply (B k' v' y I). now right.
      * inversion I; subst. apply Z.leb_le, A, J.
Qed.

End NewestFirst.

Lemma rows_newest_first (m : Interval.ActiveWallets) :
  StronglySorted (fun a b => snd b <= snd a) m ->
  StronglySorted (fun a b => ActiveRow.lastTx b <= ActiveRow.lastTx a)
    (Interval.rows m).
Proof.
  unfold Interval.rows.
  induction 1 as [|[k v] m S IH F]; simpl; constructor; [exact IH|].
  apply Forall_forall. intros r I. apply in_map_iff in I.
  destruct I as [[k' v'] [<- I]]. cbn [ActiveRow.lastTx].
  rewrite Forall_forall in F. exact (F _ I).
Qed.

(** X16. When the upstream serves the newest records first, the
    rows of the interval endpoints come out newest first too: no row
    stands before one with a later [lastTx]. *)
Theorem active_wallets_newest_first
    (fuel : nat) (key : option string)
    (up : Upstream SolscanTransferResponse)
    (publicUp : Upstream (list PublicTx.t)) (from to : number Z) :
  (forall rows log,
     Interval.Pro.fetchActiveWallets fuel key up from to = Returned rows log ->
     descending Transaction.blockTime (fetched data up log) = true ->
     StronglySorted
       (fun a b => ActiveRow.lastTx b <= ActiveRow.lastTx a) rows)
  /\ (forall rows log,
        Interval.Public.fetchActiveWallets fuel publicUp from to
        = Returned rows log ->
        descending PublicTx.blockTime (fetched (@items _) publicUp log)
        = true ->
        StronglySorted
          (fun a b => ActiveRow.lastTx b <= ActiveRow.lastTx a) rows).
Proof.
  split; intros rows log H D.
  - apply interval_pro_rows in H. destruct H as [-> _].
    apply rows_newest_first, newest_first.
    + now apply descending_scanned_prefix.
    + constructor.
    + intros k v x [].
  - apply interval_public_rows in H. destruct H as [-> _].
    apply rows_newest_first, newest_first.
    + now apply descending_scanned_prefix.
    + constructor.
    + intros k v x [].
Qed.

Lemma active_wallets_newest_first_witness :
  exists rows,
    Interval.Public.fetchActiveWallets 3 example_public_tx (Num 100) (Num 200)
    = Returned rows [0]
    /\ StronglySorted
         (fun a b => ActiveRow.lastTx b <= ActiveRow.lastTx a) rows.
Proof.
  eexists. split; [vm_compute; reflexivity|].
  apply (proj2 (@active_wallets_newest_first 3 None (@nothing _)
                  example_public_tx (Num 100) (Num 200)) _ [0]);
    vm_compute; reflexivity.
Defined.


(** ** The requests of a run *)

Lemma paged_log_offsets (B St : Type) message guard step fuel
    (up : Upstream B) (st : St) offset :
  log_of (paged message guard step fuel up st offset)
  = offsets offset
      (length (log_of (paged message guard step fuel up st offset))).
Proof.
  revert st offset.
  induction fuel as [|fuel IH]; intros st offset; [reflexivity|].
  rewrite paged_unfold.
  destruct (guard st offset); [|reflexivity].
  destruct (up offset) as [b|]; [|reflexivity].
  destruct (step st offset b) as [st' []]; [|reflexivity].
  specialize (IH st' (offset + pageSize)).
  match goal with
  | |- context [requested offset ?o] => destruct o
  end; cbn [requested log_of length offsets] in *; try reflexivity;
    f_equal; exact IH.
Qed.

Lemma offsets_lookup n : forall offset i,
  (i < n)%nat ->
  nth i (offsets offset n) 0 = offset + pageSize * Z.of_nat i.
Proof.
  induction n as [|n IH]; intros offset i L; [lia|].
  destruct i as [|i]; cbn [offsets nth]; [simpl; lia|].
  rewrite IH by lia. lia.
Qed.

(** X17. Whatever the request and the upstream, the six endpoints ask
    the upstream for consecutive pages, from the first one on: the
    [i]-th request is for offset [50 * i], so that no page is asked
    for twice and none is skipped. *)
Theorem requests_are_consecutive
    (parseFloat : string -> number Q) (fuel : nat) (key : option string)
    (holdersUp : Upstream Holders.Pro.SolscanResponse)
    (publicHoldersUp : Upstream (list Holder.t))
    (transfersUp : Upstream SolscanTransferResponse)
    (publicTxUp : Upstream (list PublicTx.t))
    (h : Holders.Query) (t : Traders.Query) (i : Interval.Query) :
  let logs :=
    [ served_log (Holders.Pro.handler parseFloat fuel key holdersUp h);
      served_log (HoldersJs.handler parseFloat fuel publicHoldersUp h);
      served_log (Traders.Pro.handler key transfersUp t);
      served_log (TradersJs.handler publicTxUp t);
      served_log (Interval.Pro.handler fuel key transfersUp i);
      served_log (IntervalJs.handler fuel publicTxUp i) ] in
  forall log, In log logs ->
    consecutive log
    /\ forall n, (n < length log)%nat -> nth n log 0 = 50 * Z.of_nat n.
Proof.
  intros logs log I.
  assert (C : consecutive log).
  { unfold consecutive. cbn [logs In] in I.
    destruct I as [<-|[<-|[<-|[<-|[<-|[<-|[]]]]]]].
    - rewrite holders_handler_cases.
      destruct (valid_token _); [|reflexivity].
      rewrite served_log_respond. unfold Holders.Pro.fetchHolders.
      destruct (key_missing key); [reflexivity|].
      rewrite log_of_and_then, holders_pro_paged. apply paged_log_offsets.
    - rewrite holders_js_handler_cases.
      destruct (valid_token _); [|reflexivity].
      rewrite served_log_respond_public. unfold Holders.Public.fetchHolders.
      rewrite log_of_and_then, holders_public_paged. apply paged_log_offsets.
    - rewrite traders_handler_cases.
      destruct (valid_token _); [|reflexivity].
      rewrite served_log_respond. unfold Traders.Pro.fetchTopTraders.
      destruct (key_missing key); [reflexivity|].
      rewrite log_of_and_then, traders_pro_paged, log_of_and_then.
      apply paged_log_offsets.
    - rewrite traders_js_handler_cases.
      destruct (valid_token _); [|reflexivity].
      rewrite served_log_respond_public. unfold Traders.Public.fetchTopTraders.
      rewrite log_of_and_then, traders_public_paged. apply paged_log_offsets.
    - rewrite interval_handler_cases.
      destruct (valid_token _); [|reflexivity].
      destruct (missing _ || missing _); [reflexivity|].
      rewrite served_log_respond. unfold Interval.Pro.fetchActiveWallets.
      destruct (key_missing key); [reflexivity|].
      rewrite log_of_and_then, interval_pro_paged. apply paged_log_offsets.
    - rewrite interval_js_handler_cases.
      destruct (valid_token _); [|reflexivity].
      destruct (missing _ || missing _); [reflexivity|].
      rewrite served_log_respond_public.
      unfold Interval.Public.fetchActiveWallets.
      rewrite log_of_and_then, interval_public_paged.
      apply paged_log_offsets. }
  split; [exact C|].
  intros n L. rewrite C. rewrite offsets_lookup by exact L.
  unfold pageSize. lia.
Qed.


Lemma requests_are_consecutive_witness :
  consecutive
    (served_log
       (Traders.Pro.handler (Some "key") two_traders
          {| Traders.token := Some (QStr "T"); Traders.limit := None |})).
Proof.
  apply (@requests_are_consecutive (fun _ => NaN) 1 (Some "key")
           (@nothing _) (@nothing _) two_traders (@nothing _)
           {| Holders.token := None; Holders.limit := None;
              Holders.minAmount := None |}
           {| Traders.token := Some (QStr "T"); Traders.limit := None |}
           {| Interval.token := None; Interval.from := None;
              Interval.to := None |}).
  right; right; left; reflexivity.
Defined.


(** ** The default limits *)

Lemma respond_rows (A : Type) (o : outcome (list A)) status rows log :
  respond o = Served status (Rows rows) log -> o = Returned rows log.
Proof. destruct o; simpl; intros H; inversion H; reflexivity. Qed.

Lemma respond_public_rows (A : Type) (o : outcome (list A)) status rows log :
  respond_public o = Served status (Rows rows) log -> o = Returned rows log.
Proof.
  destruct o; unfold respond_public, sendJSON; intros H; inversion H;
    reflexivity.
Qed.

Lemma slice0_at_most (A : Type) (l : list A) n :
  0 <= n -> Z.of_nat (length (slice0 l (Num n))) <= n.
Proof. intros H. rewrite slice0_length_nonneg by exact H. lia. Qed.

(** X18. A request that names no limit is answered with at most 100
    holders, and with at most 50 traders, by the Pro and by the public
    endpoints alike. *)
Theorem default_limits
    (parseFloat : string -> number Q) (fuel : nat) (key : option string)
    (holdersUp : Upstream Holders.Pro.SolscanResponse)
    (publicHoldersUp : Upstream (list Holder.t))
    (transfersUp : Upstream SolscanTransferResponse)
    (publicTxUp : Upstream (list PublicTx.t))
    (h : Holders.Query) (t : Traders.Query) :
  Holders.limit h = None ->
  Traders.limit t = None ->
  (forall status rows log,
     Holders.Pro.handler parseFloat fuel key holdersUp h
     = Served status (Rows rows) log ->
     Z.of_nat (length rows) <= 100)
  /\ (forall status rows log,
        HoldersJs.handler parseFloat fuel publicHoldersUp h
        = Served status (Rows rows) log ->
        Z.of_nat (length rows) <= 100)
  /\ (forall status rows log,
        Traders.Pro.handler key transfersUp t
        = Served status (Rows rows) log ->
        Z.of_nat (length rows) <= 50)
  /\ (forall status rows log,
        TradersJs.handler publicTxUp t = Served status (Rows rows) log ->
        Z.of_nat (length rows) <= 50).
Proof.
  intros Lh Lt.
  assert (P100 : parseInt "100" = Num 100) by reflexivity.
  assert (P50 : parseInt "50" = Num 50) by reflexivity.
  split; [|split; [|split]]; intros status rows log H.
  - rewrite holders_handler_cases in H.
    destruct (valid_token _); [|discriminate].
    apply respond_rows in H. rewrite Lh in H.
    cbn [with_default ToString] in H. rewrite P100 in H.
    apply holders_pro_rows in H. subst rows.
    apply slice0_at_most. lia.
  - rewrite holders_js_handler_cases in H.
    destruct (valid_token _); [|discriminate].
    apply respond_public_rows in H. rewrite Lh in H.
    cbn [with_default ToString] in H. rewrite P100 in H.
    apply holders_public_rows in H. subst rows.
    apply slice0_at_most. lia.
  - rewrite traders_handler_cases in H.
    destruct (valid_token _); [|discriminate].
    apply respond_rows in H. rewrite Lt in H.
    cbn [with_default ToString] in H. rewrite P50 in H.
    apply traders_pro_rows in H. subst rows.
    apply slice0_at_most. lia.
  - rewrite traders_js_handler_cases in H.
    destruct (valid_token _); [|discriminate].
    apply respond_public_rows in H. rewrite Lt in H.
    cbn [with_default ToString] in H. rewrite P50 in H.
    apply traders_public_rows in H. subst rows.
    apply slice0_at_most. lia.
Qed.

Lemma default_limits_witness :
  exists rows log,
    Traders.Pro.handler (Some "key") two_traders
      {| Traders.token := Some (QStr "T"); Traders.limit := None |}
    = Served 200 (Rows rows) log
    /\ Z.of_nat (length rows) <= 50.
Proof.
  eexists. eexists. split; [vm_compute; reflexivity|].
  eapply (proj1 (proj2 (proj2
            (@default_limits (fun _ => NaN) 1 (Some "key") (@nothing _)
               (@nothing _) two_traders (@nothing _)
               {| Holders.token := None; Holders.limit := None;
                  Holders.minAmount := None |}
               {| Traders.token := Some (QStr "T"); Traders.limit := None |}
               eq_refl eq_refl)))).
  vm_compute. reflexivity.
Defined.

(** ** The two versions of the holders endpoint *)

Lemma holders_versions_loop fuel
    (up : Upstream Holders.Pro.SolscanResponse)
    (publicUp : Upstream (list Holder.t)) limit minAmount :
  (forall o,
     match up o, publicUp o with
     | Reject, Reject => True
     | Resp None, Resp None => True
     | Resp (Some r), Resp (Some d) =>
         d = Holders.Pro.data r
         /\ (Holders.Pro.total r <=? o + pageSize)
            = (Z.of_nat (length d) <? pageSize)
     | _, _ => False
     end) ->
  forall holders offset,
    Holders.Pro.loop fuel up limit minAmount holders offset
    = Holders.Public.loop fuel publicUp limit minAmount holders offset.
Proof.
  intros R.
  induction fuel as [|fuel IH]; intros holders offset; [reflexivity|].
  cbn [Holders.Pro.loop Holders.Public.loop].
  destruct (lt (Z.of_nat (length holders)) limit); [|reflexivity].
  specialize (R offset).
  destruct (up offset) as [[r|]|], (publicUp offset) as [[d|]|];
    try contradiction; try reflexivity.
  destruct R as [-> E]. rewrite E, IH. reflexivity.
Qed.

(** X19. holders.ts and holders.js differ only in how they recognise
    the last page.  Against upstreams that serve the same records at
    every offset, and where a page ends the reported total exactly
    when it is not full, the two return the same rows after the same
    requests, or throw alike. *)
Theorem holders_versions_agree
    (fuel : nat) (key : option string)
    (up : Upstream Holders.Pro.SolscanResponse)
    (publicUp : Upstream (list Holder.t))
    (limit : number Z) (minAmount : number Q) :
  key_missing key = false ->
  (forall o,
     match up o, publicUp o with
     | Reject, Reject => True
     | Resp None, Resp None => True
     | Resp (Some r), Resp (Some d) =>
         d = Holders.Pro.data r
         /\ (Holders.Pro.total r <=? o + pageSize)
            = (Z.of_nat (length d) <? pageSize)
     | _, _ => False
     end) ->
  Holders.Pro.fetchHolders fuel key up limit minAmount
  = Holders.Public.fetchHolders fuel publicUp limit minAmount.
Proof.
  intros K R.
  unfold Holders.Pro.fetchHolders, Holders.Public.fetchHolders.
  rewrite K. now rewrite (holders_versions_loop fuel up publicUp limit minAmount R).
Qed.

Lemma holders_versions_agree_witness :
  Holders.Pro.fetchHolders 2 (Some "key") two_accounts (Num 10) (Num 40%Q)
  = Holders.Public.fetchHolders 2
      (fun o => match two_accounts o with
                | Resp (Some r) => Resp (Some (Holders.Pro.data r))
                | Resp None => Resp None
                | Reject => Reject
                end)
      (Num 10) (Num 40%Q).
Proof.
  apply holders_versions_agree; [reflexivity|].
  intros o. unfold two_accounts, one_page.
  destruct (o =? 0) eqn:E; [|exact I].
  apply Z.eqb_eq in E. subst o. split; reflexivity.
Defined.
